(** * setrefs: post-processing of a completed plan tree

    A shallow embedding of [src/backend/optimizer/plan/setrefs.c]: the pass
    that flattens the per-subquery range tables into one list, re-addresses
    every variable reference, fills in operator implementation handles and
    records the catalog objects a plan depends on.

    Conventions of the embedding.
    - [Index] and [Oid] are C [unsigned int], [AttrNumber] is [int16]; they
      are carried as [Z] and every addition the source performs on an
      [Index] is written with its 32-bit wrap-around ([Index_add]).
    - The planner-global accumulator is threaded explicitly through a small
      state-and-error monad [M]; [elog(ERROR, ...)] aborts the computation.
    - [Assert(...)] is compiled out unless [USE_ASSERT_CHECKING] is defined;
      the embedding follows the production build, so an assertion is a
      comment and not a check.
    - Expression trees are rebuilt by the mutators, exactly as
      [expression_tree_mutator] does; plan nodes are updated field by field.
    - Headers, catalog caches and node support routines that are not part of
      this file are collected in the class [Catalog]. *)

From Stdlib Require Import ZArith List String Bool Lia.
Import ListNotations.
Open Scope Z_scope.

Set Implicit Arguments.
Set Warnings "-register-all".

(** ** Scalars *)

Definition Oid := Z.
Definition Index := Z.
Definition AttrNumber := Z.
Definition Datum := Z.

Definition InvalidOid : Oid := 0.
Definition OidIsValid (o : Oid) : bool := negb (o =? InvalidOid).

(** [a += b] on an [Index]: unsigned 32-bit addition. *)
Definition Index_add (a : Index) (b : Z) : Index := (a + b) mod 2 ^ 32.

(** [a += b] on an [int]: two's complement 32-bit addition. *)
Definition int_add (a b : Z) : Z := (a + b + 2 ^ 31) mod 2 ^ 32 - 2 ^ 31.

Definition DatumGetObjectId (d : Datum) : Oid := d mod 2 ^ 32.

(** ** Expression nodes *)

Record Var : Type := mkVar {
  varno : Index;
  varattno : AttrNumber;
  vartype : Oid;
  vartypmod : Z;
  varcollid : Oid;
  varlevelsup : Index;
  varnoold : Index;
  varoattno : AttrNumber
}.

Record Const : Type := mkConst {
  consttype : Oid;
  consttypmod : Z;
  constcollid : Oid;
  constvalue : Datum;
  constisnull : bool
}.

(** [OpExpr], [DistinctExpr] and [NullIfExpr] share one struct layout; the
    source relies on that equivalence, and so does the embedding. *)
Inductive OpTag : Type := OpExprTag | DistinctExprTag | NullIfExprTag.

Inductive Node : Type :=
| T_Var (var : Var)
| T_Const (con : Const)
| T_PlaceHolderVar (phexpr : Node) (phid : Z)
| T_Aggref (aggfnoid : Oid) (args : list Node)
| T_WindowFunc (winfnoid : Oid) (args : list Node)
| T_FuncExpr (funcid : Oid) (funcretset : bool) (args : list Node)
| T_OpExpr (tag : OpTag) (opno opfuncid : Oid) (opretset : bool)
           (args : list Node)
| T_ScalarArrayOpExpr (opno opfuncid : Oid) (useOr : bool) (args : list Node)
| T_ArrayCoerceExpr (arg : Node) (elemfuncid : Oid)
| T_RelabelType (arg : Node) (resulttype : Oid)
| T_Grouping
| T_GroupId
| T_Expr (tag : Z) (args : list Node).
(* [T_Expr] stands for every other expression kind (boolean connectives,
   CASE, coercions, ...): a tag and the expression children that the tree
   walker visits. *)

Record TargetEntry : Type := mkTargetEntry {
  expr : Node;
  resno : AttrNumber;
  resname : option string;
  ressortgroupref : Index;
  resorigtbl : Oid;
  resorigcol : AttrNumber;
  resjunk : bool
}.

(** An induction principle that reaches the children held in lists. *)
Section NodeInd.
Variable P : Node -> Prop.
Hypothesis HVar : forall v, P (T_Var v).
Hypothesis HConst : forall c, P (T_Const c).
Hypothesis HPhv : forall e i, P e -> P (T_PlaceHolderVar e i).
Hypothesis HAgg : forall f l, Forall P l -> P (T_Aggref f l).
Hypothesis HWin : forall f l, Forall P l -> P (T_WindowFunc f l).
Hypothesis HFunc : forall f r l, Forall P l -> P (T_FuncExpr f r l).
Hypothesis HOp : forall t o f r l, Forall P l -> P (T_OpExpr t o f r l).
Hypothesis HSaop : forall o f u l,
    Forall P l -> P (T_ScalarArrayOpExpr o f u l).
Hypothesis HCoerce : forall e f, P e -> P (T_ArrayCoerceExpr e f).
Hypothesis HRelabel : forall e t, P e -> P (T_RelabelType e t).
Hypothesis HGrouping : P T_Grouping.
Hypothesis HGroupId : P T_GroupId.
Hypothesis HExpr : forall t l, Forall P l -> P (T_Expr t l).

Fixpoint Node_ind' (n : Node) : P n :=
  let all := fix all (l : list Node) : Forall P l :=
               match l with
               | [] => Forall_nil P
               | x :: r => Forall_cons x (Node_ind' x) (all r)
               end in
  match n with
  | T_Var v => HVar v
  | T_Const c => HConst c
  | T_PlaceHolderVar e i => HPhv i (Node_ind' e)
  | T_Aggref f l => HAgg f (all l)
  | T_WindowFunc f l => HWin f (all l)
  | T_FuncExpr f r l => HFunc f r (all l)
  | T_OpExpr t o f r l => HOp t o f r (all l)
  | T_ScalarArrayOpExpr o f u l => HSaop o f u (all l)
  | T_ArrayCoerceExpr e f => HCoerce f (Node_ind' e)
  | T_RelabelType e t => HRelabel t (Node_ind' e)
  | T_Grouping => HGrouping
  | T_GroupId => HGroupId
  | T_Expr t l => HExpr t (all l)
  end.
End NodeInd.

(** ** Range table, row marks, planner-global state *)

Inductive RTEKind : Type :=
| RTE_RELATION | RTE_SUBQUERY | RTE_JOIN | RTE_SPECIAL | RTE_FUNCTION
| RTE_VALUES | RTE_CTE | RTE_TABLEFUNCTION | RTE_VOID.

Definition RTEKind_eqb (a b : RTEKind) : bool :=
  match a, b with
  | RTE_RELATION, RTE_RELATION | RTE_SUBQUERY, RTE_SUBQUERY
  | RTE_JOIN, RTE_JOIN | RTE_SPECIAL, RTE_SPECIAL
  | RTE_FUNCTION, RTE_FUNCTION | RTE_VALUES, RTE_VALUES
  | RTE_CTE, RTE_CTE | RTE_TABLEFUNCTION, RTE_TABLEFUNCTION
  | RTE_VOID, RTE_VOID => true
  | _, _ => false
  end.

Record CdbRelColumnInfo : Type := mkCdbRelColumnInfo {
  pseudoattno : AttrNumber;
  defexpr : Node
}.

Record RangeTblEntry : Type := mkRangeTblEntry {
  rtekind : RTEKind;
  relid : Oid;
  funcexpr : option Node;
  joinaliasvars : list Node;
  values_lists : list (list Node);
  pseudocols : list CdbRelColumnInfo
}.

Record PlanRowMark : Type := mkPlanRowMark {
  rti : Index;
  prti : Index;
  rowmarkId : Index
}.

Definition ItemPointerData := Z.

Record PlanInvalItem : Type := mkPlanInvalItem {
  cacheId : Z;
  tupleId : ItemPointerData
}.

Record PlannerGlobal : Type := mkPlannerGlobal {
  finalrtable : list RangeTblEntry;
  finalrowmarks : list PlanRowMark;
  relationOids : list Oid;
  invalItems : list PlanInvalItem;
  resultRelations : list Z
}.

(** ** What the pass takes from the rest of the system *)

Class Catalog : Type := {
  (* primnodes.h: the two reserved relation slots *)
  INNER : Index;
  OUTER : Index;
  (* access/transam.h, access/sysattr.h, catalog/pg_type.h, syscache.h *)
  FirstBootstrapObjectId : Oid;
  FirstLowInvalidHeapAttributeNumber : AttrNumber;
  REGCLASSOID : Oid;
  OIDOID : Oid;
  PROCOID : Z;
  (* lsyscache.c: implementation of an operator *)
  get_opcode : Oid -> Oid;
  (* SearchSysCache1(PROCOID, funcid): the tuple's t_self, if it is valid *)
  SearchSysCache1_PROCOID : Oid -> option ItemPointerData;
  (* definition of a pseudo column of a range-table entry, if there is one *)
  cdb_rte_find_pseudo_column : RangeTblEntry -> AttrNumber -> option Node;
  (* nodeFuncs.c *)
  exprType : Node -> Oid;
  exprTypmod : Node -> Z;
  exprCollation : Node -> Oid;
  expression_returns_set : list TargetEntry -> bool
}.

(** ** The state-and-error monad *)

Inductive Error : Type :=
| elog_ERROR (msg : string)      (* elog(ERROR, msg) *)
| Undefined (what : string)      (* NULL dereference, bad cast, bad index *)
| OutOfFuel.

Inductive Res (A : Type) : Type :=
| Ok (a : A)
| Err (e : Error).
Arguments Err {A} e.

Definition M (A : Type) : Type := PlannerGlobal -> Res (A * PlannerGlobal).

Definition ret {A} (a : A) : M A := fun glob => Ok (a, glob).

Definition bind {A B} (m : M A) (k : A -> M B) : M B :=
  fun glob =>
    match m glob with
    | Ok (a, glob') => k a glob'
    | Err e => Err e
    end.

Definition raise {A} (e : Error) : M A := fun _ => Err e.
Definition get_glob : M PlannerGlobal := fun glob => Ok (glob, glob).
Definition put_glob (g : PlannerGlobal) : M unit := fun _ => Ok (tt, g).

Declare Scope monad_scope.
Delimit Scope monad_scope with monad.
Notation "x <- m ;; k" := (bind m (fun x => k))
  (at level 100, m at next level, right associativity) : monad_scope.
Notation "m ;;; k" := (bind m (fun _ => k))
  (at level 100, right associativity) : monad_scope.
Open Scope monad_scope.

Section MapM.
Context {A B : Type} (f : A -> M B).

(** [foreach] over a list, left to right, collecting the results. *)
Fixpoint mapM (l : list A) : M (list B) :=
  match l with
  | [] => ret []
  | x :: r => y <- f x ;; ys <- mapM r ;; ret (y :: ys)
  end.
End MapM.

Definition optM {A B} (f : A -> M B) (o : option A) : M (option B) :=
  match o with
  | None => ret None                  (* if (node == NULL) return NULL; *)
  | Some a => b <- f a ;; ret (Some b)
  end.

(** ** Node support routines *)

Section ListEqb.
Context {A : Type} (eqb : A -> A -> bool).

Fixpoint list_eqb (l1 l2 : list A) : bool :=
  match l1, l2 with
  | [], [] => true
  | x :: r, y :: s => eqb x y && list_eqb r s
  | _, _ => false
  end.
End ListEqb.

Definition Var_eqb (a b : Var) : bool :=
  (varno a =? varno b) && (varattno a =? varattno b) &&
  (vartype a =? vartype b) && (vartypmod a =? vartypmod b) &&
  (varcollid a =? varcollid b) && (varlevelsup a =? varlevelsup b) &&
  (varnoold a =? varnoold b) && (varoattno a =? varoattno b).

Definition Const_eqb (a b : Const) : bool :=
  (consttype a =? consttype b) && (consttypmod a =? consttypmod b) &&
  (constcollid a =? constcollid b) && (constvalue a =? constvalue b) &&
  Bool.eqb (constisnull a) (constisnull b).

Definition OpTag_eqb (a b : OpTag) : bool :=
  match a, b with
  | OpExprTag, OpExprTag | DistinctExprTag, DistinctExprTag
  | NullIfExprTag, NullIfExprTag => true
  | _, _ => false
  end.

(** Modelled from the spec: [equal()] of nodes/equalfuncs.c, which is not
    part of this file; the spec describes the comparison used for matching
    a whole expression against a child's output as "deep structural
    equality". *)
Fixpoint equal (a b : Node) : bool :=
  match a, b with
  | T_Var v1, T_Var v2 => Var_eqb v1 v2
  | T_Const c1, T_Const c2 => Const_eqb c1 c2
  | T_PlaceHolderVar e1 i1, T_PlaceHolderVar e2 i2 =>
      equal e1 e2 && (i1 =? i2)
  | T_Aggref f1 l1, T_Aggref f2 l2 => (f1 =? f2) && list_eqb equal l1 l2
  | T_WindowFunc f1 l1, T_WindowFunc f2 l2 =>
      (f1 =? f2) && list_eqb equal l1 l2
  | T_FuncExpr f1 r1 l1, T_FuncExpr f2 r2 l2 =>
      (f1 =? f2) && Bool.eqb r1 r2 && list_eqb equal l1 l2
  | T_OpExpr t1 o1 f1 r1 l1, T_OpExpr t2 o2 f2 r2 l2 =>
      OpTag_eqb t1 t2 && (o1 =? o2) && (f1 =? f2) && Bool.eqb r1 r2 &&
      list_eqb equal l1 l2
  | T_ScalarArrayOpExpr o1 f1 u1 l1, T_ScalarArrayOpExpr o2 f2 u2 l2 =>
      (o1 =? o2) && (f1 =? f2) && Bool.eqb u1 u2 && list_eqb equal l1 l2
  | T_ArrayCoerceExpr e1 f1, T_ArrayCoerceExpr e2 f2 =>
      equal e1 e2 && (f1 =? f2)
  | T_RelabelType e1 t1, T_RelabelType e2 t2 => equal e1 e2 && (t1 =? t2)
  | T_Grouping, T_Grouping => true
  | T_GroupId, T_GroupId => true
  | T_Expr t1 l1, T_Expr t2 l2 => (t1 =? t2) && list_eqb equal l1 l2
  | _, _ => false
  end.

(** Modelled from the spec: [tlist_member()] of optimizer/util/tlist.c,
    which is not part of this file: the first entry of the list whose
    expression is structurally equal to the given node. *)
Definition tlist_member (node : Node) (targetlist : list TargetEntry)
  : option TargetEntry :=
  find (fun tle => equal node (expr tle)) targetlist.

Definition IsA_Var (n : Node) : bool :=
  match n with T_Var _ => true | _ => false end.
Definition IsA_Const (n : Node) : bool :=
  match n with T_Const _ => true | _ => false end.
Definition IsA_PlaceHolderVar (n : Node) : bool :=
  match n with T_PlaceHolderVar _ _ => true | _ => false end.
Definition IsA_GroupId (n : Node) : bool :=
  match n with T_GroupId => true | _ => false end.
Definition IsA_Grouping (n : Node) : bool :=
  match n with T_Grouping => true | _ => false end.

(** [rt_fetch(index, rtable)] is [list_nth(rtable, index - 1)]; an index
    outside the list is an invalid memory access. *)
Definition rt_fetch (rangetable_index : Index) (rangetable : list RangeTblEntry)
  : option RangeTblEntry :=
  if 1 <=? rangetable_index
  then nth_error rangetable (Z.to_nat (rangetable_index - 1))
  else None.

Definition list_length {A} (l : list A) : Z := Z.of_nat (List.length l).

Section Setrefs.
Context {cat : Catalog}.

(** Modelled from the spec: [makeVar()] of nodes/makefuncs.c, which is not
    part of this file: a fresh variable reference for the given slot and
    attribute, whose diagnostics-only original pair starts as the same
    pair. *)
Definition makeVar (varno : Index) (varattno : AttrNumber) (vartype : Oid)
           (vartypmod : Z) (varcollid : Oid) (varlevelsup : Index) : Var :=
  mkVar varno varattno vartype vartypmod varcollid varlevelsup varno varattno.

(** Modelled from the spec: [makeVarFromTargetEntry()] of nodes/makefuncs.c,
    which is not part of this file: the variable that takes the entry's
    output position from the given slot. *)
Definition makeVarFromTargetEntry (varno : Index) (tle : TargetEntry) : Var :=
  makeVar varno (resno tle) (exprType (expr tle)) (exprTypmod (expr tle))
          (exprCollation (expr tle)) 0.

(** *** Operator implementation handles *)

(** [set_opfuncid] / [set_sa_opfuncid]: the value of the [opfuncid] field
    after the call. *)
Definition set_opfuncid (opno opfuncid : Oid) : Oid :=
  if opfuncid =? InvalidOid then get_opcode opno else opfuncid.

(** *** Query dependency management *)

Definition record_plan_function_dependency (funcid : Oid) : M unit :=
  fun glob =>
    if FirstBootstrapObjectId <=? funcid then
      match SearchSysCache1_PROCOID funcid with
      | None => Err (elog_ERROR "cache lookup failed for function")
      | Some t_self =>
          let inval_item := mkPlanInvalItem PROCOID t_self in
          Ok (tt, mkPlannerGlobal (finalrtable glob) (finalrowmarks glob)
                    (relationOids glob)
                    (invalItems glob ++ [inval_item])
                    (resultRelations glob))
      end
    else Ok (tt, glob).

Definition ISREGCLASSCONST (con : Const) : bool :=
  ((consttype con =? REGCLASSOID) || (consttype con =? OIDOID)) &&
  negb (constisnull con).

Definition lappend_relationOid (o : Oid) : M unit :=
  fun glob =>
    Ok (tt, mkPlannerGlobal (finalrtable glob) (finalrowmarks glob)
              (relationOids glob ++ [o]) (invalItems glob)
              (resultRelations glob)).

(** [fix_expr_common] updates the node it is given in place (the operator
    handle) and appends to the planner-global lists.  The in-place update
    is [fix_expr_common_node]; the effect on the lists is
    [fix_expr_common]. *)
Definition fix_expr_common_node (node : Node) : Node :=
  match node with
  | T_OpExpr t opno opfuncid r l => T_OpExpr t opno (set_opfuncid opno opfuncid) r l
  | T_ScalarArrayOpExpr opno opfuncid u l =>
      T_ScalarArrayOpExpr opno (set_opfuncid opno opfuncid) u l
  | _ => node
  end.

Definition fix_expr_common (node : Node) : M unit :=
  match node with
  | T_Aggref aggfnoid _ => record_plan_function_dependency aggfnoid
  | T_WindowFunc winfnoid _ => record_plan_function_dependency winfnoid
  | T_FuncExpr funcid _ _ => record_plan_function_dependency funcid
  | T_OpExpr _ opno opfuncid _ _ =>
      record_plan_function_dependency (set_opfuncid opno opfuncid)
  | T_ScalarArrayOpExpr opno opfuncid _ _ =>
      record_plan_function_dependency (set_opfuncid opno opfuncid)
  | T_ArrayCoerceExpr _ elemfuncid =>
      if OidIsValid elemfuncid
      then record_plan_function_dependency elemfuncid
      else ret tt
  | T_Const con =>
      if ISREGCLASSCONST con
      then lappend_relationOid (DatumGetObjectId (constvalue con))
      else ret tt
  | _ => ret tt
  end.

(** *** Tree traversal *)

(** [expression_tree_mutator]: a copy of the node in which every expression
    child is replaced by the mutator's result, children taken left to
    right. *)
Definition expression_tree_mutator (mutator : Node -> M Node) (node : Node)
  : M Node :=
  match node with
  | T_Var _ | T_Const _ | T_Grouping | T_GroupId => ret node
  | T_PlaceHolderVar e i => e' <- mutator e ;; ret (T_PlaceHolderVar e' i)
  | T_Aggref f l => l' <- mapM mutator l ;; ret (T_Aggref f l')
  | T_WindowFunc f l => l' <- mapM mutator l ;; ret (T_WindowFunc f l')
  | T_FuncExpr f r l => l' <- mapM mutator l ;; ret (T_FuncExpr f r l')
  | T_OpExpr t o f r l => l' <- mapM mutator l ;; ret (T_OpExpr t o f r l')
  | T_ScalarArrayOpExpr o f u l =>
      l' <- mapM mutator l ;; ret (T_ScalarArrayOpExpr o f u l')
  | T_ArrayCoerceExpr e f => e' <- mutator e ;; ret (T_ArrayCoerceExpr e' f)
  | T_RelabelType e t => e' <- mutator e ;; ret (T_RelabelType e' t)
  | T_Expr t l => l' <- mapM mutator l ;; ret (T_Expr t l')
  end.

(** [expression_tree_walker] visits the same children in the same order.
    The walkers of this file never stop early and only update nodes in
    place, so a walker is given as the tree it leaves behind. *)
Definition expression_tree_walker (walker : Node -> M Node) (node : Node)
  : M Node :=
  expression_tree_mutator walker node.

(** *** Scan-level expressions *)

Record fix_scan_expr_context : Type := mk_fix_scan_expr_context {
  scan_rtoffset : Z
}.

Fixpoint fix_scan_expr_walker (context : fix_scan_expr_context) (node : Node)
  {struct node} : M Node :=
  fix_expr_common node ;;;
  node' <- expression_tree_walker (fix_scan_expr_walker context) node ;;
  ret (fix_expr_common_node node').

Definition copyVar (var : Var) : Var := var.

Definition set_varno (var : Var) (n : Index) : Var :=
  mkVar n (varattno var) (vartype var) (vartypmod var) (varcollid var)
        (varlevelsup var) (varnoold var) (varoattno var).
Definition set_varattno (var : Var) (a : AttrNumber) : Var :=
  mkVar (varno var) a (vartype var) (vartypmod var) (varcollid var)
        (varlevelsup var) (varnoold var) (varoattno var).
Definition set_varnoold (var : Var) (n : Index) : Var :=
  mkVar (varno var) (varattno var) (vartype var) (vartypmod var)
        (varcollid var) (varlevelsup var) n (varoattno var).
Definition set_varoattno (var : Var) (a : AttrNumber) : Var :=
  mkVar (varno var) (varattno var) (vartype var) (vartypmod var)
        (varcollid var) (varlevelsup var) (varnoold var) a.

(** [if (var->varnoold > 0) var->varnoold += rtoffset;] *)
Definition shift_varnoold (var : Var) (rtoffset : Z) : Var :=
  if 0 <? varnoold var
  then set_varnoold var (Index_add (varnoold var) rtoffset)
  else var.

Fixpoint fix_scan_expr_mutator (context : fix_scan_expr_context) (node : Node)
  {struct node} : M Node :=
  match node with
  | T_Var v =>
      let var := copyVar v in
      let var := set_varno var (Index_add (varno var) (scan_rtoffset context)) in
      let var := shift_varnoold var (scan_rtoffset context) in
      (* Pseudo column reference? *)
      if varattno var <=? FirstLowInvalidHeapAttributeNumber then
        glob <- get_glob ;;
        match rt_fetch (varno var) (finalrtable glob) with
        | None => raise (Undefined "rt_fetch")
        | Some rte =>
            match cdb_rte_find_pseudo_column rte (varattno var) with
            | None => raise (Undefined "rci->defexpr")
            | Some defexpr =>
                (* exprCopy = copyObject(rci->defexpr);
                   fix_scan_expr_walker(exprCopy, context); *)
                fix_scan_expr_walker context defexpr
            end
        end
      else ret (T_Var var)
  | T_PlaceHolderVar phexpr _ =>
      (* At scan level, we should always just evaluate the contained expr *)
      fix_scan_expr_mutator context phexpr
  | _ =>
      fix_expr_common node ;;;
      node' <- expression_tree_mutator (fix_scan_expr_mutator context) node ;;
      ret (fix_expr_common_node node')
  end.

Definition fix_scan_expr (node : option Node) (rtoffset : Z)
  : M (option Node) :=
  optM (fix_scan_expr_mutator (mk_fix_scan_expr_context rtoffset)) node.

(** [fix_scan_list] on a list of clauses and on a target list: the mutator
    passes through the list cells and the target entries and rebuilds
    them around the fixed expressions. *)
Definition fix_scan_list (lst : list Node) (rtoffset : Z) : M (list Node) :=
  mapM (fix_scan_expr_mutator (mk_fix_scan_expr_context rtoffset)) lst.

Definition set_expr (tle : TargetEntry) (e : Node) : TargetEntry :=
  mkTargetEntry e (resno tle) (resname tle) (ressortgroupref tle)
                (resorigtbl tle) (resorigcol tle) (resjunk tle).

Definition flatCopyTargetEntry (tle : TargetEntry) : TargetEntry := tle.

Definition mutate_tlist (mutator : Node -> M Node) (tl : list TargetEntry)
  : M (list TargetEntry) :=
  mapM (fun tle => e <- mutator (expr tle) ;; ret (set_expr tle e)) tl.

Definition fix_scan_tlist (tl : list TargetEntry) (rtoffset : Z)
  : M (list TargetEntry) :=
  mutate_tlist (fix_scan_expr_mutator (mk_fix_scan_expr_context rtoffset)) tl.

(** *** Indexed target lists *)

Record tlist_vinfo : Type := mk_tlist_vinfo {
  vi_varno : Index;          (* RT index of Var *)
  vi_varattno : AttrNumber;  (* attr number of Var *)
  vi_resno : AttrNumber      (* TLE position of Var *)
}.

Record indexed_tlist : Type := mk_indexed_tlist {
  tlist : list TargetEntry;  (* underlying target list *)
  has_ph_vars : bool;        (* are there PlaceHolderVar entries? *)
  has_non_vars : bool;       (* are there other entries? *)
  vars : list tlist_vinfo    (* the num_vars plain Var entries *)
}.

Definition num_vars (itlist : indexed_tlist) : Z := list_length (vars itlist).

(** The loop that steps through the [RelabelType] nodes on top of an entry's
    expression, together with whether its body ran. *)
Fixpoint strip_RelabelType (e : Node) : Node * bool :=
  match e with
  | T_RelabelType arg _ => (fst (strip_RelabelType arg), true)
  | _ => (e, false)
  end.

Definition build_tlist_index_step (itlist : indexed_tlist) (tle : TargetEntry)
  : indexed_tlist :=
  let '(e, relabelled) := strip_RelabelType (expr tle) in
  let non_vars := has_non_vars itlist || relabelled in
  match e with
  | T_Var var =>
      mk_indexed_tlist (tlist itlist) (has_ph_vars itlist) non_vars
        (vars itlist ++ [mk_tlist_vinfo (varno var) (varattno var) (resno tle)])
  | _ =>
      if IsA_PlaceHolderVar (expr tle)
      then mk_indexed_tlist (tlist itlist) true non_vars (vars itlist)
      else mk_indexed_tlist (tlist itlist) (has_ph_vars itlist) true
                            (vars itlist)
  end.

Definition build_tlist_index (targetlist : list TargetEntry) : indexed_tlist :=
  fold_left build_tlist_index_step targetlist
            (mk_indexed_tlist targetlist false false []).

Definition build_tlist_index_other_vars_step (ignore_rel : Index)
           (itlist : indexed_tlist) (tle : TargetEntry) : indexed_tlist :=
  match expr tle with
  | T_Var var =>
      if negb (varno var =? ignore_rel)
      then mk_indexed_tlist (tlist itlist) (has_ph_vars itlist)
             (has_non_vars itlist)
             (vars itlist ++
                [mk_tlist_vinfo (varno var) (varattno var) (resno tle)])
      else itlist
  | T_PlaceHolderVar _ _ =>
      mk_indexed_tlist (tlist itlist) true (has_non_vars itlist) (vars itlist)
  | _ => itlist
  end.

Definition build_tlist_index_other_vars (targetlist : list TargetEntry)
           (ignore_rel : Index) : indexed_tlist :=
  fold_left (build_tlist_index_other_vars_step ignore_rel) targetlist
            (mk_indexed_tlist targetlist false false []).

Definition search_indexed_tlist_for_var (var : Var) (itlist : indexed_tlist)
           (newvarno : Index) (rtoffset : Z) : option Var :=
  match find (fun vinfo => (vi_varno vinfo =? varno var) &&
                           (vi_varattno vinfo =? varattno var))
             (vars itlist) with
  | Some vinfo =>
      (* Found a match *)
      let newvar := copyVar var in
      let newvar := set_varno newvar newvarno in
      let newvar := set_varattno newvar (vi_resno vinfo) in
      Some (shift_varnoold newvar rtoffset)
  | None => None                 (* no match *)
  end.

Definition search_indexed_tlist_for_non_var (node : Node)
           (itlist : indexed_tlist) (newvarno : Index) : option Var :=
  match tlist_member node (tlist itlist) with
  | Some tle =>
      (* Found a matching subplan output expression *)
      let newvar := makeVarFromTargetEntry newvarno tle in
      let newvar := set_varnoold newvar 0 in    (* wasn't ever a plain Var *)
      Some (set_varoattno newvar 0)
  | None => None                 (* no match *)
  end.

Definition search_indexed_tlist_for_sortgroupref (node : Node)
           (sortgroupref : Index) (itlist : indexed_tlist) (newvarno : Index)
  : option Var :=
  match find (fun tle => (ressortgroupref tle =? sortgroupref) &&
                         equal node (expr tle))
             (tlist itlist) with
  | Some tle =>
      let newvar := makeVarFromTargetEntry newvarno tle in
      let newvar := set_varnoold newvar 0 in
      Some (set_varoattno newvar 0)
  | None => None
  end.

(** *** Join-level expressions *)

Record fix_join_expr_context : Type := mk_fix_join_expr_context {
  outer_itlist : indexed_tlist;
  inner_itlist : option indexed_tlist;     (* may be NULL *)
  acceptable_rel : Index;
  join_rtoffset : Z;
  use_outer_tlist_for_matching_nonvars : bool;
  use_inner_tlist_for_matching_nonvars : bool
}.

(** The two places where the mutator looks a whole expression up in the
    inner child's list.  The second one is guarded by two nested [if]s:
    the first has no body of its own, so the second is its body. *)
Definition join_search_inner_ph (context : fix_join_expr_context)
           (node : Node) : option Var :=
  match inner_itlist context with
  | Some inner =>
      if has_ph_vars inner
      then search_indexed_tlist_for_non_var node inner INNER
      else None
  | None => None
  end.

Definition join_search_inner_non_var (context : fix_join_expr_context)
           (node : Node) : option Var :=
  match inner_itlist context with
  | Some inner =>
      if has_non_vars inner && use_inner_tlist_for_matching_nonvars context
      then
        if has_non_vars inner
        then search_indexed_tlist_for_non_var node inner INNER
        else None
      else None
  | None => None
  end.

Definition join_search_outer_non_var (context : fix_join_expr_context)
           (node : Node) : option Var :=
  if has_non_vars (outer_itlist context) &&
     use_outer_tlist_for_matching_nonvars context
  then search_indexed_tlist_for_non_var node (outer_itlist context) OUTER
  else None.

Definition join_search_var (context : fix_join_expr_context) (var : Var)
  : option Var :=
  match search_indexed_tlist_for_var var (outer_itlist context) OUTER
          (join_rtoffset context) with
  | Some newvar => Some newvar
  | None =>
      match inner_itlist context with
      | Some inner =>
          search_indexed_tlist_for_var var inner INNER (join_rtoffset context)
      | None => None
      end
  end.

Fixpoint fix_join_expr_mutator (context : fix_join_expr_context) (node : Node)
  {struct node} : M Node :=
  match node with
  | T_Var var =>
      (* First look for the var in the input tlists *)
      match join_search_var context var with
      | Some newvar => ret (T_Var newvar)
      | None =>
          (* If it's for an acceptable_rel, return it *)
          if varno var =? acceptable_rel context
          then ret (T_Var (shift_varnoold (copyVar var) (join_rtoffset context)))
          else (* No referent found for Var *)
            raise (elog_ERROR "variable not found in subplan target lists")
      end
  | T_PlaceHolderVar phexpr _ =>
      (* See if the PlaceHolderVar has bubbled up from a lower plan node *)
      match (if has_ph_vars (outer_itlist context)
             then search_indexed_tlist_for_non_var node (outer_itlist context)
                                                   OUTER
             else None) with
      | Some newvar => ret (T_Var newvar)
      | None =>
          match join_search_inner_ph context node with
          | Some newvar => ret (T_Var newvar)
          | None =>
              (* If not supplied by input plans, evaluate the contained expr *)
              fix_join_expr_mutator context phexpr
          end
      end
  | _ =>
      (* Try matching more complex expressions too, if tlists have any *)
      match join_search_outer_non_var context node with
      | Some newvar => ret (T_Var newvar)
      | None =>
          match join_search_inner_non_var context node with
          | Some newvar => ret (T_Var newvar)
          | None =>
              fix_expr_common node ;;;
              node' <- expression_tree_mutator
                         (fix_join_expr_mutator context) node ;;
              ret (fix_expr_common_node node')
          end
      end
  end.

Definition fix_join_expr (clauses : list Node) (outer_itlist : indexed_tlist)
           (inner_itlist : option indexed_tlist) (acceptable_rel : Index)
           (rtoffset : Z) : M (list Node) :=
  let context := mk_fix_join_expr_context outer_itlist inner_itlist
                   acceptable_rel rtoffset true true in
  mapM (fix_join_expr_mutator context) clauses.

Definition fix_join_tlist (clauses : list TargetEntry)
           (outer_itlist : indexed_tlist)
           (inner_itlist : option indexed_tlist) (acceptable_rel : Index)
           (rtoffset : Z) : M (list TargetEntry) :=
  let context := mk_fix_join_expr_context outer_itlist inner_itlist
                   acceptable_rel rtoffset true true in
  mutate_tlist (fix_join_expr_mutator context) clauses.

Definition fix_child_hashclauses (clauses : Node)
           (outer_itlist : indexed_tlist)
           (inner_itlist : option indexed_tlist) (acceptable_rel : Index)
           (rtoffset : Z) (child : Index) : M Node :=
  let context :=
    if INNER =? child
    then (* skips using outer target list when matching non-vars *)
      mk_fix_join_expr_context outer_itlist inner_itlist acceptable_rel
        rtoffset false true
    else (* skips using inner target list when matching non-vars *)
      mk_fix_join_expr_context outer_itlist inner_itlist acceptable_rel
        rtoffset true false in
  fix_join_expr_mutator context clauses.

(** One hash clause: an [OpExpr] with exactly two arguments (the source
    only asserts this; [linitial]/[lsecond] on a shorter list, or the cast
    of another node to [OpExpr], is an invalid access). *)
Definition fix_hashclause (outer_itlist : indexed_tlist)
           (inner_itlist : option indexed_tlist) (acceptable_rel : Index)
           (rtoffset : Z) (node : Node) : M Node :=
  match node with
  | T_OpExpr t opno opfuncid r (outer_arg :: inner_arg :: _) =>
      new_outer_arg <- fix_child_hashclauses outer_arg outer_itlist
                         inner_itlist 0 rtoffset OUTER ;;
      new_inner_arg <- fix_child_hashclauses inner_arg outer_itlist
                         inner_itlist 0 rtoffset INNER ;;
      (* replace old arguments with the fixed arguments, fix opexpr *)
      let node' := T_OpExpr t opno opfuncid r [new_outer_arg; new_inner_arg] in
      fix_expr_common node' ;;;
      ret (fix_expr_common_node node')
  | _ => raise (Undefined "hash clause")
  end.

Definition fix_hashclauses (clauses : list Node) (outer_itlist : indexed_tlist)
           (inner_itlist : option indexed_tlist) (acceptable_rel : Index)
           (rtoffset : Z) : M (list Node) :=
  mapM (fix_hashclause outer_itlist inner_itlist acceptable_rel rtoffset)
       clauses.

(** *** Upper-level expressions *)

Record fix_upper_expr_context : Type := mk_fix_upper_expr_context {
  subplan_itlist : indexed_tlist;
  upper_rtoffset : Z
}.

Fixpoint fix_upper_expr_mutator (context : fix_upper_expr_context)
         (node : Node) {struct node} : M Node :=
  match node with
  | T_Var var =>
      match search_indexed_tlist_for_var var (subplan_itlist context) OUTER
              (upper_rtoffset context) with
      | None => raise (elog_ERROR "variable not found in subplan target list")
      | Some newvar => ret (T_Var newvar)
      end
  | T_PlaceHolderVar phexpr _ =>
      (* See if the PlaceHolderVar has bubbled up from a lower plan node *)
      match (if has_ph_vars (subplan_itlist context)
             then search_indexed_tlist_for_non_var node
                    (subplan_itlist context) OUTER
             else None) with
      | Some newvar => ret (T_Var newvar)
      | None =>
          (* If not supplied by input plan, evaluate the contained expr *)
          fix_upper_expr_mutator context phexpr
      end
  | _ =>
      (* Try matching more complex expressions too, if tlist has any *)
      match (if has_non_vars (subplan_itlist context) &&
                negb (IsA_GroupId node)
             then search_indexed_tlist_for_non_var node
                    (subplan_itlist context) OUTER
             else None) with
      | Some newvar => ret (T_Var newvar)
      | None =>
          fix_expr_common node ;;;
          node' <- expression_tree_mutator
                     (fix_upper_expr_mutator context) node ;;
          ret (fix_expr_common_node node')
      end
  end.

Definition fix_upper_expr (node : option Node) (subplan_itlist : indexed_tlist)
           (rtoffset : Z) : M (option Node) :=
  optM (fix_upper_expr_mutator
          (mk_fix_upper_expr_context subplan_itlist rtoffset)) node.

Definition fix_upper_list (lst : list Node) (subplan_itlist : indexed_tlist)
           (rtoffset : Z) : M (list Node) :=
  mapM (fix_upper_expr_mutator
          (mk_fix_upper_expr_context subplan_itlist rtoffset)) lst.

Definition fix_upper_tlist (tl : list TargetEntry)
           (subplan_itlist : indexed_tlist) (rtoffset : Z)
  : M (list TargetEntry) :=
  mutate_tlist (fix_upper_expr_mutator
                  (mk_fix_upper_expr_context subplan_itlist rtoffset)) tl.

(** The body of the [foreach] of [set_upper_references]. *)
Definition set_upper_references_tle (subplan_itlist : indexed_tlist)
           (rtoffset : Z) (tle : TargetEntry) : M TargetEntry :=
  newexpr <-
    (if IsA_Grouping (expr tle) || IsA_GroupId (expr tle)
     then ret (expr tle)                    (* copyObject(tle->expr) *)
     else
       (* If it's a non-Var sort/group item, first try to match by sortref *)
       if negb (ressortgroupref tle =? 0) && negb (IsA_Var (expr tle))
       then
         match search_indexed_tlist_for_sortgroupref (expr tle)
                 (ressortgroupref tle) subplan_itlist OUTER with
         | Some newvar => ret (T_Var newvar)
         | None =>
             fix_upper_expr_mutator
               (mk_fix_upper_expr_context subplan_itlist rtoffset) (expr tle)
         end
       else
         fix_upper_expr_mutator
           (mk_fix_upper_expr_context subplan_itlist rtoffset) (expr tle)) ;;
  let tle := flatCopyTargetEntry tle in
  ret (set_expr tle newexpr).

(** *** Output lists of nodes that do not evaluate them *)

Definition set_dummy_tlist_references_tle (rtoffset : Z) (tle : TargetEntry)
  : TargetEntry :=
  let oldvar := expr tle in
  let newvar := makeVar OUTER (resno tle) (exprType oldvar)
                        (exprTypmod oldvar) (exprCollation oldvar) 0 in
  let newvar :=
    match oldvar with
    | T_Var oldvar =>
        set_varoattno
          (set_varnoold newvar (Index_add (varno oldvar) rtoffset))
          (varattno oldvar)
    | _ =>
        (* wasn't ever a plain Var *)
        set_varoattno (set_varnoold newvar 0) 0
    end in
  let tle := flatCopyTargetEntry tle in
  set_expr tle (T_Var newvar).

(** The new output list; [plan->qual] is not touched. *)
Definition dummy_tlist (targetlist : list TargetEntry) (rtoffset : Z)
  : list TargetEntry :=
  map (set_dummy_tlist_references_tle rtoffset) targetlist.

End Setrefs.

(** ** Plan nodes *)

Inductive NodeTag : Type :=
| T_Plan
| T_SeqScan | T_AppendOnlyScan | T_AOCSScan | T_ExternalScan
| T_IndexScan | T_BitmapIndexScan
| T_BitmapHeapScan | T_BitmapAppendOnlyScan | T_BitmapTableScan
| T_TidScan | T_SubqueryScan | T_TableFunctionScan | T_FunctionScan
| T_ValuesScan | T_CteScan | T_WorkTableScan | T_ForeignScan
| T_NestLoop | T_MergeJoin | T_HashJoin
| T_Sort | T_Hash | T_Material | T_Unique | T_SetOp
| T_ShareInputScan | T_PartitionSelector | T_LockRows | T_Limit
| T_Agg | T_WindowAgg | T_Result | T_Repeat | T_ModifyTable
| T_Append | T_MergeAppend | T_RecursiveUnion | T_BitmapAnd | T_BitmapOr
| T_Motion
| T_OtherPlan (tag : Z).     (* a plan node kind the dispatcher does not list *)

Record Flow : Type := mkFlow {
  hashExpr : list Node
}.

Record NestLoopParam : Type := mkNestLoopParam {
  paramno : Z;
  paramval : Var
}.

(** The fields that a node's own struct adds to [struct Plan], over the
    type [P] of plan nodes. *)
Inductive PlanFieldsOf (P : Type) : Type :=
| PlainFields
| ScanFields (scanrelid : Index)
| IndexScanFields (scanrelid : Index)
    (indexqual indexqualorig indexorderby indexorderbyorig : list Node)
| BitmapIndexScanFields (scanrelid : Index)
    (indexqual indexqualorig : list Node)
| BitmapScanFields (scanrelid : Index) (bitmapqualorig : list Node)
| TidScanFields (scanrelid : Index) (tidquals : list Node)
| SubqueryScanFields (scanrelid : Index) (subplan : option P)
    (subrtable : list RangeTblEntry) (subrowmark : list PlanRowMark)
| TableFunctionScanFields (scanrelid : Index) (subrtable : list RangeTblEntry)
| FunctionScanFields (scanrelid : Index) (funcexpr : option Node)
| ValuesScanFields (scanrelid : Index) (values_lists : list (list Node))
| NestLoopFields (joinqual : list Node) (nestParams : list NestLoopParam)
| MergeJoinFields (joinqual : list Node) (mergeclauses : list Node)
| HashJoinFields (joinqual : list Node) (hashclauses : list Node)
    (hashqualclauses : list Node)
| PartitionSelectorFields (levelEqExpressions levelExpressions : list Node)
    (residualPredicate propagationExpression printablePredicate : option Node)
    (partTabTargetlist : list TargetEntry)
| LockRowsFields (rowMarks : list PlanRowMark)
| LimitFields (limitOffset limitCount : option Node)
| WindowAggFields (startOffset endOffset : option Node)
| ResultFields (resconstantqual : option Node)
| ModifyTableFields (resultRelations : list Z) (rowMarks : list PlanRowMark)
    (plans : list P) (resultRelIndex : Z)
| PlanListFields (plans : list P)  (* appendplans, mergeplans, bitmapplans *)
| MotionFields (hashExpr : list Node).

Arguments PlainFields {P}.
Arguments ScanFields {P}.
Arguments IndexScanFields {P}.
Arguments BitmapIndexScanFields {P}.
Arguments BitmapScanFields {P}.
Arguments TidScanFields {P}.
Arguments TableFunctionScanFields {P}.
Arguments FunctionScanFields {P}.
Arguments ValuesScanFields {P}.
Arguments NestLoopFields {P}.
Arguments MergeJoinFields {P}.
Arguments HashJoinFields {P}.
Arguments PartitionSelectorFields {P}.
Arguments LockRowsFields {P}.
Arguments LimitFields {P}.
Arguments WindowAggFields {P}.
Arguments ResultFields {P}.
Arguments MotionFields {P}.

(** A plan node: the fields of [struct Plan] that the pass reads or writes,
    and the fields of the node's own struct. *)
Inductive Plan : Type := mkPlan {
  type : NodeTag;
  targetlist : list TargetEntry;
  qual : list Node;
  lefttree : option Plan;
  righttree : option Plan;
  initPlan : list Node;
  flow : option Flow;
  fields : PlanFieldsOf Plan
}.

Definition PlanFields : Type := PlanFieldsOf Plan.

Definition set_targetlist (plan : Plan) (tl : list TargetEntry) : Plan :=
  mkPlan (type plan) tl (qual plan) (lefttree plan) (righttree plan)
         (initPlan plan) (flow plan) (fields plan).
Definition set_qual (plan : Plan) (q : list Node) : Plan :=
  mkPlan (type plan) (targetlist plan) q (lefttree plan) (righttree plan)
         (initPlan plan) (flow plan) (fields plan).
Definition set_lefttree (plan : Plan) (l : option Plan) : Plan :=
  mkPlan (type plan) (targetlist plan) (qual plan) l (righttree plan)
         (initPlan plan) (flow plan) (fields plan).
Definition set_righttree (plan : Plan) (r : option Plan) : Plan :=
  mkPlan (type plan) (targetlist plan) (qual plan) (lefttree plan) r
         (initPlan plan) (flow plan) (fields plan).
Definition set_initPlan (plan : Plan) (i : list Node) : Plan :=
  mkPlan (type plan) (targetlist plan) (qual plan) (lefttree plan)
         (righttree plan) i (flow plan) (fields plan).
Definition set_flow (plan : Plan) (f : option Flow) : Plan :=
  mkPlan (type plan) (targetlist plan) (qual plan) (lefttree plan)
         (righttree plan) (initPlan plan) f (fields plan).
Definition set_fields (plan : Plan) (x : PlanFields) : Plan :=
  mkPlan (type plan) (targetlist plan) (qual plan) (lefttree plan)
         (righttree plan) (initPlan plan) (flow plan) x.

(** ** The pass over plan nodes *)

Definition deref {A} (o : option A) (what : string) : M A :=
  match o with
  | Some a => ret a
  | None => raise (Undefined what)
  end.

(** [set_plan_refs] updates the node it is given in place and returns a
    pointer: to that node or, where a subquery scan is pulled out or a
    projection is put on top, to another node.  The full-evaluation guard
    keeps a pointer to a node it has passed down and writes through it
    afterwards, so the embedding has to know where that node is in the
    tree that comes back.  [Returned] is the node returned together with
    just that.  [SameNode p left_at] is the node given, and [left_at]
    tells how many levels down the left spine of [p] the node is that was
    its left child on entry.  [OtherNode p given_at] is another node, and
    [given_at] tells how many levels down the left spine of [p] the node
    given is.  [None] stands for a node that is not part of the tree
    returned: there was none, or it has been left behind. *)
Inductive Returned : Type :=
| SameNode (p : Plan) (left_at : option nat)
| OtherNode (p : Plan) (given_at : option nat).

Definition returned_plan (r : Returned) : Plan :=
  match r with
  | SameNode p _ | OtherNode p _ => p
  end.

(** Where the node that was [plan->lefttree] is, below [plan], once
    [plan->lefttree = set_plan_refs(plan->lefttree)] has been done and has
    handed [l] back. *)
Definition left_child_at (l : option Returned) : option nat :=
  match l with
  | Some (SameNode _ _) => Some 1%nat
  | Some (OtherNode _ (Some depth)) => Some (S depth)
  | Some (OtherNode _ None) | None => None
  end.

(** [node->flow = flow] for the node [depth] levels down the left spine
    of [plan]. *)
Fixpoint set_flow_at (depth : nat) (plan : Plan) (f : option Flow) : Plan :=
  match depth with
  | O => set_flow plan f
  | S depth' =>
      set_lefttree plan
        (option_map (fun p => set_flow_at depth' p f) (lefttree plan))
  end.

Section Dispatcher.
Context {cat : Catalog}.

(** [fix_opfuncids]: the operator handle of every operator node of a tree
    filled in, in place. *)
Fixpoint fix_opfuncids (node : Node) : Node :=
  match node with
  | T_Var _ | T_Const _ | T_Grouping | T_GroupId => node
  | T_PlaceHolderVar e i => T_PlaceHolderVar (fix_opfuncids e) i
  | T_Aggref f l => T_Aggref f (map fix_opfuncids l)
  | T_WindowFunc f l => T_WindowFunc f (map fix_opfuncids l)
  | T_FuncExpr f r l => T_FuncExpr f r (map fix_opfuncids l)
  | T_OpExpr t o f r l =>
      T_OpExpr t o (set_opfuncid o f) r (map fix_opfuncids l)
  | T_ScalarArrayOpExpr o f u l =>
      T_ScalarArrayOpExpr o (set_opfuncid o f) u (map fix_opfuncids l)
  | T_ArrayCoerceExpr e f => T_ArrayCoerceExpr (fix_opfuncids e) f
  | T_RelabelType e t => T_RelabelType (fix_opfuncids e) t
  | T_Expr t l => T_Expr t (map fix_opfuncids l)
  end.

Definition makeTargetEntry (expr : Node) (resno : AttrNumber)
           (resname : option string) (resjunk : bool) : TargetEntry :=
  mkTargetEntry expr resno resname 0 InvalidOid 0 resjunk.

(** Modelled from the spec: [pull_var_clause()] and [flatten_tlist()] of
    optimizer/util, which are not part of this file: "a minimal set of
    plain variable references covering every value the wrapper needs".
    The call in the source asks to look inside aggregates and to keep
    placeholders whole. *)
Fixpoint pull_var_clause (node : Node) : list Node :=
  match node with
  | T_Var _ => [node]
  | T_PlaceHolderVar _ _ => [node]
  | T_Const _ | T_Grouping | T_GroupId => []
  | T_Aggref _ l | T_WindowFunc _ l | T_FuncExpr _ _ l | T_OpExpr _ _ _ _ l
  | T_ScalarArrayOpExpr _ _ _ l | T_Expr _ l => flat_map pull_var_clause l
  | T_ArrayCoerceExpr e _ | T_RelabelType e _ => pull_var_clause e
  end.

Definition add_to_flat_tlist (tl : list TargetEntry) (exprs : list Node)
  : list TargetEntry :=
  fold_left (fun tl e =>
               match tlist_member e tl with
               | Some _ => tl
               | None => tl ++ [makeTargetEntry e (list_length tl + 1) None
                                                false]
               end) exprs tl.

Definition flatten_tlist (tl : list TargetEntry) : list TargetEntry :=
  add_to_flat_tlist [] (flat_map (fun tle => pull_var_clause (expr tle)) tl).

(** Modelled from the spec: [make_result()] of optimizer/plan/createplan.c,
    which is not part of this file: a projection node with the given output
    list and constant qualification over the given child. *)
Definition make_result (tl : list TargetEntry) (resconstantqual : option Node)
           (subplan : Plan) : Plan :=
  mkPlan T_Result tl [] (Some subplan) None [] None
         (ResultFields resconstantqual).

Definition cdb_expr_requires_full_eval (tl : list TargetEntry) : bool :=
  expression_returns_set tl.

Definition lappend_finalrtable (rte : RangeTblEntry) : M unit :=
  fun glob =>
    Ok (tt, mkPlannerGlobal (finalrtable glob ++ [rte]) (finalrowmarks glob)
              (relationOids glob) (invalItems glob) (resultRelations glob)).

Definition lappend_finalrowmarks (rc : PlanRowMark) : M unit :=
  fun glob =>
    Ok (tt, mkPlannerGlobal (finalrtable glob) (finalrowmarks glob ++ [rc])
              (relationOids glob) (invalItems glob) (resultRelations glob)).

Definition list_concat_resultRelations (l : list Z) : M unit :=
  fun glob =>
    Ok (tt, mkPlannerGlobal (finalrtable glob) (finalrowmarks glob)
              (relationOids glob) (invalItems glob)
              (resultRelations glob ++ l)).

Definition list_length_resultRelations : M Z :=
  fun glob => Ok (list_length (resultRelations glob), glob).

(** [rc->rti += rtoffset; rc->prti += rtoffset;] but not the rowmarkId. *)
Definition shift_rowmark (rtoffset : Z) (rc : PlanRowMark) : PlanRowMark :=
  mkPlanRowMark (Index_add (rti rc) rtoffset) (Index_add (prti rc) rtoffset)
                (rowmarkId rc).

(** The first loop of [set_plan_references], for one range-table entry.
    The three calls of [fix_scan_expr] drop their results: what stays of
    them is what they record in the planner-global lists and the operator
    handles they fill in, in place, in the copied entry. *)
Definition flatten_rte (rtoffset : Z) (rte : RangeTblEntry) : M unit :=
  fix_scan_expr (funcexpr rte) rtoffset ;;;
  fix_scan_list (joinaliasvars rte) rtoffset ;;;
  mapM (fun l => fix_scan_list l rtoffset) (values_lists rte) ;;;
  let newrte :=
    mkRangeTblEntry (rtekind rte) (relid rte)
      (option_map fix_opfuncids (funcexpr rte))
      (map fix_opfuncids (joinaliasvars rte))
      (map (map fix_opfuncids) (values_lists rte))
      (pseudocols rte) in
  lappend_finalrtable newrte ;;;
  (* If it's a plain relation RTE, add the table to relationOids. *)
  if RTEKind_eqb (rtekind newrte) RTE_RELATION
  then lappend_relationOid (relid newrte)
  else ret tt.

Definition flatten_rowmark (rtoffset : Z) (rc : PlanRowMark) : M unit :=
  lappend_finalrowmarks (shift_rowmark rtoffset rc).

(** [set_plan_references], given the recursive call [set_plan_refs] on the
    plan tree; it hands back what that call hands back. *)
Definition set_plan_references_with {R : Type}
           (set_plan_refs_rec : option Plan -> Z -> M R)
           (plan : option Plan)
           (rtable : list RangeTblEntry) (rowmarks : list PlanRowMark)
  : M R :=
  glob <- get_glob ;;
  let rtoffset := list_length (finalrtable glob) in
  mapM (flatten_rte rtoffset) rtable ;;;
  mapM (flatten_rowmark rtoffset) rowmarks ;;;
  (* Now fix the Plan tree *)
  set_plan_refs_rec plan rtoffset.

Section Subplans.

(** The recursive call: [set_plan_refs] on a node one level down, where
    only the node returned matters. *)
Variable set_plan_refs_rec : option Plan -> Z -> M (option Plan).

Definition set_plan_refs_list (l : list Plan) (rtoffset : Z) : M (list Plan) :=
  mapM (fun p => r <- set_plan_refs_rec (Some p) rtoffset ;;
                 deref r "lfirst(l)") l.

(** *** Subquery wrappers *)

Definition trivial_subqueryscan_tle (attrno : Z) (ptle ctle : TargetEntry)
  : bool :=
  if negb (Bool.eqb (resjunk ptle) (resjunk ctle))
  then false                     (* tlist doesn't match junk status *)
  else
    match expr ptle with
    | T_Var var => varattno var =? attrno    (* else: out of order *)
    | T_Const _ => equal (expr ptle) (expr ctle)
    | _ => false
    end.

Fixpoint trivial_subqueryscan_loop (attrno : Z) (lp lc : list TargetEntry)
  : bool :=
  match lp, lc with
  | ptle :: lp', ctle :: lc' =>
      if trivial_subqueryscan_tle attrno ptle ctle
      then trivial_subqueryscan_loop (attrno + 1) lp' lc'
      else false
  | _, _ => true
  end.

Definition trivial_subqueryscan_tlists
           (plan_targetlist subplan_targetlist : list TargetEntry) : bool :=
  if negb (list_length plan_targetlist =? list_length subplan_targetlist)
  then false                     (* tlists not same length *)
  else trivial_subqueryscan_loop 1 plan_targetlist subplan_targetlist.

(** [trivial_subqueryscan]: the subplan is only looked at when the wrapper
    has no qual. *)
Definition trivial_subqueryscan (plan : Plan) : M bool :=
  match fields plan with
  | SubqueryScanFields _ subplan _ _ =>
      match qual plan with
      | _ :: _ => ret false
      | [] =>
          subplan <- deref subplan "plan->subplan" ;;
          ret (trivial_subqueryscan_tlists (targetlist plan)
                                           (targetlist subplan))
      end
  | _ => raise (Undefined "SubqueryScan")
  end.

(** The [forboth] that moves the wrapper's labels onto the subplan's
    entries. *)
Fixpoint transfer_labels (lp lc : list TargetEntry) : list TargetEntry :=
  match lp, lc with
  | ptle :: lp', ctle :: lc' =>
      mkTargetEntry (expr ctle) (resno ctle) (resname ptle)
                    (ressortgroupref ctle) (resorigtbl ptle) (resorigcol ptle)
                    (resjunk ctle)
        :: transfer_labels lp' lc'
  | _, lc => lc
  end.

Definition pull_up_subplan (plan result : Plan) : Plan :=
  (* We have to be sure we don't lose any initplans *)
  let result := set_initPlan result (initPlan plan ++ initPlan result) in
  let result := set_targetlist result
                  (transfer_labels (targetlist plan) (targetlist result)) in
  (* Honor the flow of the SubqueryScan, by copying it to the subplan. *)
  set_flow result (flow plan).

(** [set_subqueryscan_references], with the whereabouts of the node
    given: the subplan pulled up is another node and leaves the wrapper
    behind; the wrapper kept is the node given, and its left child has
    not been touched. *)
Definition set_subqueryscan_references_returned (plan : Plan) (rtoffset : Z)
  : M Returned :=
  match fields plan with
  | SubqueryScanFields scanrelid subplan subrtable subrowmark =>
      (* First, recursively process the subplan *)
      subplan <- set_plan_references_with set_plan_refs_rec
                   subplan subrtable subrowmark ;;
      (* subrtable/subrowmark are no longer needed in the plan tree *)
      let plan :=
        set_fields plan (SubqueryScanFields scanrelid subplan [] []) in
      trivial <- trivial_subqueryscan plan ;;
      if (trivial : bool)
      then
        (* We can omit the SubqueryScan node and just pull up the subplan. *)
        result <- deref subplan "plan->subplan" ;;
        ret (OtherNode (pull_up_subplan plan result) None)
      else
        (* Keep the SubqueryScan node. *)
        tl <- fix_scan_tlist (targetlist plan) rtoffset ;;
        q <- fix_scan_list (qual plan) rtoffset ;;
        ret (SameNode
               (set_qual
                  (set_targetlist
                     (set_fields plan
                        (SubqueryScanFields (Index_add scanrelid rtoffset)
                                            subplan [] []))
                     tl) q)
               (match lefttree plan with
                | Some _ => Some 1%nat
                | None => None
                end))
  | _ => raise (Undefined "SubqueryScan")
  end.

(** [set_subqueryscan_references]: the node returned. *)
Definition set_subqueryscan_references (plan : Plan) (rtoffset : Z)
  : M Plan :=
  r <- set_subqueryscan_references_returned plan rtoffset ;;
  ret (returned_plan r).

End Subplans.

(** *** Joins and upper nodes *)

Definition set_join_references (join : Plan) (rtoffset : Z) : M Plan :=
  outer_plan <- deref (lefttree join) "outer_plan" ;;
  inner_plan <- deref (righttree join) "inner_plan" ;;
  let outer_itlist := build_tlist_index (targetlist outer_plan) in
  let inner_itlist := build_tlist_index (targetlist inner_plan) in
  let fix_join l := fix_join_expr l outer_itlist (Some inner_itlist) 0
                                  rtoffset in
  (* All join plans have tlist, qual, and joinqual *)
  tl <- fix_join_tlist (targetlist join) outer_itlist (Some inner_itlist) 0
                       rtoffset ;;
  q <- fix_join (qual join) ;;
  (* Now do join-type-specific stuff *)
  x <- match type join, fields join with
       | T_NestLoop, NestLoopFields joinqual nestParams =>
           joinqual <- fix_join joinqual ;;
           nestParams <-
             mapM (fun nlp =>
                     v <- fix_upper_expr_mutator
                            (mk_fix_upper_expr_context outer_itlist rtoffset)
                            (T_Var (paramval nlp)) ;;
                     match v with
                     | T_Var v => ret (mkNestLoopParam (paramno nlp) v)
                     | _ => raise (Undefined "nlp->paramval")
                     end) nestParams ;;
           ret (NestLoopFields joinqual nestParams : PlanFields)
       | T_MergeJoin, MergeJoinFields joinqual mergeclauses =>
           joinqual <- fix_join joinqual ;;
           mergeclauses <- fix_join mergeclauses ;;
           ret (MergeJoinFields joinqual mergeclauses : PlanFields)
       | T_HashJoin, HashJoinFields joinqual hashclauses hashqualclauses =>
           joinqual <- fix_join joinqual ;;
           hashclauses <- fix_hashclauses hashclauses outer_itlist
                            (Some inner_itlist) 0 rtoffset ;;
           hashqualclauses <- fix_join hashqualclauses ;;
           ret (HashJoinFields joinqual hashclauses hashqualclauses
                : PlanFields)
       | _, _ => raise (Undefined "Join")
       end ;;
  ret (set_fields (set_qual (set_targetlist join tl) q) x).

Definition set_upper_references (plan : Plan) (rtoffset : Z) : M Plan :=
  subplan <- deref (lefttree plan) "subplan" ;;
  let subplan_itlist := build_tlist_index (targetlist subplan) in
  output_targetlist <-
    mapM (set_upper_references_tle subplan_itlist rtoffset)
         (targetlist plan) ;;
  q <- fix_upper_list (qual plan) subplan_itlist rtoffset ;;
  ret (set_qual (set_targetlist plan output_targetlist) q).

Definition set_dummy_tlist_references (plan : Plan) (rtoffset : Z) : Plan :=
  set_targetlist plan (dummy_tlist (targetlist plan) rtoffset).

(** *** The full-evaluation guard *)

(** The recursive call: [set_plan_refs] on a node one level down. *)
Variable set_plan_refs_returned_rec : option Plan -> Z -> M (option Returned).

(** The recursive call where only the node returned matters. *)
Definition set_plan_refs_rec (plan : option Plan) (rtoffset : Z)
  : M (option Plan) :=
  r <- set_plan_refs_returned_rec plan rtoffset ;;
  ret (option_map returned_plan r).

(** The node given is made the left child of the new node before the new
    node is fixed.  [plan->flow = flow] at the end writes to the node
    given: it shows in the tree returned where that node still is, and
    nowhere when the node was a subquery scan that has been pulled out in
    the meantime (the subplan put in its place keeps the unhooked flow it
    was handed).  The new node is a projection, which [set_plan_refs]
    returns in place. *)
Definition cdb_insert_result_node (plan : Plan) (rtoffset : Z) : M Returned :=
  (* Unhook the Flow node temporarily.  Caller has already fixed it up. *)
  let flow0 := flow plan in
  let plan := set_flow plan None in
  (* Build a Result node to take over the targetlist from the given Plan,
     and a new targetlist for the given Plan, with Var nodes only. *)
  let plan' := set_targetlist plan (flatten_tlist (targetlist plan)) in
  let resultplan := make_result (targetlist plan) None plan' in
  (* Fix up the Result node and the Plan tree below it. *)
  r <- set_plan_refs_returned_rec (Some resultplan) rtoffset ;;
  r <- deref r "resultplan" ;;
  (* Reattach the Flow node. *)
  let resultplan := set_flow (returned_plan r) flow0 in
  match r with
  | SameNode _ (Some depth) =>
      ret (OtherNode (set_flow_at depth resultplan flow0) (Some depth))
  | SameNode _ None | OtherNode _ _ =>
      ret (OtherNode resultplan None)
  end.

(** *** The dispatcher *)

(** How a case of the [switch] ends: [return] of a node, or [break] and on
    to the children. *)
Inductive Step : Type :=
| Return (r : Returned)
| Break (p : Plan).

(** CDB: if the plan has a Flow node, fix up its hashExpr to refer to the
    plan's own targetlist. *)
Definition fix_flow (plan : Plan) (rtoffset : Z) : M Plan :=
  match flow plan with
  | Some fl =>
      match hashExpr fl with
      | [] => ret plan
      | _ :: _ =>
          let plan_itlist := build_tlist_index (targetlist plan) in
          he <- fix_upper_list (hashExpr fl) plan_itlist rtoffset ;;
          ret (set_flow plan (Some (mkFlow he)))
      end
  | None => ret plan
  end.

(** [targetlist] and [qual] of a scan-like node. *)
Definition fix_scan_plan (plan : Plan) (rtoffset : Z) : M Plan :=
  tl <- fix_scan_tlist (targetlist plan) rtoffset ;;
  q <- fix_scan_list (qual plan) rtoffset ;;
  ret (set_qual (set_targetlist plan tl) q).

Definition set_plan_refs_dispatch (plan : Plan) (rtoffset : Z) : M Step :=
  let full_eval_guard (otherwise : M Step) : M Step :=
    if cdb_expr_requires_full_eval (targetlist plan)
    then r <- cdb_insert_result_node plan rtoffset ;; ret (Return r)
    else otherwise in
  let simple_scan : M Step :=
    match fields plan with
    | ScanFields scanrelid =>
        p <- fix_scan_plan plan rtoffset ;;
        ret (Break (set_fields p (ScanFields (Index_add scanrelid rtoffset))))
    | _ => raise (Undefined "Scan")
    end in
  let bitmap_scan : M Step :=
    match fields plan with
    | BitmapScanFields scanrelid bitmapqualorig =>
        p <- fix_scan_plan plan rtoffset ;;
        bitmapqualorig <- fix_scan_list bitmapqualorig rtoffset ;;
        ret (Break (set_fields p (BitmapScanFields
                                    (Index_add scanrelid rtoffset)
                                    bitmapqualorig)))
    | _ => raise (Undefined "BitmapHeapScan")
    end in
  let plan_list (plan : Plan) : M Step :=
    match fields plan with
    | PlanListFields plans =>
        plans <- set_plan_refs_list set_plan_refs_rec plans rtoffset ;;
        ret (Break (set_fields plan (PlanListFields plans)))
    | _ => raise (Undefined "Append")
    end in
  match type plan with
  | T_SeqScan | T_AppendOnlyScan | T_AOCSScan | T_ExternalScan =>
      full_eval_guard simple_scan
  | T_IndexScan =>
      full_eval_guard
        match fields plan with
        | IndexScanFields scanrelid indexqual indexqualorig indexorderby
                          indexorderbyorig =>
            p <- fix_scan_plan plan rtoffset ;;
            indexqual <- fix_scan_list indexqual rtoffset ;;
            indexqualorig <- fix_scan_list indexqualorig rtoffset ;;
            indexorderby <- fix_scan_list indexorderby rtoffset ;;
            indexorderbyorig <- fix_scan_list indexorderbyorig rtoffset ;;
            ret (Break (set_fields p
                          (IndexScanFields (Index_add scanrelid rtoffset)
                             indexqual indexqualorig indexorderby
                             indexorderbyorig)))
        | _ => raise (Undefined "IndexScan")
        end
  | T_BitmapIndexScan =>
      match fields plan with
      | BitmapIndexScanFields scanrelid indexqual indexqualorig =>
          (* no need to fix targetlist and qual *)
          indexqual <- fix_scan_list indexqual rtoffset ;;
          indexqualorig <- fix_scan_list indexqualorig rtoffset ;;
          ret (Break (set_fields plan
                        (BitmapIndexScanFields (Index_add scanrelid rtoffset)
                           indexqual indexqualorig)))
      | _ => raise (Undefined "BitmapIndexScan")
      end
  | T_BitmapHeapScan | T_BitmapAppendOnlyScan | T_BitmapTableScan =>
      full_eval_guard bitmap_scan
  | T_TidScan =>
      full_eval_guard
        match fields plan with
        | TidScanFields scanrelid tidquals =>
            p <- fix_scan_plan plan rtoffset ;;
            tidquals <- fix_scan_list tidquals rtoffset ;;
            ret (Break (set_fields p (TidScanFields
                                        (Index_add scanrelid rtoffset)
                                        tidquals)))
        | _ => raise (Undefined "TidScan")
        end
  | T_SubqueryScan =>
      full_eval_guard
        (* Needs special treatment, see comments below *)
        (r <- set_subqueryscan_references_returned set_plan_refs_rec
                plan rtoffset ;;
         ret (Return r))
  | T_TableFunctionScan =>
      full_eval_guard
        match fields plan with
        | TableFunctionScanFields scanrelid subrtable =>
            (* recursively process the subplan *)
            l <- set_plan_references_with set_plan_refs_returned_rec
                   (lefttree plan) subrtable [] ;;
            let plan := set_lefttree plan (option_map returned_plan l) in
            (* subrtable is no longer needed in the plan tree;
               adjust for the new range table offset *)
            p <- fix_scan_plan plan rtoffset ;;
            ret (Return (SameNode
                           (set_fields p (TableFunctionScanFields
                                            (Index_add scanrelid rtoffset)
                                            []))
                           (left_child_at l)))
        | _ => raise (Undefined "TableFunctionScan")
        end
  | T_FunctionScan =>
      full_eval_guard
        match fields plan with
        | FunctionScanFields scanrelid funcexpr =>
            p <- fix_scan_plan plan rtoffset ;;
            funcexpr <- fix_scan_expr funcexpr rtoffset ;;
            ret (Break (set_fields p (FunctionScanFields
                                        (Index_add scanrelid rtoffset)
                                        funcexpr)))
        | _ => raise (Undefined "FunctionScan")
        end
  | T_ValuesScan =>
      full_eval_guard
        match fields plan with
        | ValuesScanFields scanrelid values_lists =>
            p <- fix_scan_plan plan rtoffset ;;
            values_lists <- mapM (fun l => fix_scan_list l rtoffset)
                                 values_lists ;;
            ret (Break (set_fields p (ValuesScanFields
                                        (Index_add scanrelid rtoffset)
                                        values_lists)))
        | _ => raise (Undefined "ValuesScan")
        end
  | T_CteScan => simple_scan
  | T_WorkTableScan => simple_scan
  | T_ForeignScan => simple_scan
  | T_NestLoop | T_MergeJoin | T_HashJoin =>
      full_eval_guard
        (p <- set_join_references plan rtoffset ;; ret (Break p))
  | T_Plan =>
      (* a temporary fake outer subplan: nothing to do *)
      ret (Break plan)
  | T_Sort | T_Hash | T_Material | T_Unique | T_SetOp =>
      (* These plan types don't actually bother to evaluate their
         targetlists, nor check quals: Assert(plan->qual == NIL) *)
      ret (Break (set_dummy_tlist_references plan rtoffset))
  | T_ShareInputScan =>
      ret (Break (set_dummy_tlist_references plan rtoffset))
  | T_PartitionSelector =>
      child <- deref (lefttree plan) "plan->lefttree" ;;
      let childplan_itlist := build_tlist_index (targetlist child) in
      p <- set_upper_references plan rtoffset ;;
      match fields plan with
      | PartitionSelectorFields levelEqExpressions levelExpressions
          residualPredicate propagationExpression printablePredicate
          partTabTargetlist =>
          levelEqExpressions <-
            fix_upper_list levelEqExpressions childplan_itlist rtoffset ;;
          levelExpressions <-
            fix_upper_list levelExpressions childplan_itlist rtoffset ;;
          residualPredicate <-
            fix_upper_expr residualPredicate childplan_itlist rtoffset ;;
          propagationExpression <-
            fix_upper_expr propagationExpression childplan_itlist rtoffset ;;
          printablePredicate <-
            fix_upper_expr printablePredicate childplan_itlist rtoffset ;;
          partTabTargetlist <-
            fix_upper_tlist partTabTargetlist childplan_itlist rtoffset ;;
          ret (Break (set_fields p
                        (PartitionSelectorFields levelEqExpressions
                           levelExpressions residualPredicate
                           propagationExpression printablePredicate
                           partTabTargetlist)))
      | _ => raise (Undefined "PartitionSelector")
      end
  | T_LockRows =>
      (* Like the plan types above, LockRows doesn't evaluate its tlist or
         quals.  But we have to fix up the RT indexes in its rowmarks. *)
      let p := set_dummy_tlist_references plan rtoffset in
      match fields plan with
      | LockRowsFields rowMarks =>
          ret (Break (set_fields p
                        (LockRowsFields (map (shift_rowmark rtoffset)
                                             rowMarks))))
      | _ => raise (Undefined "LockRows")
      end
  | T_Limit =>
      let p := set_dummy_tlist_references plan rtoffset in
      match fields plan with
      | LimitFields limitOffset limitCount =>
          limitOffset <- fix_scan_expr limitOffset rtoffset ;;
          limitCount <- fix_scan_expr limitCount rtoffset ;;
          ret (Break (set_fields p (LimitFields limitOffset limitCount)))
      | _ => raise (Undefined "Limit")
      end
  | T_Agg =>
      p <- set_upper_references plan rtoffset ;; ret (Break p)
  | T_WindowAgg =>
      p <- set_upper_references plan rtoffset ;;
      let p := match targetlist p with
               | [] => set_dummy_tlist_references p rtoffset
               | _ :: _ => p
               end in
      match fields plan with
      | WindowAggFields startOffset endOffset =>
          match startOffset, endOffset with
          | None, None => ret (Break p)
          | _, _ =>
              (* Fix frame edges. *)
              child <- deref (lefttree p) "plan->lefttree" ;;
              let subplan_itlist := build_tlist_index (targetlist child) in
              startOffset <- fix_upper_expr startOffset subplan_itlist
                                            rtoffset ;;
              endOffset <- fix_upper_expr endOffset subplan_itlist rtoffset ;;
              ret (Break (set_fields p (WindowAggFields startOffset
                                                        endOffset)))
          end
      | _ => raise (Undefined "WindowAgg")
      end
  | T_Result =>
      (* Result may or may not have a subplan; if not, it's more like a
         scan node than an upper node. *)
      p <- match lefttree plan with
           | Some _ => set_upper_references plan rtoffset
           | None => ret plan
           end ;;
      p <- fix_scan_plan p rtoffset ;;
      match fields plan with
      | ResultFields resconstantqual =>
          (* resconstantqual can't contain any subplan variable refs *)
          resconstantqual <- fix_scan_expr resconstantqual rtoffset ;;
          ret (Break (set_fields p (ResultFields resconstantqual)))
      | _ => raise (Undefined "Result")
      end
  | T_Repeat =>
      p <- set_upper_references plan rtoffset ;; ret (Break p)
  | T_ModifyTable =>
      (* planner.c already called set_returning_clause_references, so we
         should not process either the targetlist or the returningLists. *)
      match fields plan with
      | ModifyTableFields resultRelations rowMarks plans _ =>
          let resultRelations :=
            map (fun r => int_add r rtoffset) resultRelations in
          let rowMarks := map (shift_rowmark rtoffset) rowMarks in
          plans <- set_plan_refs_list set_plan_refs_rec plans rtoffset ;;
          (* Append this ModifyTable node's final result relation RT
             index(es) to the global list for the plan. *)
          resultRelIndex <- list_length_resultRelations ;;
          list_concat_resultRelations resultRelations ;;;
          ret (Break (set_fields plan
                        (ModifyTableFields resultRelations rowMarks plans
                                           resultRelIndex)))
      | _ => raise (Undefined "ModifyTable")
      end
  | T_Append | T_MergeAppend =>
      (* Append, like Sort et al, doesn't actually evaluate its targetlist
         or check quals. *)
      plan_list (set_dummy_tlist_references plan rtoffset)
  | T_RecursiveUnion =>
      (* This doesn't evaluate targetlist or check quals either *)
      ret (Break (set_dummy_tlist_references plan rtoffset))
  | T_BitmapAnd | T_BitmapOr =>
      (* BitmapAnd works like Append, but has no tlist *)
      plan_list plan
  | T_Motion =>
      child <- deref (lefttree plan) "plan->lefttree" ;;
      let childplan_itlist := build_tlist_index (targetlist child) in
      match fields plan with
      | MotionFields hashExpr =>
          hashExpr <- fix_upper_list hashExpr childplan_itlist rtoffset ;;
          (* no need to fix targetlist and qual *)
          let p := set_dummy_tlist_references plan rtoffset in
          ret (Break (set_fields p (MotionFields hashExpr)))
      | _ => raise (Undefined "Motion")
      end
  | T_OtherPlan _ => raise (elog_ERROR "unrecognized node type")
  end.

(** [set_plan_refs] on a node that is not NULL, given the recursive call. *)
Definition set_plan_refs_node (plan : Plan) (rtoffset : Z) : M Returned :=
  plan <- fix_flow plan rtoffset ;;
  (* Plan-type-specific fixes *)
  step <- set_plan_refs_dispatch plan rtoffset ;;
  match step with
  | Return r => ret r
  | Break plan =>
      (* Now recurse into child plans, if any *)
      l <- set_plan_refs_returned_rec (lefttree plan) rtoffset ;;
      let plan := set_lefttree plan (option_map returned_plan l) in
      r <- set_plan_refs_rec (righttree plan) rtoffset ;;
      ret (SameNode (set_righttree plan r) (left_child_at l))
  end.

End Dispatcher.

Section Driver.
Context {cat : Catalog}.

(** [set_plan_refs]: recurse through the Plan nodes of a single subquery
    level.  The recursion of the source is not structural (the guard calls
    it on a node it has just built); [fuel] bounds its depth. *)
Fixpoint set_plan_refs_returned (fuel : nat) (plan : option Plan)
         (rtoffset : Z) : M (option Returned) :=
  match plan with
  | None => ret None
  | Some p =>
      match fuel with
      | O => raise OutOfFuel
      | S fuel' =>
          r <- set_plan_refs_node (set_plan_refs_returned fuel') p rtoffset ;;
          ret (Some r)
      end
  end.

(** [set_plan_refs]: the node returned. *)
Definition set_plan_refs (fuel : nat) (plan : option Plan) (rtoffset : Z)
  : M (option Plan) :=
  set_plan_refs_rec (set_plan_refs_returned fuel) plan rtoffset.

(** [set_plan_references]: the entry point. *)
Definition set_plan_references (fuel : nat) (plan : option Plan)
           (rtable : list RangeTblEntry) (rowmarks : list PlanRowMark)
  : M (option Plan) :=
  set_plan_references_with (set_plan_refs fuel) plan rtable rowmarks.

(** [set_returning_clause_references] *)
Definition set_returning_clause_references (rlist : list TargetEntry)
           (topplan : Plan) (resultRelation : Index) : M (list TargetEntry) :=
  let itlist := build_tlist_index_other_vars (targetlist topplan)
                                             resultRelation in
  fix_join_tlist rlist itlist None resultRelation 0.

End Driver.

(** ** Properties of expression trees *)

(** [node_all p n]: [p] holds of [n] and of every node below it. *)
Fixpoint node_all (p : Node -> bool) (n : Node) : bool :=
  p n &&
  match n with
  | T_Var _ | T_Const _ | T_Grouping | T_GroupId => true
  | T_PlaceHolderVar e _ | T_ArrayCoerceExpr e _ | T_RelabelType e _ =>
      node_all p e
  | T_Aggref _ l | T_WindowFunc _ l | T_FuncExpr _ _ l | T_OpExpr _ _ _ _ l
  | T_ScalarArrayOpExpr _ _ _ l | T_Expr _ l => forallb (node_all p) l
  end.





(** ** The wrapper-elimination condition, as the specification words it *)

(** Position [i] (counted from 0) of the wrapper's output list passes the
    child's position through: same junk flag, and either a variable whose
    attribute is that position, or a literal constant equal to the child's
    entry. *)
Definition passthrough_entry (i : nat) (ptle ctle : TargetEntry) : Prop :=
  resjunk ptle = resjunk ctle /\
  ((exists var, expr ptle = T_Var var /\ varattno var = Z.of_nat i + 1) \/
   (exists con, expr ptle = T_Const con /\
                equal (expr ptle) (expr ctle) = true)).

Definition passthrough_tlist (ptl ctl : list TargetEntry) : Prop :=
  List.length ptl = List.length ctl /\
  forall i ptle ctle,
    nth_error ptl i = Some ptle -> nth_error ctl i = Some ctle ->
    passthrough_entry i ptle ctle.

(** The wrapper [plan] is eliminable over its processed subplan [child]. *)
Definition eliminable (plan child : Plan) : Prop :=
  qual plan = [] /\ passthrough_tlist (targetlist plan) (targetlist child).

(** The display label of an output column. *)
Definition label (tle : TargetEntry) : option string * Oid * AttrNumber :=
  (resname tle, resorigtbl tle, resorigcol tle).

(** ** Pass-through nodes, as the specification words them *)




(** ** The relation-dependency set only grows *)

(** Every relation identifier present in [g] is still present in [g']. *)
Definition keeps_relationOids (g g' : PlannerGlobal) : Prop :=
  forall o, In o (relationOids g) -> In o (relationOids g').

(** A computation that, when it returns, has kept every relation
    identifier it started with. *)
Definition grows {A} (m : M A) : Prop :=
  forall g a g', m g = Ok (a, g') -> keeps_relationOids g g'.

(** ** Computations that return a given value *)

(** From every state, [m] returns [a] (in some state). *)
Definition returns {A} (m : M A) (a : A) : Prop :=
  forall g, exists g', m g = Ok (a, g').

(** ** Expressions whose dependencies the catalog can resolve *)

Section Resolvable.
Context {cat : Catalog}.

(** [record_plan_function_dependency funcid] does not abort. *)
Definition dependency_found (funcid : Oid) : bool :=
  (funcid <? FirstBootstrapObjectId) ||
  match SearchSysCache1_PROCOID funcid with
  | Some _ => true
  | None => false
  end.

(** [fix_expr_common node] does not abort. *)
Definition fix_expr_common_ok (node : Node) : bool :=
  match node with
  | T_Aggref fnoid _ | T_WindowFunc fnoid _ | T_FuncExpr fnoid _ _ =>
      dependency_found fnoid
  | T_OpExpr _ opno opfuncid _ _ | T_ScalarArrayOpExpr opno opfuncid _ _ =>
      dependency_found (set_opfuncid opno opfuncid)
  | T_ArrayCoerceExpr _ elemfuncid =>
      negb (OidIsValid elemfuncid) || dependency_found elemfuncid
  | _ => true
  end.

Definition deps_resolvable (n : Node) : bool := node_all fix_expr_common_ok n.

End Resolvable.

(** ** Scan nodes that are already resolved *)

Section Resolved.
Context {cat : Catalog}.

Definition is_Index (n : Z) : bool := (0 <=? n) && (n <? 2 ^ 32).

(** What scan-level fixing leaves of an expression: no placeholder, no
    variable on a pseudo column, relation slots that are 32-bit values,
    operator handles filled in; and the catalog still resolves its
    dependencies. *)
Definition scan_resolved (e : Node) : bool :=
  node_all (fun n =>
              match n with
              | T_Var var =>
                  (FirstLowInvalidHeapAttributeNumber <? varattno var) &&
                  is_Index (varno var) && is_Index (varnoold var)
              | T_PlaceHolderVar _ _ => false
              | T_OpExpr _ opno opfuncid _ _
              | T_ScalarArrayOpExpr opno opfuncid _ _ =>
                  set_opfuncid opno opfuncid =? opfuncid
              | _ => true
              end) e
  && deps_resolvable e.

Definition list_resolved (l : list Node) : bool := forallb scan_resolved l.

Definition tlist_resolved (tl : list TargetEntry) : bool :=
  forallb (fun tle => scan_resolved (expr tle)) tl.

(** A scan node kind together with the fields of its struct, all of them
    resolved.  Subquery and table-function scans are left out: they carry
    a subplan of their own. *)
Definition scan_fields_resolved (t : NodeTag) (x : PlanFields) : bool :=
  match t, x with
  | (T_SeqScan | T_AppendOnlyScan | T_AOCSScan | T_ExternalScan
     | T_CteScan | T_WorkTableScan | T_ForeignScan), ScanFields scanrelid =>
      is_Index scanrelid
  | T_IndexScan, IndexScanFields scanrelid a b c d =>
      is_Index scanrelid && list_resolved a && list_resolved b &&
      list_resolved c && list_resolved d
  | T_BitmapIndexScan, BitmapIndexScanFields scanrelid a b =>
      is_Index scanrelid && list_resolved a && list_resolved b
  | (T_BitmapHeapScan | T_BitmapAppendOnlyScan | T_BitmapTableScan),
    BitmapScanFields scanrelid a =>
      is_Index scanrelid && list_resolved a
  | T_TidScan, TidScanFields scanrelid a =>
      is_Index scanrelid && list_resolved a
  | T_FunctionScan, FunctionScanFields scanrelid f =>
      is_Index scanrelid &&
      match f with Some e => scan_resolved e | None => true end
  | T_ValuesScan, ValuesScanFields scanrelid vl =>
      is_Index scanrelid && forallb list_resolved vl
  | _, _ => false
  end.

(** The node kinds whose case of the dispatcher starts with the
    full-evaluation guard. *)
Definition guarded_kind (t : NodeTag) : bool :=
  match t with
  | T_SeqScan | T_AppendOnlyScan | T_AOCSScan | T_ExternalScan
  | T_IndexScan | T_BitmapHeapScan | T_BitmapAppendOnlyScan
  | T_BitmapTableScan | T_TidScan | T_SubqueryScan | T_TableFunctionScan
  | T_FunctionScan | T_ValuesScan | T_NestLoop | T_MergeJoin | T_HashJoin =>
      true
  | _ => false
  end.

(** An already-resolved node of the scan level, its children apart.  Its
    flow has no hash expression.  A placeholder plan is not looked at.  A
    bitmap combination holds a list of plans.  A projection has no left
    child, so that it is fixed like a scan.  A scan is of any kind but
    subquery and table-function scan, which carry a range table of their
    own: its fields are resolved and, unless it is a bitmap index scan,
    which has neither output list nor filter, so are its output list and
    filter; where the dispatcher guards the kind, no set-returning call is
    left in the output list (the guard moved it to a projection). *)
Definition resolved_scan_node (plan : Plan) : bool :=
  match flow plan with
  | Some fl => match hashExpr fl with [] => true | _ :: _ => false end
  | None => true
  end &&
  match type plan with
  | T_Plan => true
  | T_BitmapAnd | T_BitmapOr =>
      match fields plan with PlanListFields _ => true | _ => false end
  | T_BitmapIndexScan => scan_fields_resolved (type plan) (fields plan)
  | T_Result =>
      match lefttree plan, fields plan with
      | None, ResultFields resconstantqual =>
          tlist_resolved (targetlist plan) && list_resolved (qual plan) &&
          match resconstantqual with
          | Some e => scan_resolved e
          | None => true
          end
      | _, _ => false
      end
  | t =>
      negb (guarded_kind t && cdb_expr_requires_full_eval (targetlist plan)) &&
      tlist_resolved (targetlist plan) && list_resolved (qual plan) &&
      scan_fields_resolved (type plan) (fields plan)
  end.

(** An already-resolved tree of the scan level: the node, its two children
    and, under a bitmap combination, the plans of its list. *)
Fixpoint resolved_scan_tree (plan : Plan) : bool :=
  match plan with
  | mkPlan t tl q l r ip fl x =>
      resolved_scan_node (mkPlan t tl q l r ip fl x) &&
      match l with Some p => resolved_scan_tree p | None => true end &&
      match r with Some p => resolved_scan_tree p | None => true end &&
      match x with
      | PlanListFields plans => forallb resolved_scan_tree plans
      | _ => true
      end
  end.

(** The node returned when the fixer returns [plan] itself, with its left
    child in its place. *)
Definition returned_in_place (plan : Plan) : Returned :=
  SameNode plan (match lefttree plan with
                 | Some _ => Some 1%nat
                 | None => None
                 end).

(** The number of levels of a plan tree. *)
Fixpoint plan_levels (plan : Plan) : nat :=
  match plan with
  | mkPlan _ _ _ l r _ _ x =>
      S (Nat.max
           (match l with Some p => plan_levels p | None => O end)
           (Nat.max
              (match r with Some p => plan_levels p | None => O end)
              (match x with
               | SubqueryScanFields _ (Some p) _ _ => plan_levels p
               | ModifyTableFields _ _ plans _ | PlanListFields plans =>
                   fold_right (fun p n => Nat.max (plan_levels p) n) O plans
               | _ => O
               end)))
  end.

End Resolved.

(** ** Pseudo-column replacement, as the specification words it *)

(** The defining expression fixed the way any scan-level expression is
    fixed at the same offset. *)
Definition pseudo_column_replacement_spec {cat : Catalog}
           (context : fix_scan_expr_context) (var : Var) : M Node :=
  let slot := Index_add (varno var) (scan_rtoffset context) in
  glob <- get_glob ;;
  match rt_fetch slot (finalrtable glob) with
  | None => raise (Undefined "rt_fetch")
  | Some rte =>
      match cdb_rte_find_pseudo_column rte (varattno var) with
      | None => raise (Undefined "rci->defexpr")
      | Some defexpr => fix_scan_expr_mutator context defexpr
      end
  end.

(** ** Worked inputs *)

Module Example.

Definition find_pseudo (rte : RangeTblEntry) (attno : AttrNumber)
  : option Node :=
  option_map defexpr
             (find (fun rci => pseudoattno rci =? attno) (pseudocols rte)).

Fixpoint returns_set (n : Node) : bool :=
  match n with
  | T_FuncExpr _ r l => r || existsb returns_set l
  | T_OpExpr _ _ _ r l => r || existsb returns_set l
  | T_Aggref _ l | T_WindowFunc _ l | T_ScalarArrayOpExpr _ _ _ l
  | T_Expr _ l => existsb returns_set l
  | T_PlaceHolderVar e _ | T_ArrayCoerceExpr e _ | T_RelabelType e _ =>
      returns_set e
  | T_Var _ | T_Const _ | T_Grouping | T_GroupId => false
  end.

(** A catalog with the constants of the PostgreSQL headers, in which every
    operator [o] is implemented by function [o + 1] and every function at
    or above the bootstrap threshold is found at tuple address [funcid],
    except function 99999, which is missing. *)
Definition catalog : Catalog := {|
  INNER := 65000;
  OUTER := 65001;
  FirstBootstrapObjectId := 10000;
  FirstLowInvalidHeapAttributeNumber := -8;
  REGCLASSOID := 2205;
  OIDOID := 26;
  PROCOID := 45;
  get_opcode := fun o => o + 1;
  SearchSysCache1_PROCOID := fun f => if f =? 99999 then None else Some f;
  cdb_rte_find_pseudo_column := find_pseudo;
  exprType := fun n => match n with
                       | T_Var v => vartype v
                       | T_Const c => consttype c
                       | _ => 0
                       end;
  exprTypmod := fun _ => -1;
  exprCollation := fun _ => 0;
  expression_returns_set := fun tl => existsb (fun t => returns_set (expr t)) tl
|}.

Definition var (no att : Z) : Var := mkVar no att 23 (-1) 0 0 no att.
Definition int4 (k : Z) : Const := mkConst 23 (-1) 0 k false.
Definition tle (e : Node) (n : Z) : TargetEntry :=
  mkTargetEntry e n None 0 0 0 false.
Definition named (e : Node) (n : Z) (name : string) (tbl : Oid) (col : Z)
  : TargetEntry :=
  mkTargetEntry e n (Some name) 0 tbl col false.
Definition rel (o : Oid) : RangeTblEntry :=
  mkRangeTblEntry RTE_RELATION o None [] [] [].
Definition subquery_rte : RangeTblEntry :=
  mkRangeTblEntry RTE_SUBQUERY 0 None [] [] [].
Definition glob0 : PlannerGlobal := mkPlannerGlobal [] [] [] [] [].
Definition scan (tag : NodeTag) (relid : Index) (tl : list TargetEntry)
  : Plan :=
  mkPlan tag tl [] None None [] None (ScanFields relid).

(** A range table whose second entry defines pseudo column -9 as the
    variable (1, 3). *)
Definition pseudo_rte : RangeTblEntry :=
  mkRangeTblEntry RTE_RELATION 200 None [] []
                  [mkCdbRelColumnInfo (-9) (T_Var (var 1 3))].
Definition pseudo_glob : PlannerGlobal :=
  mkPlannerGlobal [rel 100; pseudo_rte] [] [] [] [].
Definition pseudo_var : Var := var 1 (-9).

(** A wrapper that reproduces the two columns of a scan under its own
    column aliases, and the same wrapper with a residual filter. *)
Definition wrapped_scan : Plan :=
  scan T_SeqScan 1 [named (T_Var (var 1 1)) 1 "a" 500 1;
                    named (T_Var (var 1 2)) 2 "b" 500 2].
Definition wrapper : Plan :=
  mkPlan T_SubqueryScan
         [named (T_Var (var 1 1)) 1 "x" 0 0; named (T_Var (var 1 2)) 2 "y" 0 0]
         [] None None [] None
         (SubqueryScanFields 1 (Some wrapped_scan) [rel 500] []).
Definition filtering_wrapper : Plan :=
  set_qual wrapper [T_Const (int4 1)].
Definition wrapper_glob : PlannerGlobal :=
  mkPlannerGlobal [subquery_rte] [] [] [] [].
Definition wrapped_scan_resolved : Plan :=
  scan T_SeqScan 2 [named (T_Var (var 2 1)) 1 "a" 500 1;
                    named (T_Var (var 2 2)) 2 "b" 500 2].
Definition wrapper_glob_after : PlannerGlobal :=
  mkPlannerGlobal [subquery_rte; rel 500] [] [500] [] [].

(** A sort over a scan of relation 1, before resolution. *)
Definition sort_plan : Plan :=
  mkPlan T_Sort [tle (T_Var (var 1 2)) 1; tle (T_Var (var 1 1)) 2] []
         (Some (scan T_SeqScan 1 [tle (T_Var (var 1 2)) 1;
                                  tle (T_Var (var 1 1)) 2]))
         None [] None PlainFields.
Definition sort_glob : PlannerGlobal := mkPlannerGlobal [rel 500] [] [500] [] [].

(** The hash join of MPP-18537: [A.i = least(B.i, 4)], where the outer
    child's output list carries the constant 4 beside [A.i]. *)
Definition hash_outer_tlist : list TargetEntry :=
  [tle (T_Var (var 1 1)) 1; tle (T_Const (int4 4)) 2].


(** Scenario E: the scan of relation 500 was simplified away and a
    constant projection is all that is left of the plan. *)
Definition emptied_plan : Plan :=
  mkPlan T_Result [tle (T_Const (int4 1)) 1] [] None None [] None
         (ResultFields (Some (T_Const (mkConst 16 (-1) 0 0 false)))).

(** A subquery whose plan is a projection over a scan, under its wrapper
    in the outer query. *)
Definition projection_over_scan : Plan :=
  mkPlan T_Result [tle (T_Var (var 1 1)) 1] []
         (Some (scan T_SeqScan 1 [tle (T_Var (var 1 1)) 1]))
         None [] None (ResultFields None).
Definition subquery_over_projection : Plan :=
  mkPlan T_SubqueryScan [tle (T_Var (var 1 1)) 1] [] None None [] None
         (SubqueryScanFields 1 (Some projection_over_scan) [rel 500] []).

(** An output list that calls a set-returning function. *)
Definition srf_tlist : list TargetEntry :=
  [tle (T_FuncExpr 1067 true [T_Var (var 1 1)]) 1].

(** A scan and a subquery wrapper over a scan, each with the
    set-returning output list and with a flow. *)
Definition guarded_flow : option Flow := Some (mkFlow [T_Const (int4 9)]).
Definition guarded_scan : Plan :=
  mkPlan T_SeqScan srf_tlist [] None None [] guarded_flow (ScanFields 1).
Definition guarded_wrapper : Plan :=
  mkPlan T_SubqueryScan srf_tlist [] None None [] guarded_flow
         (SubqueryScanFields 1
            (Some (scan T_SeqScan 1 [tle (T_Var (var 1 1)) 1]))
            [rel 500] []).

(** An aggregate over a scan, before resolution. *)
Definition agg_plan : Plan :=
  mkPlan T_Agg [tle (T_Var (var 1 1)) 1] []
         (Some (scan T_SeqScan 1 [tle (T_Var (var 1 1)) 1]))
         None [] None PlainFields.

Definition agg_resolved : Plan :=
  mkPlan T_Agg [tle (T_Var (mkVar 65001 1 23 (-1) 0 0 1 1)) 1] []
         (Some (scan T_SeqScan 1 [tle (T_Var (var 1 1)) 1]))
         None [] None PlainFields.

(** An index scan as resolution leaves it. *)
Definition index_scan_resolved : Plan :=
  mkPlan T_IndexScan [tle (T_Var (var 2 1)) 1]
         [T_OpExpr OpExprTag 96 97 false
                   [T_Var (var 2 2); T_Const (int4 7)]]
         None None [] None
         (IndexScanFields 2
            [T_OpExpr OpExprTag 96 97 false
                      [T_Var (var 2 1); T_Const (int4 3)]] [] [] []).

(** A bitmap heap scan over the conjunction of two bitmap index scans,
    with the operator handle [opfuncid] in its three conditions: before
    resolution the handle is 0, afterwards it is the operator's function. *)
Definition bitmap_condition (opfuncid : Oid) (att k : Z) : Node :=
  T_OpExpr OpExprTag 96 opfuncid false [T_Var (var 1 att); T_Const (int4 k)].
Definition bitmap_index (opfuncid : Oid) (att k : Z) : Plan :=
  mkPlan T_BitmapIndexScan [] [] None None [] None
         (BitmapIndexScanFields 1 [bitmap_condition opfuncid att k] []).
Definition bitmap_tree (opfuncid : Oid) : Plan :=
  mkPlan T_BitmapHeapScan [tle (T_Var (var 1 1)) 1]
         [bitmap_condition opfuncid 2 7]
         (Some (mkPlan T_BitmapAnd [] [] None None [] None
                       (PlanListFields [bitmap_index opfuncid 1 3;
                                        bitmap_index opfuncid 2 7])))
         None [] None
         (BitmapScanFields 1 [bitmap_condition opfuncid 1 3]).

(** A projection of constants, without a child. *)
Definition constant_projection : Plan :=
  mkPlan T_Result [tle (T_Const (int4 1)) 1] [] None None [] None
         (ResultFields (Some (T_Const (mkConst 16 (-1) 0 1 false)))).


End Example.


(** ** The planner-global lists are append-only *)

Definition list_prefix {A} (l l' : list A) : Prop := exists r, l' = l ++ r.

(** Each of the five lists of [g'] starts with the list of [g]. *)
Definition extends (g g' : PlannerGlobal) : Prop :=
  list_prefix (finalrtable g) (finalrtable g') /\
  list_prefix (finalrowmarks g) (finalrowmarks g') /\
  list_prefix (relationOids g) (relationOids g') /\
  list_prefix (invalItems g) (invalItems g') /\
  list_prefix (resultRelations g) (resultRelations g').

(** A computation that, when it returns, has only appended to the lists. *)
Definition appends {A} (m : M A) : Prop :=
  forall g a g', m g = Ok (a, g') -> extends g g'.


(** ** Computations that leave the flattened tables alone *)

(** When [m] returns, the flattened range table, the flattened row marks
    and the result relations are what they were. *)
Definition keeps_tables {A} (m : M A) : Prop :=
  forall g a g',
    m g = Ok (a, g') ->
    finalrtable g' = finalrtable g /\ finalrowmarks g' = finalrowmarks g /\
    resultRelations g' = resultRelations g.

(** A flattened entry describes the same data source as the local one. *)
Definition same_source (rte c : RangeTblEntry) : Prop :=
  rtekind c = rtekind rte /\ relid c = relid rte /\
  pseudocols c = pseudocols rte.

(** The copy of a range-table entry that the first loop of
    [set_plan_references] appends to the flattened table: every field is
    kept, the function expression, the join alias variables and the
    values lists with their operator handles filled in. *)
Definition flattened_copy {cat : Catalog} (rte : RangeTblEntry)
  : RangeTblEntry :=
  mkRangeTblEntry (rtekind rte) (relid rte)
    (option_map fix_opfuncids (funcexpr rte))
    (map fix_opfuncids (joinaliasvars rte))
    (map (map fix_opfuncids) (values_lists rte))
    (pseudocols rte).


(** ** More worked inputs *)

Module Sample.

(** A second subquery, flattened behind one earlier entry: a sort over a
    scan of its only relation, with one row mark. *)
Definition rowmark : PlanRowMark := mkPlanRowMark 1 1 7.
Definition earlier_glob : PlannerGlobal :=
  mkPlannerGlobal [Example.rel 500] [mkPlanRowMark 1 1 3] [500] [] [].

(** A function in the range table whose argument is a comparison with its
    operator handle still to be looked up, and its flattened copy. *)
Definition function_rte (opfuncid : Oid) : RangeTblEntry :=
  mkRangeTblEntry RTE_FUNCTION 0
    (Some (T_FuncExpr 768 false
             [T_OpExpr OpExprTag 96 opfuncid false
                       [T_Const (Example.int4 1); T_Const (Example.int4 2)]]))
    [] [] [].

End Sample.


(** ** The index of a target list, in closed form *)

(** What one entry contributes to the index: its variable, looked at
    through any [RelabelType] on top of it. *)
Definition tle_index_entry (tle : TargetEntry) : list tlist_vinfo :=
  match fst (strip_RelabelType (expr tle)) with
  | T_Var var => [mk_tlist_vinfo (varno var) (varattno var) (resno tle)]
  | _ => []
  end.

Definition tle_sets_has_ph_vars (tle : TargetEntry) : bool :=
  match fst (strip_RelabelType (expr tle)) with
  | T_Var _ => false
  | _ => IsA_PlaceHolderVar (expr tle)
  end.

Definition tle_sets_has_non_vars (tle : TargetEntry) : bool :=
  snd (strip_RelabelType (expr tle)) ||
  match fst (strip_RelabelType (expr tle)) with
  | T_Var _ => false
  | _ => negb (IsA_PlaceHolderVar (expr tle))
  end.

(** The entry is a variable for relation slot and attribute of [var],
    possibly under relabelling. *)
Definition tle_supplies (var : Var) (tle : TargetEntry) : bool :=
  match fst (strip_RelabelType (expr tle)) with
  | T_Var v => (varno v =? varno var) && (varattno v =? varattno var)
  | _ => false
  end.


(** ** Expressions that address a child's output *)

(** [a] is the declared position of an entry of [tl]. *)
Definition position_of (tl : list TargetEntry) (a : AttrNumber) : bool :=
  existsb (fun tle => resno tle =? a) tl.

(** [var] is "take position a from the child behind [slot]", for a
    position [a] that the child's output list [tl] declares. *)
Definition addresses (slot : Index) (tl : list TargetEntry) (var : Var)
  : bool :=
  (varno var =? slot) && position_of tl (varattno var).

(** Every index entry points at a declared position of the list it was
    built over. *)
Definition itlist_wf (itlist : indexed_tlist) : bool :=
  forallb (fun vinfo => position_of (tlist itlist) (vi_resno vinfo))
          (vars itlist).

(** Every variable of the tree takes a declared position from the left
    child, and no placeholder is left. *)
Definition upper_resolved {cat : Catalog} (tl : list TargetEntry) (n : Node)
  : bool :=
  node_all (fun n => match n with
                     | T_Var var => addresses OUTER tl var
                     | T_PlaceHolderVar _ _ => false
                     | _ => true
                     end) n.

(** Every variable of the tree takes a declared position from the left or
    from the right child, or belongs to the acceptable relation, and no
    placeholder is left. *)
Definition join_resolved {cat : Catalog} (outer_tl inner_tl : list TargetEntry)
           (acceptable_rel : Index) (n : Node) : bool :=
  node_all (fun n => match n with
                     | T_Var var =>
                         addresses OUTER outer_tl var ||
                         addresses INNER inner_tl var ||
                         (varno var =? acceptable_rel)
                     | T_PlaceHolderVar _ _ => false
                     | _ => true
                     end) n.

Definition inner_wf (inner : option indexed_tlist) : bool :=
  match inner with
  | Some itlist => itlist_wf itlist
  | None => true
  end.

(** The output list of the right child, when there is one. *)
Definition inner_tlist (inner : option indexed_tlist) : list TargetEntry :=
  match inner with
  | Some itlist => tlist itlist
  | None => []
  end.

(** A predicate that only looks at variables and placeholders. *)
Definition leafy (p : Node -> bool) : Prop :=
  forall n, IsA_Var n = false -> IsA_PlaceHolderVar n = false -> p n = true.

(** What holds of the index of the other relations' variables while it is
    built: it is over [whole], points at declared positions, never asks for
    whole-expression matching, and holds no variable of [ignore_rel]. *)
Definition other_vars_invariant (ignore_rel : Index)
           (whole : list TargetEntry) (itlist : indexed_tlist) : Prop :=
  tlist itlist = whole /\ itlist_wf itlist = true /\
  has_non_vars itlist = false /\
  Forall (fun vinfo => vi_varno vinfo <> ignore_rel) (vars itlist).

(** The clauses that a join node's own struct holds address the two
    children; the parameters of a nested loop take positions of the outer
    child. *)
Definition join_fields_resolved {cat : Catalog}
           (outer_tl inner_tl : list TargetEntry) (f : PlanFieldsOf Plan)
  : bool :=
  match f with
  | NestLoopFields joinqual nestParams =>
      forallb (join_resolved outer_tl inner_tl 0) joinqual &&
      forallb (fun nlp => addresses OUTER outer_tl (paramval nlp)) nestParams
  | MergeJoinFields joinqual mergeclauses =>
      forallb (join_resolved outer_tl inner_tl 0) joinqual &&
      forallb (join_resolved outer_tl inner_tl 0) mergeclauses
  | HashJoinFields joinqual hashclauses hashqualclauses =>
      forallb (join_resolved outer_tl inner_tl 0) joinqual &&
      forallb (join_resolved outer_tl inner_tl 0) hashclauses &&
      forallb (join_resolved outer_tl inner_tl 0) hashqualclauses
  | _ => false
  end.

(** The labels of an output entry: everything but its expression. *)
Definition same_labels (a b : TargetEntry) : Prop :=
  b = set_expr a (expr b).


(** A hash join of two scans, [A.i = B.i], with a filter on [A.j + B.i]
    and the output list [A.i, B.i]; and a grouping node over a scan that
    computes the grouping expression. *)
Module JoinSample.

Definition outer_plan : Plan :=
  Example.scan T_SeqScan 1 [Example.tle (T_Var (Example.var 1 1)) 1;
                            Example.tle (T_Var (Example.var 1 2)) 2].
Definition inner_plan : Plan :=
  Example.scan T_SeqScan 2 [Example.tle (T_Var (Example.var 2 1)) 1].
Definition hash_join : Plan :=
  mkPlan T_HashJoin
         [Example.tle (T_Var (Example.var 1 1)) 1;
          Example.tle (T_Var (Example.var 2 1)) 2]
         [T_OpExpr OpExprTag 551 0 false
                   [T_Var (Example.var 1 2); T_Var (Example.var 2 1)]]
         (Some outer_plan) (Some inner_plan) [] None
         (HashJoinFields []
            [T_OpExpr OpExprTag 96 0 false
                      [T_Var (Example.var 1 1); T_Var (Example.var 2 1)]]
            []).

Definition grouped_scan : Plan :=
  Example.scan T_SeqScan 1
    [Example.tle (T_Var (Example.var 1 1)) 1;
     mkTargetEntry (T_FuncExpr 1100 false [T_Var (Example.var 1 2)]) 2 None
                   1 0 0 false].
Definition group_plan : Plan :=
  mkPlan T_Agg
         [mkTargetEntry (T_FuncExpr 1100 false [T_Var (Example.var 1 2)]) 1
                        None 1 0 0 false;
          Example.tle (T_Aggref 2100 [T_Var (Example.var 1 1)]) 2]
         [T_OpExpr OpExprTag 521 0 false
                   [T_Var (Example.var 1 1); T_Const (Example.int4 0)]]
         (Some grouped_scan) None [] None PlainFields.

End JoinSample.


(** ** RETURNING lists *)

(** Every variable of the tree is on relation [rel] (with a 32-bit
    [varnoold]), and the tree holds no placeholder. *)
Definition of_relation (rel : Index) (n : Node) : bool :=
  node_all (fun n => match n with
                     | T_Var var => (varno var =? rel) &&
                                    is_Index (varnoold var)
                     | T_PlaceHolderVar _ _ => false
                     | _ => true
                     end) n.

(** What [set_returning_clause_references] makes of one entry. *)
Definition returning_entry_fixed {cat : Catalog} (topplan : Plan)
           (resultRelation : Index) (tle tle' : TargetEntry) : Prop :=
  same_labels tle tle' /\
  join_resolved (targetlist topplan) [] resultRelation (expr tle') = true /\
  (of_relation resultRelation (expr tle) = true ->
   expr tle' = fix_opfuncids (expr tle)).


(** A data-modifying node over one scan, reached when an earlier statement
    has already entered two result relations. *)
Module ModifySample.

Definition modify : Plan :=
  mkPlan T_ModifyTable [] []
         None None [] None
         (ModifyTableFields [1; 2] []
            [Example.scan T_SeqScan 1 [Example.tle (T_Var (Example.var 1 1)) 1]]
            0).
Definition glob : PlannerGlobal :=
  mkPlannerGlobal [Example.rel 500; Example.rel 501; Example.rel 502;
                   Example.rel 503; Example.rel 504]
                  [] [500] [] [4; 5].

End ModifySample.


(** ** The kind of the node that comes back *)

(** [plan'] is of the kind of [plan], unless [plan] is a subquery wrapper
    (which may be replaced by its processed child), or the full-evaluation
    guard applies and [plan'] is the projection put on top. *)
Definition kind_kept {cat : Catalog} (plan plan' : Plan) : Prop :=
  type plan' = type plan \/
  type plan = T_SubqueryScan \/
  (cdb_expr_requires_full_eval (targetlist plan) = true /\
   type plan' = T_Result).

Definition kind_kept_opt {cat : Catalog} (plan plan' : option Plan) : Prop :=
  match plan, plan' with
  | None, None => True
  | Some p, Some p' => kind_kept p p'
  | _, _ => False
  end.


(** ** Reuse of computed outputs *)

(** The reference that stands for a whole expression found in a child's
    output: the entry's position behind [slot], with no original
    relation. *)
Definition reference_to {cat : Catalog} (slot : Index) (tle : TargetEntry)
  : Var :=
  set_varoattno (set_varnoold (makeVarFromTargetEntry slot tle) 0) 0.


(** ** Dependencies of scan-level expressions *)

(** The node itself and every node below it. *)
Fixpoint subnodes (e : Node) : list Node :=
  e ::
  match e with
  | T_Var _ | T_Const _ | T_Grouping | T_GroupId => []
  | T_PlaceHolderVar e' _ | T_ArrayCoerceExpr e' _ | T_RelabelType e' _ =>
      subnodes e'
  | T_Aggref _ l | T_WindowFunc _ l | T_FuncExpr _ _ l | T_OpExpr _ _ _ _ l
  | T_ScalarArrayOpExpr _ _ _ l | T_Expr _ l => flat_map subnodes l
  end.

(** The function is below the threshold of built-in objects, or its
    catalog row is among the recorded function dependencies. *)
Definition function_recorded {cat : Catalog} (funcid : Oid)
           (glob : PlannerGlobal) : Prop :=
  FirstBootstrapObjectId <= funcid ->
  exists t_self,
    SearchSysCache1_PROCOID funcid = Some t_self /\
    In (mkPlanInvalItem PROCOID t_self) (invalItems glob).

(** What the plan depends on because of node [n] alone is in the global
    lists: the relation that a non-null regclass constant names, the
    function that the node invokes. *)
Definition dependency_recorded {cat : Catalog} (n : Node)
           (glob : PlannerGlobal) : Prop :=
  match n with
  | T_Const con =>
      ISREGCLASSCONST con = true ->
      In (DatumGetObjectId (constvalue con)) (relationOids glob)
  | T_Aggref funcid _ | T_WindowFunc funcid _ | T_FuncExpr funcid _ _ =>
      function_recorded funcid glob
  | T_OpExpr _ opno opfuncid _ _ | T_ScalarArrayOpExpr opno opfuncid _ _ =>
      function_recorded (set_opfuncid opno opfuncid) glob
  | T_ArrayCoerceExpr _ elemfuncid =>
      OidIsValid elemfuncid = true -> function_recorded elemfuncid glob
  | _ => True
  end.

(** All dependencies of the tree under [e] are recorded in [g]. *)
Definition all_recorded {cat : Catalog} (e : Node) (g : PlannerGlobal)
  : Prop :=
  forall n, In n (subnodes e) -> dependency_recorded n g.

(** A scan filter that calls a user-defined function on a regclass
    constant. *)
Module DependencySample.

Definition regclass_const : Const := mkConst 2205 (-1) 0 16400 false.
Definition clause : Node :=
  T_OpExpr OpExprTag 96 0 false
           [T_FuncExpr 20000 false [T_Const regclass_const];
            T_Var (Example.var 1 1)].

End DependencySample.


(** ** Variables of scan nodes *)

(** The variables of a tree, left to right. *)
Fixpoint variables (e : Node) : list Var :=
  match e with
  | T_Var var => [var]
  | T_Const _ | T_Grouping | T_GroupId => []
  | T_PlaceHolderVar e' _ | T_ArrayCoerceExpr e' _ | T_RelabelType e' _ =>
      variables e'
  | T_Aggref _ l | T_WindowFunc _ l | T_FuncExpr _ _ l | T_OpExpr _ _ _ _ l
  | T_ScalarArrayOpExpr _ _ _ l | T_Expr _ l => flat_map variables l
  end.

(** What the scan-level fixer does to a variable that is not a pseudo
    column. *)
Definition scan_shift (rtoffset : Z) (v : Var) : Var :=
  shift_varnoold (set_varno (copyVar v) (Index_add (varno v) rtoffset))
                 rtoffset.

(** No variable of the tree is on a pseudo column. *)
Definition no_pseudo_columns {cat : Catalog} (e : Node) : bool :=
  forallb (fun v => FirstLowInvalidHeapAttributeNumber <? varattno v)
          (variables e).

(** The variables of [e'] are those of [e], shifted. *)
Definition variables_shifted (rtoffset : Z) (e e' : Node) : Prop :=
  variables e' = map (scan_shift rtoffset) (variables e).

(** The scan kinds whose struct is a plain [Scan]. *)
Definition plain_scan_kind (t : NodeTag) : bool :=
  match t with
  | T_SeqScan | T_AppendOnlyScan | T_AOCSScan | T_ExternalScan
  | T_CteScan | T_WorkTableScan | T_ForeignScan => true
  | _ => false
  end.

(** A scan of the second relation of a query that is flattened after three
    others. *)
Module ScanSample.

Definition plan : Plan :=
  mkPlan T_SeqScan
         [Example.tle (T_Var (Example.var 2 1)) 1;
          Example.tle (T_FuncExpr 1100 false [T_Var (Example.var 2 3)]) 2]
         [T_OpExpr OpExprTag 96 0 false
                   [T_Var (Example.var 2 1); T_Const (Example.int4 7)]]
         None None [] None (ScanFields 2).

End ScanSample.


(** ** The shortcut at offset zero *)

(** No placeholder, no pseudo column, and relation slots that are 32-bit
    values. *)
Definition plain_expression {cat : Catalog} (e : Node) : bool :=
  node_all (fun n =>
              match n with
              | T_Var var =>
                  (FirstLowInvalidHeapAttributeNumber <? varattno var) &&
                  is_Index (varno var) && is_Index (varnoold var)
              | T_PlaceHolderVar _ _ => false
              | _ => true
              end) e.


(** ** Distribution keys *)

(** The flow of [plan'] is the flow of [plan] with its hash expressions
    resolved against the output list of [plan] itself. *)
Definition flow_resolved {cat : Catalog} (plan plan' : Plan) : Prop :=
  match flow plan with
  | Some fl =>
      match hashExpr fl with
      | [] => flow plan' = flow plan
      | _ :: _ =>
          exists he,
            flow plan' = Some (mkFlow he) /\
            List.length he = List.length (hashExpr fl) /\
            forallb (upper_resolved (targetlist plan)) he = true
      end
  | None => flow plan' = None
  end.

(** A scan that is hash-distributed on its second output column. *)
Module FlowSample.

Definition plan : Plan :=
  mkPlan T_SeqScan
         [Example.tle (T_Var (Example.var 1 4)) 1;
          Example.tle (T_Var (Example.var 1 2)) 2]
         [] None None [] (Some (mkFlow [T_Var (Example.var 1 2)]))
         (ScanFields 1).

End FlowSample.


(** ** When scan-level fixing fails *)

Definition lookup_failure : Error :=
  elog_ERROR "cache lookup failed for function".

(** The outcome is a result exactly when [ok] holds, and otherwise it is
    the failed catalog lookup. *)
Definition succeeds_iff {A} (r : Res A) (ok : bool) : Prop :=
  match r with
  | Ok _ => ok = true
  | Err err => ok = false /\ err = lookup_failure
  end.

(** A scan filter that calls a function the catalog does not know. *)
Module FailureSample.

Definition clause : Node :=
  T_OpExpr OpExprTag 96 0 false
           [T_FuncExpr 99999 false [T_Var (Example.var 1 1)];
            T_Const (Example.int4 1)].

End FailureSample.

(** ** Resolving a second time: the other node kinds *)

(** One plan of every node kind that the dispatcher lists and that is not
    of the scan level, over scans of relations 1 and 2. *)
Module OtherKinds.

Definition column : list TargetEntry :=
  [Example.tle (T_Var (Example.var 1 1)) 1].
Definition leaf : Plan := Example.scan T_SeqScan 1 column.
Definition leaf2 : Plan :=
  Example.scan T_SeqScan 2 [Example.tle (T_Var (Example.var 2 1)) 1].
Definition over_leaf (t : NodeTag) (x : PlanFields) : Plan :=
  mkPlan t column [] (Some leaf) None [] None x.
Definition over_leaves (t : NodeTag) (x : PlanFields) : Plan :=
  mkPlan t column [] (Some leaf) (Some leaf2) [] None x.
Definition over_list (t : NodeTag) : Plan :=
  mkPlan t column [] None None [] None (PlanListFields [leaf]).

Definition samples : list Plan :=
  [ mkPlan T_SubqueryScan column [T_Const (Example.int4 1)] None None []
           None (SubqueryScanFields 1 (Some leaf) [Example.rel 502] []);
    over_leaf T_TableFunctionScan
              (TableFunctionScanFields 1 [Example.rel 502]);
    over_leaves T_NestLoop (NestLoopFields [] []);
    over_leaves T_MergeJoin (MergeJoinFields [] []);
    over_leaves T_HashJoin (HashJoinFields [] [] []);
    over_leaf T_Sort PlainFields;
    over_leaf T_Hash PlainFields;
    over_leaf T_Material PlainFields;
    over_leaf T_Unique PlainFields;
    over_leaf T_SetOp PlainFields;
    over_leaf T_ShareInputScan PlainFields;
    over_leaf T_PartitionSelector
              (PartitionSelectorFields [] [] None None None []);
    over_leaf T_LockRows (LockRowsFields []);
    over_leaf T_Limit (LimitFields None None);
    over_leaf T_Agg PlainFields;
    over_leaf T_WindowAgg (WindowAggFields None None);
    over_leaf T_Result (ResultFields None);
    over_leaf T_Repeat PlainFields;
    mkPlan T_ModifyTable column [] None None [] None
           (ModifyTableFields [1] [] [leaf] 0);
    over_list T_Append;
    over_list T_MergeAppend;
    over_leaves T_RecursiveUnion PlainFields;
    over_leaf T_Motion (MotionFields [T_Var (Example.var 1 1)]);
    mkPlan T_SeqScan column [] None None []
           (Some (mkFlow [T_Var (Example.var 1 1)])) (ScanFields 1) ].

(** The plan is resolved from scratch as the plan of a query over two
    relations; the resolved plan is of the same kind, and handed to the
    fixer a second time with offset 0 it does not come back as it is,
    whatever the fuel. *)
Definition not_reresolved (plan : Plan) : Prop :=
  exists (once : Plan) (glob1 : PlannerGlobal),
    set_plan_references (cat := Example.catalog) 3 (Some plan)
      [Example.rel 500; Example.rel 501] [] Example.glob0
    = Ok (Some once, glob1) /\
    type once = type plan /\
    forall (fuel : nat) (glob2 : PlannerGlobal),
      set_plan_refs (cat := Example.catalog) fuel (Some once) 0 glob1
      <> Ok (Some once, glob2).

End OtherKinds.

(** * Theorems *)

(** ** The monad *)

Lemma bind_Ok {A B} (m : M A) (k : A -> M B) glob r :
  bind m k glob = Ok r ->
  exists a glob1, m glob = Ok (a, glob1) /\ k a glob1 = Ok r.
Proof.
  unfold bind. destruct (m glob) as [[a g1]|e]; intros H; [eauto | discriminate].
Qed.

Lemma bind_Ok_intro {A B} (m : M A) (k : A -> M B) glob a glob1 :
  m glob = Ok (a, glob1) -> bind m k glob = k a glob1.
Proof. unfold bind. intros ->. reflexivity. Qed.
Arguments bind_Ok_intro {A B m k glob a glob1} _.

Lemma ret_Ok {A} (a b : A) glob glob' :
  ret a glob = Ok (b, glob') -> a = b /\ glob = glob'.
Proof. unfold ret. intros H. inversion H. auto. Qed.

Lemma bind_bind {A B C} (m : M A) (k : A -> M B) (k' : B -> M C) glob :
  bind (bind m k) k' glob = bind m (fun a => bind (k a) k') glob.
Proof. unfold bind. destruct (m glob) as [[a g1]|e]; reflexivity. Qed.

Lemma bind_ret_Ok {A B} (m : M A) (h : A -> B) glob b glob' :
  bind m (fun a => ret (h a)) glob = Ok (b, glob') <->
  exists a, m glob = Ok (a, glob') /\ h a = b.
Proof.
  unfold bind, ret. destruct (m glob) as [[a g1]|e]; split.
  - intros H. inversion H. eauto.
  - intros (a' & H & <-). inversion H. reflexivity.
  - discriminate.
  - intros (a' & H & _). discriminate H.
Qed.

Tactic Notation "inv_bind" hyp(H) "as" ident(a) ident(g) ident(H1) :=
  apply bind_Ok in H; destruct H as (a & g & H1 & H).

Ltac inv_ret H :=
  apply ret_Ok in H; destruct H; subst.

(** ** The node returned *)

Section NodeReturned.
Context {cat : Catalog}.

Lemma set_plan_refs_rec_Ok rec plan rtoffset glob p glob' :
  set_plan_refs_rec rec plan rtoffset glob = Ok (p, glob') <->
  exists r, rec plan rtoffset glob = Ok (r, glob') /\
            option_map returned_plan r = p.
Proof. unfold set_plan_refs_rec. apply bind_ret_Ok. Qed.

Lemma set_subqueryscan_references_Ok rec plan rtoffset glob p glob' :
  set_subqueryscan_references rec plan rtoffset glob = Ok (p, glob') <->
  exists r,
    set_subqueryscan_references_returned rec plan rtoffset glob
    = Ok (r, glob') /\
    returned_plan r = p.
Proof. unfold set_subqueryscan_references. apply bind_ret_Ok. Qed.

Lemma set_plan_refs_None fuel rtoffset glob :
  set_plan_refs fuel None rtoffset glob = Ok (None, glob).
Proof. destruct fuel; reflexivity. Qed.

Lemma set_plan_refs_O plan rtoffset glob :
  set_plan_refs O (Some plan) rtoffset glob = Err OutOfFuel.
Proof. reflexivity. Qed.

Lemma set_plan_refs_Some fuel plan rtoffset glob p glob' :
  set_plan_refs (S fuel) (Some plan) rtoffset glob = Ok (p, glob') <->
  exists r,
    set_plan_refs_node (set_plan_refs_returned fuel) plan rtoffset glob
    = Ok (r, glob') /\
    p = Some (returned_plan r).
Proof.
  unfold set_plan_refs, set_plan_refs_rec. cbn [set_plan_refs_returned].
  rewrite bind_bind. unfold bind at 1.
  destruct (set_plan_refs_node _ plan rtoffset glob) as [[r g1]|e]; split.
  - intros H. inversion H. eauto.
  - intros (r' & H & ->). inversion H. reflexivity.
  - discriminate.
  - intros (r' & H & _). discriminate H.
Qed.

(** Running out of fuel apart, the fixer returns a node for a node. *)
Lemma set_plan_refs_node_for_node fuel plan rtoffset glob p glob' :
  set_plan_refs fuel (Some plan) rtoffset glob = Ok (p, glob') ->
  exists fuel' r,
    fuel = S fuel' /\
    set_plan_refs_node (set_plan_refs_returned fuel') plan rtoffset glob
    = Ok (r, glob') /\
    p = Some (returned_plan r).
Proof.
  destruct fuel as [|fuel']; intros H; [discriminate H |].
  apply set_plan_refs_Some in H. destruct H as (r & H & ->). eauto.
Qed.

End NodeReturned.

(** ** The dependency collector *)

Section Dependencies.
Context {cat : Catalog}.

Lemma record_plan_function_dependency_below (funcid : Oid) glob :
  funcid < FirstBootstrapObjectId ->
  record_plan_function_dependency funcid glob = Ok (tt, glob).
Proof.
  intros H. unfold record_plan_function_dependency.
  destruct (Z.leb_spec FirstBootstrapObjectId funcid); [lia | reflexivity].
Qed.

Lemma record_plan_function_dependency_above (funcid : Oid) glob :
  FirstBootstrapObjectId <= funcid ->
  record_plan_function_dependency funcid glob =
  match SearchSysCache1_PROCOID funcid with
  | None => Err (elog_ERROR "cache lookup failed for function")
  | Some t_self =>
      Ok (tt, mkPlannerGlobal (finalrtable glob) (finalrowmarks glob)
                (relationOids glob)
                (invalItems glob ++ [mkPlanInvalItem PROCOID t_self])
                (resultRelations glob))
  end.
Proof.
  intros H. unfold record_plan_function_dependency.
  destruct (Z.leb_spec FirstBootstrapObjectId funcid); [reflexivity | lia].
Qed.

(** C7.  For a routine, aggregate or window invocation the dependency
    collector hands the implementation identifier to
    [record_plan_function_dependency].  Below the bootstrap threshold the
    planner-global state is left exactly as it was: the call contributes
    nothing.  At or above the threshold the invocation is tracked: when the
    implementation is found in the catalog cache, one item for it is
    appended to the function-dependency list and nothing else changes; when
    it is not found the compilation aborts. *)
Theorem function_dependency_threshold :
  forall (node : Node) (fnoid : Oid) (glob : PlannerGlobal),
    (exists l, node = T_Aggref fnoid l) \/
    (exists l, node = T_WindowFunc fnoid l) \/
    (exists r l, node = T_FuncExpr fnoid r l) ->
    fix_expr_common node = record_plan_function_dependency fnoid /\
    (fnoid < FirstBootstrapObjectId ->
     fix_expr_common node glob = Ok (tt, glob)) /\
    (FirstBootstrapObjectId <= fnoid ->
     forall t_self, SearchSysCache1_PROCOID fnoid = Some t_self ->
       fix_expr_common node glob =
       Ok (tt, mkPlannerGlobal (finalrtable glob) (finalrowmarks glob)
                 (relationOids glob)
                 (invalItems glob ++ [mkPlanInvalItem PROCOID t_self])
                 (resultRelations glob))) /\
    (FirstBootstrapObjectId <= fnoid ->
     SearchSysCache1_PROCOID fnoid = None ->
     fix_expr_common node glob =
     Err (elog_ERROR "cache lookup failed for function")).
Proof.
  intros node fnoid glob Hnode.
  assert (E : fix_expr_common node = record_plan_function_dependency fnoid).
  { destruct Hnode as [[l ->] | [[l ->] | (r & l & ->)]]; reflexivity. }
  rewrite E. split; [reflexivity |]. split; [| split].
  - apply record_plan_function_dependency_below.
  - intros Hge t Ht. rewrite record_plan_function_dependency_above by exact Hge.
    rewrite Ht. reflexivity.
  - intros Hge Hnone.
    rewrite record_plan_function_dependency_above by exact Hge.
    rewrite Hnone. reflexivity.
Qed.

End Dependencies.

Lemma function_dependency_threshold_witness :
  fix_expr_common (cat := Example.catalog) (T_FuncExpr 42 false [])
                  Example.glob0 = Ok (tt, Example.glob0) /\
  fix_expr_common (cat := Example.catalog) (T_Aggref 16384 [])
                  Example.glob0 =
  Ok (tt, mkPlannerGlobal [] [] [] [mkPlanInvalItem 45 16384] []) /\
  fix_expr_common (cat := Example.catalog) (T_WindowFunc 99999 [])
                  Example.glob0 =
  Err (elog_ERROR "cache lookup failed for function").
Proof.
  split; [| split].
  - apply (function_dependency_threshold (cat := Example.catalog)
             (node := T_FuncExpr 42 false []) (fnoid := 42)).
    + right; right. exists false, []. reflexivity.
    + reflexivity.
  - apply (function_dependency_threshold (cat := Example.catalog)
             (node := T_Aggref 16384 []) (fnoid := 16384) Example.glob0).
    + left. exists []. reflexivity.
    + discriminate.
    + reflexivity.
  - apply (function_dependency_threshold (cat := Example.catalog)
             (node := T_WindowFunc 99999 []) (fnoid := 99999) Example.glob0).
    + right; left. exists []. reflexivity.
    + discriminate.
    + reflexivity.
Defined.

(** ** Unmatched variables *)

Section Unmatched.
Context {cat : Catalog}.


(** C4.  A variable that is found neither in the left child's index nor
    (when there is a right child's index) in the right one: the
    join-expression fixer returns it when its relation slot is the
    acceptable slot, with every field as it was except the diagnostics-only
    original slot, to which the offset is added when it is set; for any
    other slot it raises the fatal error.  The upper-node fixer raises the
    fatal error for every variable its one index does not list. *)
Theorem unmatched_variable :
  forall (jc : fix_join_expr_context) (uc : fix_upper_expr_context)
         (var : Var) (glob : PlannerGlobal),
    (search_indexed_tlist_for_var var (outer_itlist jc) OUTER
       (join_rtoffset jc) = None ->
     (forall inner, inner_itlist jc = Some inner ->
        search_indexed_tlist_for_var var inner INNER (join_rtoffset jc)
        = None) ->
     (varno var = acceptable_rel jc ->
      exists var',
        fix_join_expr_mutator jc (T_Var var) glob = Ok (T_Var var', glob) /\
        varno var' = varno var /\ varattno var' = varattno var /\
        vartype var' = vartype var /\ vartypmod var' = vartypmod var /\
        varcollid var' = varcollid var /\
        varlevelsup var' = varlevelsup var /\
        varoattno var' = varoattno var /\
        varnoold var' = (if 0 <? varnoold var
                         then Index_add (varnoold var) (join_rtoffset jc)
                         else varnoold var)) /\
     (varno var <> acceptable_rel jc ->
      fix_join_expr_mutator jc (T_Var var) glob =
      Err (elog_ERROR "variable not found in subplan target lists"))) /\
    (search_indexed_tlist_for_var var (subplan_itlist uc) OUTER
       (upper_rtoffset uc) = None ->
     fix_upper_expr_mutator uc (T_Var var) glob =
     Err (elog_ERROR "variable not found in subplan target list")).
Proof.
  intros jc uc var glob. split.
  - intros Houter Hinner.
    assert (Hs : join_search_var jc var = None).
    { unfold join_search_var. rewrite Houter.
      destruct (inner_itlist jc) as [inner|]; [apply Hinner|]; reflexivity. }
    split.
    + intros Hacc. exists (shift_varnoold var (join_rtoffset jc)).
      split.
      * simpl. rewrite Hs. rewrite Hacc, Z.eqb_refl. reflexivity.
      * unfold shift_varnoold. destruct (0 <? varnoold var); simpl; tauto.
    + intros Hacc. simpl. rewrite Hs.
      destruct (Z.eqb_spec (varno var) (acceptable_rel jc)); [contradiction|].
      reflexivity.
  - intros Hnone. simpl. rewrite Hnone. reflexivity.
Qed.

End Unmatched.

Lemma unmatched_variable_witness :
  let itlist := build_tlist_index [Example.tle (T_Var (Example.var 1 1)) 1] in
  let jc := mk_fix_join_expr_context itlist None 3 2 true true in
  let uc := mk_fix_upper_expr_context itlist 0 in
  (exists var',
     fix_join_expr_mutator (cat := Example.catalog) jc
       (T_Var (Example.var 3 1)) Example.glob0 = Ok (T_Var var', Example.glob0)
     /\ varno var' = 3 /\ varattno var' = 1 /\ varnoold var' = 5) /\
  fix_join_expr_mutator (cat := Example.catalog) jc
    (T_Var (Example.var 2 1)) Example.glob0 =
  Err (elog_ERROR "variable not found in subplan target lists") /\
  fix_upper_expr_mutator (cat := Example.catalog) uc
    (T_Var (Example.var 1 2)) Example.glob0 =
  Err (elog_ERROR "variable not found in subplan target list").
Proof.
  intros itlist jc uc.
  pose proof (unmatched_variable (cat := Example.catalog) jc uc
                (Example.var 3 1) Example.glob0) as [Hj3 _].
  pose proof (unmatched_variable (cat := Example.catalog) jc uc
                (Example.var 2 1) Example.glob0) as [Hj2 _].
  pose proof (unmatched_variable (cat := Example.catalog) jc uc
                (Example.var 1 2) Example.glob0) as [_ Hu].
  split; [| split].
  - destruct Hj3 as [Hacc _];
      [reflexivity | intros inner H; discriminate H |].
    destruct Hacc as (var' & E & H1 & H2 & _ & _ & _ & _ & _ & H8);
      [reflexivity |].
    exists var'. repeat split; auto.
  - destruct Hj2 as [_ Hrej];
      [reflexivity | intros inner H; discriminate H |].
    apply Hrej. discriminate.
  - apply Hu. reflexivity.
Defined.

(** ** Traversals *)

Lemma mapM_Ok_Forall2 {A B} (f : A -> M B) (R : A -> B -> Prop) (l : list A) :
  Forall (fun x => forall g y g', f x g = Ok (y, g') -> R x y) l ->
  forall g ys g', mapM f l g = Ok (ys, g') -> Forall2 R l ys.
Proof.
  induction 1 as [|x l Hx Hl IH]; intros g ys g' H; simpl in H.
  - inv_ret H. constructor.
  - inv_bind H as y g1 Hy. inv_bind H as ys' g2 Hys. inv_ret H.
    constructor; eauto.
Qed.

Lemma mapM_total {A B} (f : A -> M B) (h : A -> B) (l : list A) :
  Forall (fun x => forall g, exists g', f x g = Ok (h x, g')) l ->
  forall g, exists g', mapM f l g = Ok (map h l, g').
Proof.
  induction 1 as [|x l Hx Hl IH]; intros g; simpl.
  - eexists. reflexivity.
  - destruct (Hx g) as [g1 E1]. destruct (IH g1) as [g2 E2].
    exists g2. rewrite (bind_Ok_intro E1), (bind_Ok_intro E2).
    reflexivity.
Qed.

Lemma Forall2_eq_map {A B} (h : A -> B) (l : list A) (ys : list B) :
  Forall2 (fun x y => y = h x) l ys -> ys = map h l.
Proof. induction 1; simpl; congruence. Qed.

Lemma forallb_Forall {A} (p : A -> bool) (l : list A) :
  forallb p l = true -> Forall (fun x => p x = true) l.
Proof. rewrite forallb_forall, Forall_forall. auto. Qed.

(** ** Pseudo columns *)

Section PseudoColumns.
Context {cat : Catalog}.

(** The source fills in a node's operator handle in place and then copies
    the node around its fixed children; the embedding copies first and fills
    in the handle of the copy.  The two orders give the same tree. *)
Lemma expression_tree_mutator_after_common (mutator : Node -> M Node)
      (n : Node) (g : PlannerGlobal) :
  expression_tree_mutator mutator (fix_expr_common_node n) g =
  (n' <- expression_tree_mutator mutator n ;;
   ret (fix_expr_common_node n')) g.
Proof.
  destruct n; simpl; unfold bind, ret; try reflexivity;
    first [ destruct (mapM mutator args g) as [[? ?]|]
          | destruct (mutator n g) as [[? ?]|] ];
    reflexivity.
Qed.

Lemma fix_expr_common_node_idempotent (n : Node) :
  fix_expr_common_node (fix_expr_common_node n) = fix_expr_common_node n.
Proof.
  destruct n; simpl; try reflexivity; unfold set_opfuncid;
    destruct (opfuncid =? InvalidOid) eqn:E; try rewrite E; try reflexivity;
    destruct (get_opcode opno =? InvalidOid) eqn:E'; try reflexivity;
    apply Z.eqb_eq in E'; rewrite E'; reflexivity.
Qed.

(** What the walker leaves behind is the tree with its operator handles
    filled in; nothing else of it changes. *)
Lemma fix_scan_expr_walker_result context (e : Node) :
  forall glob r glob',
    fix_scan_expr_walker context e glob = Ok (r, glob') ->
    r = fix_opfuncids e.
Proof.
  induction e as [v|c|e i IHe|f l IH|f l IH|f r0 l IH|t o f r0 l IH
                  |o f u l IH|e f IHe|e t IHe| | |t l IH] using Node_ind';
    intros glob r glob' Hrun; simpl in Hrun;
    inv_bind Hrun as un g1 Hc; inv_bind Hrun as n' g2 Hw; inv_ret Hrun;
    unfold expression_tree_walker, expression_tree_mutator in Hw;
    try (inv_ret Hw; reflexivity);
    try (inv_bind Hw as e' g3 He; inv_ret Hw; simpl;
         erewrite <- IHe by eassumption; reflexivity);
    inv_bind Hw as l' g3 Hl; inv_ret Hw; simpl;
    erewrite <- (Forall2_eq_map fix_opfuncids (l := l) (ys := l'));
    try reflexivity;
    (eapply mapM_Ok_Forall2; [| eassumption];
     eapply Forall_impl; [| exact IH]; simpl; intros; eauto).
Qed.

Lemma fix_expr_common_total (n : Node) :
  fix_expr_common_ok n = true ->
  forall glob, exists glob', fix_expr_common n glob = Ok (tt, glob').
Proof.
  assert (D : forall f, dependency_found f = true ->
                        forall glob, exists glob',
                          record_plan_function_dependency f glob
                          = Ok (tt, glob')).
  { intros f Hf glob. unfold dependency_found in Hf.
    unfold record_plan_function_dependency.
    destruct (Z.leb_spec FirstBootstrapObjectId f) as [Hge|Hlt].
    - destruct (Z.ltb_spec f FirstBootstrapObjectId); [lia|]. simpl in Hf.
      destruct (SearchSysCache1_PROCOID f); [eauto | discriminate].
    - eauto. }
  destruct n; simpl; intros H glob; eauto;
    try (unfold ret; eauto; fail).
  - destruct (ISREGCLASSCONST con); unfold ret, lappend_relationOid; eauto.
  - destruct (OidIsValid elemfuncid); simpl in H; [auto | unfold ret; eauto].
Qed.

Lemma fix_scan_expr_walker_total context (e : Node) :
  deps_resolvable e = true ->
  forall glob, exists glob',
    fix_scan_expr_walker context e glob = Ok (fix_opfuncids e, glob').
Proof.
  unfold deps_resolvable.
  induction e as [v|c|e i IHe|f l IH|f l IH|f r0 l IH|t o f r0 l IH
                  |o f u l IH|e f IHe|e t IHe| | |t l IH] using Node_ind';
    intros Hres glob; cbn [node_all] in Hres;
    apply andb_true_iff in Hres; destruct Hres as [Hc Hk];
    destruct (fix_expr_common_total _ Hc glob) as [g1 E1];
    simpl; rewrite (bind_Ok_intro E1);
    unfold expression_tree_walker, expression_tree_mutator;
    try (eexists; reflexivity);
    try (destruct (IHe Hk g1) as [g2 E2]; unfold bind; rewrite E2;
         eexists; reflexivity);
    (destruct (@mapM_total _ _ (fix_scan_expr_walker context)
                 fix_opfuncids l) with (g := g1) as [g2 E2];
     [ apply forallb_Forall in Hk;
       rewrite Forall_forall in *; intros x Hx; auto
     | unfold bind; rewrite E2; eexists; reflexivity ]).
Qed.

(** C8, as amended.  A variable whose attribute position denotes a pseudo
    column is replaced by a copy of the column's defining expression, looked
    up in the entry of the flattened range table at the variable's shifted
    slot.  Over that copy only the walker runs: it records dependencies and
    fills in operator handles, so the replacement is the defining
    expression with its handles filled in.  Variables inside the copy keep
    their slots (a defining expression that is a variable comes back as
    that very variable), and a result is produced whenever the catalog
    resolves the dependencies of the defining expression. *)
Theorem pseudo_column_replacement :
  forall (context : fix_scan_expr_context) (var : Var) (glob : PlannerGlobal)
         (rte : RangeTblEntry) (defexpr : Node),
    varattno var <= FirstLowInvalidHeapAttributeNumber ->
    rt_fetch (Index_add (varno var) (scan_rtoffset context))
             (finalrtable glob) = Some rte ->
    cdb_rte_find_pseudo_column rte (varattno var) = Some defexpr ->
    fix_scan_expr_mutator context (T_Var var) glob =
    fix_scan_expr_walker context defexpr glob /\
    (forall r glob',
        fix_scan_expr_mutator context (T_Var var) glob = Ok (r, glob') ->
        r = fix_opfuncids defexpr) /\
    (forall inner,
        defexpr = T_Var inner ->
        fix_scan_expr_mutator context (T_Var var) glob
        = Ok (T_Var inner, glob)) /\
    (deps_resolvable defexpr = true ->
     exists glob',
       fix_scan_expr_mutator context (T_Var var) glob
       = Ok (fix_opfuncids defexpr, glob')).
Proof.
  intros context var glob rte defexpr Hatt Hrte Hdef.
  assert (E : fix_scan_expr_mutator context (T_Var var) glob =
              fix_scan_expr_walker context defexpr glob).
  { simpl. unfold copyVar.
    assert (Ha : varattno (shift_varnoold
                   (set_varno var (Index_add (varno var)
                                             (scan_rtoffset context)))
                   (scan_rtoffset context)) = varattno var).
    { unfold shift_varnoold. destruct (0 <? _); reflexivity. }
    assert (Hn : varno (shift_varnoold
                   (set_varno var (Index_add (varno var)
                                             (scan_rtoffset context)))
                   (scan_rtoffset context))
                 = Index_add (varno var) (scan_rtoffset context)).
    { unfold shift_varnoold. destruct (0 <? _); reflexivity. }
    rewrite Ha, Hn.
    destruct (Z.leb_spec (varattno var) FirstLowInvalidHeapAttributeNumber);
      [| lia].
    unfold bind, get_glob. rewrite Hrte, Hdef. reflexivity. }
  rewrite E. split; [reflexivity |]. split; [| split].
  - intros r glob'. apply fix_scan_expr_walker_result.
  - intros inner ->. reflexivity.
  - intros Hres. apply fix_scan_expr_walker_total. exact Hres.
Qed.

End PseudoColumns.

Lemma pseudo_column_replacement_witness :
  fix_scan_expr_mutator (cat := Example.catalog) (mk_fix_scan_expr_context 1)
    (T_Var Example.pseudo_var) Example.pseudo_glob
  = Ok (T_Var (Example.var 1 3), Example.pseudo_glob).
Proof.
  apply (pseudo_column_replacement (cat := Example.catalog)
           (mk_fix_scan_expr_context 1) Example.pseudo_var
           Example.pseudo_glob (rte := Example.pseudo_rte)
           (defexpr := T_Var (Example.var 1 3))).
  - discriminate.
  - reflexivity.
  - reflexivity.
  - reflexivity.
Defined.

(** C8, as the claim states it, fails: at offset 1 the pseudo column defined
    as the variable (1, 3) is replaced by that variable unchanged, whereas
    fixing the definition like a scan-level expression would move it to
    slot 2. *)
Lemma pseudo_column_replacement_counterexample :
  fix_scan_expr_mutator (cat := Example.catalog) (mk_fix_scan_expr_context 1)
    (T_Var Example.pseudo_var) Example.pseudo_glob
  = Ok (T_Var (Example.var 1 3), Example.pseudo_glob) /\
  pseudo_column_replacement_spec (cat := Example.catalog)
    (mk_fix_scan_expr_context 1) Example.pseudo_var Example.pseudo_glob
  = Ok (T_Var (Example.var 2 3), Example.pseudo_glob) /\
  fix_scan_expr_mutator (cat := Example.catalog) (mk_fix_scan_expr_context 1)
    (T_Var Example.pseudo_var) Example.pseudo_glob
  <> pseudo_column_replacement_spec (cat := Example.catalog)
       (mk_fix_scan_expr_context 1) Example.pseudo_var Example.pseudo_glob.
Proof.
  split; [reflexivity |]. split; [reflexivity |].
  vm_compute. discriminate.
Qed.

(** ** Subquery-wrapper elimination *)

Section WrapperElimination.
Context {cat : Catalog}.

Lemma trivial_subqueryscan_tle_spec (i : nat) (ptle ctle : TargetEntry) :
  trivial_subqueryscan_tle (Z.of_nat i + 1) ptle ctle = true <->
  passthrough_entry i ptle ctle.
Proof.
  unfold trivial_subqueryscan_tle, passthrough_entry.
  destruct (Bool.eqb (resjunk ptle) (resjunk ctle)) eqn:Ej; simpl.
  - apply eqb_prop in Ej. destruct (expr ptle) eqn:Ee.
    all: try (split; [discriminate
                     | intros [_ [(v & Hv & _) | (c & Hc & _)]];
                       discriminate]).
    + split.
      * intros H. apply Z.eqb_eq in H. split; [exact Ej|]. left. eauto.
      * intros [_ [(v & Hv & Ha) | (c & Hc & _)]]; [| discriminate].
        inversion Hv; subst. apply Z.eqb_eq. exact Ha.
    + split.
      * intros H. split; [exact Ej|]. right. eauto.
      * intros [_ [(v & Hv & _) | (c & _ & He)]]; [discriminate | exact He].
  - split; [discriminate|]. intros [Hj _]. rewrite Hj in Ej.
    rewrite eqb_reflx in Ej. discriminate.
Qed.

Lemma trivial_subqueryscan_loop_spec (lp : list TargetEntry) :
  forall (lc : list TargetEntry) (k : nat),
    List.length lp = List.length lc ->
    (trivial_subqueryscan_loop (Z.of_nat k + 1) lp lc = true <->
     forall i ptle ctle,
       nth_error lp i = Some ptle -> nth_error lc i = Some ctle ->
       passthrough_entry (k + i) ptle ctle).
Proof.
  induction lp as [|p lp IH]; intros [|c lc] k Hlen; simpl in Hlen;
    try discriminate.
  - simpl. split; [| reflexivity]. intros _ [|i] ? ? H; discriminate H.
  - simpl.
    destruct (trivial_subqueryscan_tle (Z.of_nat k + 1) p c) eqn:Et.
    + apply trivial_subqueryscan_tle_spec in Et.
      replace (Z.of_nat k + 1 + 1) with (Z.of_nat (S k) + 1) by lia.
      rewrite IH by lia. split.
      * intros H [|i] ptle ctle Hp Hc; simpl in Hp, Hc.
        -- inversion Hp; inversion Hc; subst.
           rewrite Nat.add_0_r. exact Et.
        -- replace (k + S i)%nat with (S k + i)%nat by lia. eauto.
      * intros H i ptle ctle Hp Hc.
        replace (S k + i)%nat with (k + S i)%nat by lia.
        apply H; assumption.
    + split; [discriminate|]. intros H.
      specialize (H 0%nat p c eq_refl eq_refl). rewrite Nat.add_0_r in H.
      apply trivial_subqueryscan_tle_spec in H. congruence.
Qed.

Lemma trivial_subqueryscan_tlists_spec (ptl ctl : list TargetEntry) :
  trivial_subqueryscan_tlists ptl ctl = true <-> passthrough_tlist ptl ctl.
Proof.
  unfold trivial_subqueryscan_tlists, passthrough_tlist, list_length.
  destruct (Z.eqb_spec (Z.of_nat (List.length ptl))
                       (Z.of_nat (List.length ctl))) as [E|E]; simpl.
  - apply Nat2Z.inj in E.
    rewrite (trivial_subqueryscan_loop_spec ptl ctl 0 E). simpl. tauto.
  - split; [discriminate|]. intros [Hl _]. congruence.
Qed.

Lemma transfer_labels_expr (lp lc : list TargetEntry) :
  map expr (transfer_labels lp lc) = map expr lc.
Proof.
  revert lc. induction lp as [|p lp IH]; intros [|c lc]; simpl;
    try reflexivity. rewrite IH. reflexivity.
Qed.

Lemma transfer_labels_label (lp lc : list TargetEntry) :
  List.length lp = List.length lc ->
  map label (transfer_labels lp lc) = map label lp.
Proof.
  revert lc. induction lp as [|p lp IH]; intros [|c lc] H; simpl in *;
    try discriminate; try reflexivity.
  rewrite IH by lia. reflexivity.
Qed.

(** C3.  Let the wrapper's subplan have been processed into [child].  The
    wrapper is eliminated exactly when it is eliminable over [child] in the
    sense of [eliminable]: no residual filter, and an output list that
    passes the child's output through position by position with the same
    junk flags, a literal constant equal to the child's entry being
    accepted as well.  When it is, the node returned is the child (its
    kind, filter, children, own fields and output expressions), carrying
    the wrapper's display label (declared name, source table and column) at
    every position; when it is not, the node returned is the wrapper, kept
    over the child. *)
Theorem subquery_wrapper_elimination :
  forall (rec : option Plan -> Z -> M (option Plan)) (plan : Plan)
         (rtoffset : Z) (glob : PlannerGlobal) (scanrelid : Index)
         (subplan : option Plan) (subrtable : list RangeTblEntry)
         (subrowmark : list PlanRowMark) (child : Plan)
         (glob1 : PlannerGlobal),
    fields plan = SubqueryScanFields scanrelid subplan subrtable subrowmark ->
    set_plan_references_with rec subplan subrtable subrowmark glob
    = Ok (Some child, glob1) ->
    (trivial_subqueryscan_tlists (targetlist plan) (targetlist child) = true
     <-> passthrough_tlist (targetlist plan) (targetlist child)) /\
    (eliminable plan child ->
     set_subqueryscan_references rec plan rtoffset glob
     = Ok (pull_up_subplan plan child, glob1) /\
     type (pull_up_subplan plan child) = type child /\
     qual (pull_up_subplan plan child) = qual child /\
     lefttree (pull_up_subplan plan child) = lefttree child /\
     righttree (pull_up_subplan plan child) = righttree child /\
     fields (pull_up_subplan plan child) = fields child /\
     map expr (targetlist (pull_up_subplan plan child))
     = map expr (targetlist child) /\
     map label (targetlist (pull_up_subplan plan child))
     = map label (targetlist plan)) /\
    (~ eliminable plan child ->
     forall r glob2,
       set_subqueryscan_references rec plan rtoffset glob = Ok (r, glob2) ->
       type r = type plan /\
       fields r = SubqueryScanFields (Index_add scanrelid rtoffset)
                                     (Some child) [] []).
Proof.
  intros rec plan rtoffset glob scanrelid subplan subrtable subrowmark child
         glob1 Hfields Hrec.
  split; [apply trivial_subqueryscan_tlists_spec |]. split.
  - intros [Hq Hpass]. split.
    + unfold set_subqueryscan_references,
        set_subqueryscan_references_returned.
      rewrite Hfields, bind_bind.
      rewrite (bind_Ok_intro Hrec).
      unfold trivial_subqueryscan. cbn [fields set_fields qual].
      rewrite Hq. cbn. cbv [bind ret].
      apply trivial_subqueryscan_tlists_spec in Hpass. rewrite Hpass.
      reflexivity.
    + repeat split; try reflexivity.
      * apply transfer_labels_expr.
      * apply transfer_labels_label. apply Hpass.
  - intros Hnot r glob2 Hrun.
    unfold set_subqueryscan_references,
      set_subqueryscan_references_returned in Hrun.
    rewrite Hfields, bind_bind in Hrun.
    rewrite (bind_Ok_intro Hrec) in Hrun.
    apply bind_ret_Ok in Hrun. destruct Hrun as (kept & Hrun & <-).
    inv_bind Hrun as trivial g2 Ht.
    assert (trivial = false) as ->.
    { unfold trivial_subqueryscan in Ht. cbn [fields set_fields qual] in Ht.
      destruct (qual plan) eqn:Hq.
      - cbn in Ht. inv_ret Ht.
        destruct (trivial_subqueryscan_tlists _ _) eqn:E; [| reflexivity].
        exfalso. apply Hnot. split; [exact Hq |].
        apply trivial_subqueryscan_tlists_spec. exact E.
      - inv_ret Ht. reflexivity. }
    inv_bind Hrun as tl g3 Htl. inv_bind Hrun as q g4 Hq. inv_ret Hrun.
    split; reflexivity.
Qed.

End WrapperElimination.

Lemma subquery_wrapper_elimination_witness :
  (set_subqueryscan_references (cat := Example.catalog)
     (set_plan_refs (cat := Example.catalog) 3) Example.wrapper 0
     Example.wrapper_glob
   = Ok (pull_up_subplan Example.wrapper Example.wrapped_scan_resolved,
         Example.wrapper_glob_after) /\
   map label (targetlist (pull_up_subplan Example.wrapper
                                          Example.wrapped_scan_resolved))
   = [(Some "x"%string, 0, 0); (Some "y"%string, 0, 0)]) /\
  (forall r glob2,
      set_subqueryscan_references (cat := Example.catalog)
        (set_plan_refs (cat := Example.catalog) 3) Example.filtering_wrapper 0
        Example.wrapper_glob = Ok (r, glob2) ->
      type r = T_SubqueryScan /\
      fields r = SubqueryScanFields 1 (Some Example.wrapped_scan_resolved)
                                    [] []).
Proof.
  split.
  - destruct (subquery_wrapper_elimination (cat := Example.catalog)
                (set_plan_refs (cat := Example.catalog) 3) Example.wrapper 0
                Example.wrapper_glob (scanrelid := 1)
                (subplan := Some Example.wrapped_scan)
                (subrtable := [Example.rel 500]) (subrowmark := [])
                (child := Example.wrapped_scan_resolved)
                (glob1 := Example.wrapper_glob_after) eq_refl eq_refl)
      as (Hiff & Helim & _).
    destruct Helim as (Hrun & _ & _ & _ & _ & _ & _ & Hlabel).
    + split; [reflexivity |]. apply Hiff. reflexivity.
    + split; [exact Hrun | exact Hlabel].
  - destruct (subquery_wrapper_elimination (cat := Example.catalog)
                (set_plan_refs (cat := Example.catalog) 3)
                Example.filtering_wrapper 0
                Example.wrapper_glob (scanrelid := 1)
                (subplan := Some Example.wrapped_scan)
                (subrtable := [Example.rel 500]) (subrowmark := [])
                (child := Example.wrapped_scan_resolved)
                (glob1 := Example.wrapper_glob_after) eq_refl eq_refl)
      as (_ & _ & Hkeep).
    apply Hkeep. intros [Hq _]. discriminate Hq.
Defined.

(** ** Pass-through output lists *)

Section Passthrough.
Context {cat : Catalog}.






End Passthrough.



(** ** Hash clauses *)


Section HashClauses.
Context {cat : Catalog}.

















End HashClauses.



(** ** Relation dependencies *)

Section RelationDependencies.
Context {cat : Catalog}.

#[local] Arguments fix_expr_common : simpl never.
#[local] Arguments expression_tree_mutator : simpl never.
#[local] Arguments expression_tree_walker : simpl never.

Lemma keeps_refl g : keeps_relationOids g g.
Proof. intros o H. exact H. Qed.

Lemma keeps_trans g1 g2 g3 :
  keeps_relationOids g1 g2 -> keeps_relationOids g2 g3 ->
  keeps_relationOids g1 g3.
Proof. intros H1 H2 o H. auto. Qed.

Lemma grows_ret {A} (a : A) : grows (ret a).
Proof. intros g b g' H. inv_ret H. apply keeps_refl. Qed.

Lemma grows_raise {A} (e : Error) : grows (@raise A e).
Proof. intros g b g' H. discriminate H. Qed.

Lemma grows_bind {A B} (m : M A) (k : A -> M B) :
  grows m -> (forall a, grows (k a)) -> grows (bind m k).
Proof.
  intros Hm Hk g b g' H. inv_bind H as a g1 H1.
  eapply keeps_trans; [eapply Hm | eapply Hk]; eassumption.
Qed.

Lemma grows_mapM_Forall {A B} (f : A -> M B) (l : list A) :
  Forall (fun x => grows (f x)) l -> grows (mapM f l).
Proof.
  induction 1 as [|x l Hx Hl IH]; simpl.
  - apply grows_ret.
  - apply grows_bind; [exact Hx | intros y].
    apply grows_bind; [exact IH | intros ys]. apply grows_ret.
Qed.

Lemma grows_mapM {A B} (f : A -> M B) (l : list A) :
  (forall x, grows (f x)) -> grows (mapM f l).
Proof.
  intros H. apply grows_mapM_Forall. apply Forall_forall. auto.
Qed.

Lemma grows_optM {A B} (f : A -> M B) (o : option A) :
  (forall x, grows (f x)) -> grows (optM f o).
Proof.
  intros H. destruct o; simpl; [| apply grows_ret].
  apply grows_bind; [apply H | intros; apply grows_ret].
Qed.

Lemma grows_deref {A} (o : option A) what : grows (deref o what).
Proof. destruct o; [apply grows_ret | apply grows_raise]. Qed.

Lemma grows_get_glob : grows get_glob.
Proof. intros g a g' H. inversion H. apply keeps_refl. Qed.

Lemma grows_record_plan_function_dependency funcid :
  grows (record_plan_function_dependency funcid).
Proof.
  intros g a g' H. unfold record_plan_function_dependency in H.
  destruct (_ <=? _); [| inversion H; apply keeps_refl].
  destruct (SearchSysCache1_PROCOID funcid); [| discriminate H].
  inversion H. intros o Ho. exact Ho.
Qed.

Lemma grows_lappend_relationOid o : grows (lappend_relationOid o).
Proof.
  intros g a g' H. inversion H. intros x Hx. simpl.
  apply in_or_app. left. exact Hx.
Qed.

Lemma grows_lappend_finalrtable rte : grows (lappend_finalrtable rte).
Proof. intros g a g' H. inversion H. intros x Hx. exact Hx. Qed.

Lemma grows_lappend_finalrowmarks rc : grows (lappend_finalrowmarks rc).
Proof. intros g a g' H. inversion H. intros x Hx. exact Hx. Qed.

Lemma grows_list_concat_resultRelations l :
  grows (list_concat_resultRelations l).
Proof. intros g a g' H. inversion H. intros x Hx. exact Hx. Qed.

Lemma grows_list_length_resultRelations : grows list_length_resultRelations.
Proof. intros g a g' H. inversion H. apply keeps_refl. Qed.

Lemma grows_fix_expr_common n : grows (fix_expr_common n).
Proof.
  destruct n; unfold fix_expr_common;
    try apply grows_record_plan_function_dependency;
    try apply grows_ret.
  - destruct (ISREGCLASSCONST con);
      [apply grows_lappend_relationOid | apply grows_ret].
  - destruct (OidIsValid elemfuncid);
      [apply grows_record_plan_function_dependency | apply grows_ret].
Qed.

Lemma grows_expression_tree_mutator (mutator : Node -> M Node) (n : Node) :
  match n with
  | T_PlaceHolderVar e _ | T_ArrayCoerceExpr e _ | T_RelabelType e _ =>
      grows (mutator e)
  | T_Aggref _ l | T_WindowFunc _ l | T_FuncExpr _ _ l | T_OpExpr _ _ _ _ l
  | T_ScalarArrayOpExpr _ _ _ l | T_Expr _ l =>
      Forall (fun x => grows (mutator x)) l
  | _ => True
  end ->
  grows (expression_tree_mutator mutator n).
Proof.
  destruct n; unfold expression_tree_mutator; intros H;
    try apply grows_ret;
    (apply grows_bind;
     [ first [exact H | apply grows_mapM_Forall; exact H]
     | intros; apply grows_ret ]).
Qed.

(** A node is rebuilt around its fixed children. *)
Ltac grows_rebuilt :=
  apply grows_bind; [apply grows_fix_expr_common | intros _];
  apply grows_bind; [| intros; apply grows_ret];
  apply grows_expression_tree_mutator; simpl; auto.

Lemma grows_found_or_else (found : option Var) (otherwise : M Node) :
  grows otherwise ->
  grows (match found with
         | Some newvar => ret (T_Var newvar)
         | None => otherwise
         end).
Proof. destruct found; [intros; apply grows_ret | auto]. Qed.

Lemma grows_fix_scan_expr_walker context e :
  grows (fix_scan_expr_walker context e).
Proof.
  induction e using Node_ind'; simpl; unfold expression_tree_walker;
    grows_rebuilt.
Qed.

Lemma grows_fix_scan_expr_mutator context e :
  grows (fix_scan_expr_mutator context e).
Proof.
  induction e using Node_ind'; simpl; try grows_rebuilt; try assumption.
  destruct (_ <=? _); [| apply grows_ret].
  apply grows_bind; [apply grows_get_glob | intros glob].
  destruct (rt_fetch _ _); [| apply grows_raise].
  destruct (cdb_rte_find_pseudo_column _ _); [| apply grows_raise].
  apply grows_fix_scan_expr_walker.
Qed.

Lemma grows_fix_join_expr_mutator context e :
  grows (fix_join_expr_mutator context e).
Proof.
  induction e using Node_ind'; simpl;
    try (apply grows_found_or_else; apply grows_found_or_else;
         first [assumption | grows_rebuilt]).
  apply grows_found_or_else.
  destruct (_ =? _); [apply grows_ret | apply grows_raise].
Qed.

Lemma grows_fix_upper_expr_mutator context e :
  grows (fix_upper_expr_mutator context e).
Proof.
  induction e using Node_ind'; simpl;
    try (apply grows_found_or_else; first [assumption | grows_rebuilt]).
  destruct (search_indexed_tlist_for_var _ _ _ _);
    [apply grows_ret | apply grows_raise].
Qed.

Create HintDb grows.

#[local] Hint Resolve grows_get_glob grows_record_plan_function_dependency
  grows_lappend_relationOid grows_lappend_finalrtable
  grows_lappend_finalrowmarks grows_list_concat_resultRelations
  grows_list_length_resultRelations grows_fix_expr_common
  grows_fix_scan_expr_walker grows_fix_scan_expr_mutator
  grows_fix_join_expr_mutator grows_fix_upper_expr_mutator : grows.

Ltac grows_step :=
  match goal with
  | |- grows (bind _ _) => apply grows_bind; [| intros ?]
  | |- grows (ret _) => apply grows_ret
  | |- grows (raise _) => apply grows_raise
  | |- grows (mapM _ _) => apply grows_mapM; intros ?
  | |- grows (optM _ _) => apply grows_optM; intros ?
  | |- grows (deref _ _) => apply grows_deref
  | |- grows ((fun _ => _) _) => cbv beta
  | |- grows (let _ := _ in _) => cbv zeta
  | |- grows (match ?x with _ => _ end) => destruct x
  | _ => solve [eauto with grows]
  end.

Ltac grows_auto := repeat grows_step.

Lemma grows_fix_scan_expr node rtoffset : grows (fix_scan_expr node rtoffset).
Proof. unfold fix_scan_expr. grows_auto. Qed.

Lemma grows_fix_scan_list lst rtoffset : grows (fix_scan_list lst rtoffset).
Proof. unfold fix_scan_list. grows_auto. Qed.

Lemma grows_fix_scan_tlist tl rtoffset : grows (fix_scan_tlist tl rtoffset).
Proof. unfold fix_scan_tlist, mutate_tlist. grows_auto. Qed.

Lemma grows_fix_join_expr l outer inner acc rtoffset :
  grows (fix_join_expr l outer inner acc rtoffset).
Proof. unfold fix_join_expr. grows_auto. Qed.

Lemma grows_fix_join_tlist l outer inner acc rtoffset :
  grows (fix_join_tlist l outer inner acc rtoffset).
Proof. unfold fix_join_tlist, mutate_tlist. grows_auto. Qed.

Lemma grows_fix_child_hashclauses e outer inner acc rtoffset child :
  grows (fix_child_hashclauses e outer inner acc rtoffset child).
Proof. unfold fix_child_hashclauses. cbv zeta. grows_auto. Qed.

#[local] Hint Resolve grows_fix_child_hashclauses : grows.

Lemma grows_fix_hashclauses l outer inner acc rtoffset :
  grows (fix_hashclauses l outer inner acc rtoffset).
Proof. unfold fix_hashclauses, fix_hashclause. grows_auto. Qed.

Lemma grows_fix_upper_expr node itlist rtoffset :
  grows (fix_upper_expr node itlist rtoffset).
Proof. unfold fix_upper_expr. grows_auto. Qed.

Lemma grows_fix_upper_list l itlist rtoffset :
  grows (fix_upper_list l itlist rtoffset).
Proof. unfold fix_upper_list. grows_auto. Qed.

Lemma grows_fix_upper_tlist l itlist rtoffset :
  grows (fix_upper_tlist l itlist rtoffset).
Proof. unfold fix_upper_tlist, mutate_tlist. grows_auto. Qed.

#[local] Hint Resolve grows_fix_scan_expr grows_fix_scan_list
  grows_fix_scan_tlist grows_fix_join_expr grows_fix_join_tlist
  grows_fix_hashclauses grows_fix_upper_expr grows_fix_upper_list
  grows_fix_upper_tlist : grows.

Lemma grows_set_upper_references_tle itlist rtoffset tle :
  grows (set_upper_references_tle itlist rtoffset tle).
Proof. unfold set_upper_references_tle. grows_auto. Qed.

#[local] Hint Resolve grows_set_upper_references_tle : grows.

Lemma grows_set_upper_references plan rtoffset :
  grows (set_upper_references plan rtoffset).
Proof. unfold set_upper_references. grows_auto. Qed.

Lemma grows_set_join_references join rtoffset :
  grows (set_join_references join rtoffset).
Proof. unfold set_join_references. grows_auto. Qed.

Lemma grows_fix_flow plan rtoffset : grows (fix_flow plan rtoffset).
Proof. unfold fix_flow. grows_auto. Qed.

Lemma grows_fix_scan_plan plan rtoffset : grows (fix_scan_plan plan rtoffset).
Proof. unfold fix_scan_plan. grows_auto. Qed.

Lemma grows_flatten_rte rtoffset rte : grows (flatten_rte rtoffset rte).
Proof. unfold flatten_rte. grows_auto. Qed.

Lemma grows_flatten_rowmark rtoffset rc : grows (flatten_rowmark rtoffset rc).
Proof. unfold flatten_rowmark. grows_auto. Qed.

#[local] Hint Resolve grows_set_upper_references grows_set_join_references
  grows_fix_flow grows_fix_scan_plan grows_flatten_rte
  grows_flatten_rowmark : grows.

Lemma grows_set_plan_references_with {R : Type}
      (rec : option Plan -> Z -> M R) plan rtable rowmarks :
  (forall plan rtoffset, grows (rec plan rtoffset)) ->
  grows (set_plan_references_with rec plan rtable rowmarks).
Proof. intros grows_rec. unfold set_plan_references_with. grows_auto. Qed.

Section Recursion.
Variable rec : option Plan -> Z -> M (option Plan).
Hypothesis grows_rec : forall plan rtoffset, grows (rec plan rtoffset).

#[local] Hint Resolve grows_rec : grows.

Lemma grows_set_plan_refs_list l rtoffset :
  grows (set_plan_refs_list rec l rtoffset).
Proof. unfold set_plan_refs_list. grows_auto. Qed.

Lemma grows_trivial_subqueryscan plan : grows (trivial_subqueryscan plan).
Proof. unfold trivial_subqueryscan. grows_auto. Qed.

#[local] Hint Resolve grows_set_plan_refs_list
  grows_trivial_subqueryscan : grows.

Lemma grows_set_subqueryscan_references_returned plan rtoffset :
  grows (set_subqueryscan_references_returned rec plan rtoffset).
Proof.
  pose proof (fun p rt rm => @grows_set_plan_references_with _ rec p rt rm
                               grows_rec).
  unfold set_subqueryscan_references_returned. grows_auto.
Qed.

#[local] Hint Resolve grows_set_subqueryscan_references_returned : grows.

Lemma grows_set_subqueryscan_references plan rtoffset :
  grows (set_subqueryscan_references rec plan rtoffset).
Proof. unfold set_subqueryscan_references. grows_auto. Qed.

End Recursion.

Section RecursionReturned.
Variable rec : option Plan -> Z -> M (option Returned).
Hypothesis grows_rec : forall plan rtoffset, grows (rec plan rtoffset).

#[local] Hint Resolve grows_rec : grows.

Lemma grows_set_plan_refs_rec plan rtoffset :
  grows (set_plan_refs_rec rec plan rtoffset).
Proof. unfold set_plan_refs_rec. grows_auto. Qed.

#[local] Hint Resolve grows_set_plan_refs_rec grows_set_plan_refs_list
  grows_trivial_subqueryscan
  grows_set_subqueryscan_references_returned : grows.

Lemma grows_cdb_insert_result_node plan rtoffset :
  grows (cdb_insert_result_node rec plan rtoffset).
Proof. unfold cdb_insert_result_node. grows_auto. Qed.

#[local] Hint Resolve grows_cdb_insert_result_node : grows.

Lemma grows_set_plan_refs_dispatch plan rtoffset :
  grows (set_plan_refs_dispatch rec plan rtoffset).
Proof.
  pose proof (fun p rt rm => @grows_set_plan_references_with _ rec p rt rm
                               grows_rec).
  unfold set_plan_refs_dispatch. cbv zeta. grows_auto.
Qed.

#[local] Hint Resolve grows_set_plan_refs_dispatch : grows.

Lemma grows_set_plan_refs_node plan rtoffset :
  grows (set_plan_refs_node rec plan rtoffset).
Proof. unfold set_plan_refs_node. grows_auto. Qed.

End RecursionReturned.

Lemma grows_set_plan_refs_returned fuel :
  forall plan rtoffset, grows (set_plan_refs_returned fuel plan rtoffset).
Proof.
  induction fuel as [|fuel IH]; intros [plan|] rtoffset; simpl;
    try apply grows_ret; try apply grows_raise.
  apply grows_bind; [| intros; apply grows_ret].
  apply grows_set_plan_refs_node. exact IH.
Qed.

Lemma grows_set_plan_refs fuel :
  forall plan rtoffset, grows (set_plan_refs fuel plan rtoffset).
Proof.
  intros plan rtoffset. unfold set_plan_refs.
  apply grows_set_plan_refs_rec. apply grows_set_plan_refs_returned.
Qed.

(** One turn of the flattening loop keeps what was there and, for an entry
    that describes a base relation, leaves the relation's identifier in the
    set. *)
Lemma flatten_rte_records rtoffset rte g a g' :
  flatten_rte rtoffset rte g = Ok (a, g') ->
  rtekind rte = RTE_RELATION -> In (relid rte) (relationOids g').
Proof.
  unfold flatten_rte. intros H Hkind.
  inv_bind H as x1 g1 H1. inv_bind H as x2 g2 H2. inv_bind H as x3 g3 H3.
  inv_bind H as x4 g4 H4. simpl in H. rewrite Hkind in H. simpl in H.
  inversion H. simpl. apply in_or_app. right. left. reflexivity.
Qed.

Lemma flatten_loop_records rtoffset rtable :
  forall g a g',
    mapM (flatten_rte rtoffset) rtable g = Ok (a, g') ->
    forall rte, In rte rtable -> rtekind rte = RTE_RELATION ->
                In (relid rte) (relationOids g').
Proof.
  induction rtable as [|x rtable IH]; intros g a g' H rte Hin Hkind;
    [contradiction |].
  simpl in H. inv_bind H as u g1 Hx. inv_bind H as us g2 Hl. inv_ret H.
  destruct Hin as [-> | Hin].
  - assert (K : grows (mapM (flatten_rte rtoffset) rtable)).
    { apply grows_mapM. intros. apply grows_flatten_rte. }
    eapply K; [eassumption |].
    eapply flatten_rte_records; eassumption.
  - eapply IH; eassumption.
Qed.

(** C2.  Whenever the entry point returns, every identifier that was in
    the relation-dependency set before the call is still in it, and so is
    the object identifier of every entry of the flattened range table that
    describes a base relation: whatever the plan is, and whether or not
    any of its operators refers to that entry. *)
Theorem base_relations_recorded :
  forall (fuel : nat) (plan : option Plan) (rtable : list RangeTblEntry)
         (rowmarks : list PlanRowMark) (glob : PlannerGlobal)
         (r : option Plan) (glob' : PlannerGlobal),
    set_plan_references fuel plan rtable rowmarks glob = Ok (r, glob') ->
    keeps_relationOids glob glob' /\
    forall rte, In rte rtable -> rtekind rte = RTE_RELATION ->
                In (relid rte) (relationOids glob').
Proof.
  intros fuel plan rtable rowmarks glob r glob' H. split.
  - eapply grows_set_plan_references_with; [| exact H].
    apply grows_set_plan_refs.
  - intros rte Hin Hkind.
    unfold set_plan_references, set_plan_references_with in H.
    inv_bind H as g0 g0' Hg. inversion Hg; subst g0 g0'.
    inv_bind H as u1 g1 Hrt. inv_bind H as u2 g2 Hrm.
    assert (K2 : grows (mapM (flatten_rowmark
                                (list_length (finalrtable glob))) rowmarks)).
    { apply grows_mapM. intros. apply grows_flatten_rowmark. }
    eapply grows_set_plan_refs; [exact H |].
    eapply K2; [exact Hrm |].
    eapply flatten_loop_records; eassumption.
Qed.

End RelationDependencies.

Lemma base_relations_recorded_witness :
  exists r glob',
    set_plan_references (cat := Example.catalog) 2 (Some Example.emptied_plan)
                        [Example.rel 500] [] Example.glob0 = Ok (r, glob') /\
    In 500 (relationOids glob').
Proof.
  destruct (set_plan_references (cat := Example.catalog) 2
              (Some Example.emptied_plan) [Example.rel 500] []
              Example.glob0) as [[r glob']|e] eqn:E;
    [| vm_compute in E; discriminate E].
  exists r, glob'. split; [reflexivity |].
  apply (base_relations_recorded (cat := Example.catalog) 2
           (Some Example.emptied_plan) [Example.rel 500] [] Example.glob0 E)
    with (rte := Example.rel 500).
  - left. reflexivity.
  - reflexivity.
Defined.

(** ** Sentinel slots after resolution *)

(** C1, at a failing input.  The subquery's plan is a projection over a
    scan; it is flattened at offset 1, behind the outer query's one
    range-table entry.  The projection's variable is first resolved to the
    left-child sentinel, and the scan-level fixer that the dispatcher runs
    on the same output list right after adds the offset to it: the returned
    plan holds a variable on slot 65002, which is neither sentinel and is
    not a slot of the two-entry final range table. *)
Theorem projection_over_child_shifts_sentinel :
  exists plan' glob' tle var,
    set_plan_references (cat := Example.catalog) 4
      (Some Example.subquery_over_projection) [Example.subquery_rte] []
      Example.glob0 = Ok (Some plan', glob') /\
    list_length (finalrtable glob') = 2 /\
    targetlist plan' = [tle] /\ expr tle = T_Var var /\
    varno var = 65002 /\
    varno var <> INNER (Catalog := Example.catalog) /\
    varno var <> OUTER (Catalog := Example.catalog) /\
    ~ (1 <= varno var <= list_length (finalrtable glob')).
Proof.
  do 4 eexists. split; [vm_compute; reflexivity |].
  split; [reflexivity |]. split; [reflexivity |]. split; [reflexivity |].
  split; [reflexivity |]. split; [discriminate |]. split; [discriminate |].
  vm_compute. intros [_ H]. apply H. reflexivity.
Qed.

(** ** The full-evaluation guard *)

Section Guard.
Context {cat : Catalog}.

(** The node kinds in whose case the dispatcher checks the output list
    before anything else. *)
Lemma full_evaluation_guard rec plan rtoffset :
  In (type plan)
     [T_SeqScan; T_AppendOnlyScan; T_AOCSScan; T_ExternalScan; T_IndexScan;
      T_BitmapHeapScan; T_BitmapAppendOnlyScan; T_BitmapTableScan; T_TidScan;
      T_SubqueryScan; T_TableFunctionScan; T_FunctionScan; T_ValuesScan;
      T_NestLoop; T_MergeJoin; T_HashJoin] ->
  cdb_expr_requires_full_eval (targetlist plan) = true ->
  set_plan_refs_dispatch rec plan rtoffset =
  (r <- cdb_insert_result_node rec plan rtoffset ;; ret (Return r)).
Proof.
  intros Hin Hsrf. unfold set_plan_refs_dispatch. cbv zeta.
  simpl in Hin.
  repeat (destruct Hin as [<- | Hin]; [rewrite Hsrf; reflexivity |]).
  contradiction.
Qed.

End Guard.

(** C9, at failing inputs.  The output list calls a set-returning
    function.  On a sequential scan the dispatcher returns a projection
    node over the scan; on a CTE scan, a work-table scan and a foreign scan
    with the same output list it returns the scan itself, fixed in place,
    with the set-returning call still in its output list and no wrapper. *)
Theorem unguarded_scan_kinds :
  cdb_expr_requires_full_eval (cat := Example.catalog) Example.srf_tlist
  = true /\
  (exists r glob',
      set_plan_refs (cat := Example.catalog) 3
        (Some (Example.scan T_SeqScan 1 Example.srf_tlist)) 0
        Example.sort_glob = Ok (Some r, glob') /\
      type r = T_Result /\
      targetlist r
      = [Example.tle (T_FuncExpr 1067 true
                        [T_Var (mkVar 65001 1 23 (-1) 0 0 1 1)]) 1] /\
      lefttree r
      = Some (Example.scan T_SeqScan 1
                [Example.tle (T_Var (Example.var 1 1)) 1])) /\
  (forall tag,
      In tag [T_CteScan; T_WorkTableScan; T_ForeignScan] ->
      set_plan_refs (cat := Example.catalog) 3
        (Some (Example.scan tag 1 Example.srf_tlist)) 0 Example.sort_glob
      = Ok (Some (Example.scan tag 1 Example.srf_tlist), Example.sort_glob)).
Proof.
  split; [reflexivity |]. split.
  - do 2 eexists. split; [vm_compute; reflexivity |].
    repeat split; reflexivity.
  - intros tag Hin. simpl in Hin.
    repeat (destruct Hin as [<- | Hin]; [vm_compute; reflexivity |]).
    contradiction.
Qed.

(** The fixer returns a projection in place: the node it hands back for a
    projection is that projection. *)
Lemma projection_returned_in_place {cat : Catalog} (fuel : nat) (plan : Plan)
      (rtoffset : Z) glob r glob' :
  type plan = T_Result ->
  set_plan_refs_returned fuel (Some plan) rtoffset glob = Ok (r, glob') ->
  exists p left_at, r = Some (SameNode p left_at).
Proof.
  intros Htype H. destruct fuel as [|fuel]; [discriminate H |].
  cbn [set_plan_refs_returned] in H. inv_bind H as returned g1 Hnode.
  inv_ret H. unfold set_plan_refs_node in Hnode.
  inv_bind Hnode as p0 g0 Hflow. inv_bind Hnode as step g2 Hstep.
  assert (Hty : type p0 = T_Result).
  { unfold fix_flow in Hflow.
    destruct (flow plan) as [fl|]; [destruct (hashExpr fl) |].
    - inv_ret Hflow. exact Htype.
    - inv_bind Hflow as he g3 Hhe. inv_ret Hflow. exact Htype.
    - inv_ret Hflow. exact Htype. }
  unfold set_plan_refs_dispatch in Hstep. cbv zeta in Hstep.
  rewrite Hty in Hstep.
  inv_bind Hstep as p1 g3 Hupper. inv_bind Hstep as p2 g4 Hscan.
  destruct (fields p0); try discriminate Hstep.
  inv_bind Hstep as rq g5 Hrq. inv_ret Hstep.
  inv_bind Hnode as l g6 Hl. inv_bind Hnode as r0 g7 Hr0. inv_ret Hnode.
  eauto.
Qed.

(** Where the flow goes when the guard puts a projection on top.  Over a
    scan, the projection and the scan below it both carry the scan's flow
    in the end.  Over a subquery wrapper that is pulled out below the new
    projection, the projection carries the wrapper's flow, and the subplan
    that took the wrapper's place is left with the unhooked flow it was
    handed, that is with none. *)
Lemma guard_reattaches_flow :
  (exists r child glob',
      set_plan_refs (cat := Example.catalog) 3 (Some Example.guarded_scan) 0
                    Example.sort_glob = Ok (Some r, glob') /\
      type r = T_Result /\ flow r = Example.guarded_flow /\
      lefttree r = Some child /\ type child = T_SeqScan /\
      flow child = Example.guarded_flow) /\
  (exists r child glob',
      set_plan_refs (cat := Example.catalog) 4 (Some Example.guarded_wrapper)
                    0 Example.wrapper_glob = Ok (Some r, glob') /\
      type r = T_Result /\ flow r = Example.guarded_flow /\
      lefttree r = Some child /\ type child = T_SeqScan /\
      flow child = None).
Proof.
  split; do 3 eexists; (split; [vm_compute; reflexivity |]);
    repeat split; reflexivity.
Qed.

(** ** Resolving a second time *)

Section Reresolve.
Context {cat : Catalog}.

#[local] Arguments fix_expr_common : simpl never.

Lemma returns_ret {A} (a : A) : returns (ret a) a.
Proof. intros g. eexists. reflexivity. Qed.

Lemma returns_bind {A B} (m : M A) (k : A -> M B) (a : A) (b : B) :
  returns m a -> returns (k a) b -> returns (bind m k) b.
Proof.
  intros Hm Hk g. destruct (Hm g) as [g1 E1]. destruct (Hk g1) as [g2 E2].
  exists g2. rewrite (bind_Ok_intro E1). exact E2.
Qed.

Lemma returns_mapM_id {A} (f : A -> M A) (l : list A) :
  Forall (fun x => returns (f x) x) l -> returns (mapM f l) l.
Proof.
  induction 1 as [|x l Hx Hl IH]; simpl.
  - apply returns_ret.
  - eapply returns_bind; [exact Hx |].
    eapply returns_bind; [exact IH |]. apply returns_ret.
Qed.

Lemma Index_add_0 (n : Z) : is_Index n = true -> Index_add n 0 = n.
Proof.
  unfold is_Index, Index_add. intros H.
  apply andb_true_iff in H. destruct H as [H1 H2].
  apply Z.leb_le in H1. apply Z.ltb_lt in H2.
  rewrite Z.add_0_r. apply Z.mod_small. lia.
Qed.

Lemma fix_expr_common_returns (n : Node) :
  fix_expr_common_ok n = true -> returns (fix_expr_common n) tt.
Proof. intros H g. apply fix_expr_common_total. exact H. Qed.

Lemma fix_scan_expr_mutator_resolved (e : Node) :
  node_all (fun n =>
              match n with
              | T_Var var =>
                  (FirstLowInvalidHeapAttributeNumber <? varattno var) &&
                  is_Index (varno var) && is_Index (varnoold var)
              | T_PlaceHolderVar _ _ => false
              | T_OpExpr _ opno opfuncid _ _
              | T_ScalarArrayOpExpr opno opfuncid _ _ =>
                  set_opfuncid opno opfuncid =? opfuncid
              | _ => true
              end) e = true ->
  node_all fix_expr_common_ok e = true ->
  returns (fix_scan_expr_mutator (mk_fix_scan_expr_context 0) e) e.
Proof.
  induction e as [v|c|e i IHe|f l IH|f l IH|f r0 l IH|t o f r0 l IH
                  |o f u l IH|e f IHe|e t IHe| | |t l IH] using Node_ind';
    intros HP HQ; cbn [node_all] in HP, HQ;
    apply andb_true_iff in HP; destruct HP as [HPtop HPkids];
    apply andb_true_iff in HQ; destruct HQ as [HQtop HQkids];
    try discriminate HPtop.
  1: { (* a variable *)
    apply andb_true_iff in HPtop. destruct HPtop as [HPtop Hold].
    apply andb_true_iff in HPtop. destruct HPtop as [Hatt Hno].
    apply Z.ltb_lt in Hatt.
    simpl. unfold copyVar, shift_varnoold, scan_rtoffset.
    rewrite (Index_add_0 _ Hno).
    assert (E : (if 0 <? varnoold (set_varno v (varno v))
                 then set_varnoold (set_varno v (varno v))
                        (Index_add (varnoold (set_varno v (varno v))) 0)
                 else set_varno v (varno v)) = v).
    { simpl. rewrite (Index_add_0 _ Hold).
      destruct v; simpl. destruct (0 <? _); reflexivity. }
    rewrite E.
    destruct (Z.leb_spec (varattno v) FirstLowInvalidHeapAttributeNumber);
      [lia |]. apply returns_ret. }
  all: simpl;
    (eapply returns_bind; [apply fix_expr_common_returns; exact HQtop |]);
    unfold expression_tree_mutator.
  all: try (eapply returns_bind; [apply returns_ret |]; apply returns_ret).
  all: try (eapply returns_bind;
            [eapply returns_bind; [apply IHe; assumption | apply returns_ret]
            |]; apply returns_ret).
  all: (eapply returns_bind;
        [ eapply returns_bind;
          [ apply returns_mapM_id;
            apply forallb_Forall in HPkids; apply forallb_Forall in HQkids;
            rewrite Forall_forall in *; intros x Hx; auto
          | apply returns_ret ]
        | ]).
  all: try apply returns_ret.
  all: simpl; apply Z.eqb_eq in HPtop; rewrite HPtop; apply returns_ret.
Qed.

Lemma fix_scan_expr_mutator_scan_resolved (e : Node) :
  scan_resolved e = true ->
  returns (fix_scan_expr_mutator (mk_fix_scan_expr_context 0) e) e.
Proof.
  unfold scan_resolved, deps_resolvable. intros H.
  apply andb_true_iff in H. destruct H.
  apply fix_scan_expr_mutator_resolved; assumption.
Qed.

Lemma fix_scan_list_resolved (l : list Node) :
  list_resolved l = true -> returns (fix_scan_list l 0) l.
Proof.
  intros H. unfold fix_scan_list. apply returns_mapM_id.
  apply forallb_Forall in H. eapply Forall_impl; [| exact H].
  apply fix_scan_expr_mutator_scan_resolved.
Qed.

Lemma fix_scan_tlist_resolved (tl : list TargetEntry) :
  tlist_resolved tl = true -> returns (fix_scan_tlist tl 0) tl.
Proof.
  intros H. unfold fix_scan_tlist, mutate_tlist. apply returns_mapM_id.
  apply forallb_Forall in H. eapply Forall_impl; [| exact H].
  intros tle Htle. simpl in Htle.
  eapply returns_bind;
    [apply fix_scan_expr_mutator_scan_resolved; exact Htle |].
  destruct tle; apply returns_ret.
Qed.

Lemma fix_scan_expr_resolved (o : option Node) :
  match o with Some e => scan_resolved e | None => true end = true ->
  returns (fix_scan_expr o 0) o.
Proof.
  unfold fix_scan_expr. destruct o as [e|]; simpl; intros H.
  - eapply returns_bind;
      [apply fix_scan_expr_mutator_scan_resolved; exact H |].
    apply returns_ret.
  - apply returns_ret.
Qed.

Lemma fix_scan_plan_resolved (plan : Plan) :
  tlist_resolved (targetlist plan) = true ->
  list_resolved (qual plan) = true ->
  returns (fix_scan_plan plan 0) plan.
Proof.
  intros Htl Hq. unfold fix_scan_plan.
  eapply returns_bind; [apply fix_scan_tlist_resolved; exact Htl |].
  eapply returns_bind; [apply fix_scan_list_resolved; exact Hq |].
  destruct plan; apply returns_ret.
Qed.


Ltac split_andb H :=
  repeat match type of H with
         | (_ && _)%bool = true =>
             let H' := fresh H in
             apply andb_true_iff in H; destruct H as [H H']
         end.

Lemma fix_flow_resolved_scan_node (plan : Plan) :
  resolved_scan_node plan = true -> returns (fix_flow plan 0) plan.
Proof.
  unfold resolved_scan_node, fix_flow. intros H.
  apply andb_true_iff in H. destruct H as [H _].
  destruct (flow plan) as [fl|]; [| apply returns_ret].
  destruct (hashExpr fl); [apply returns_ret | discriminate].
Qed.

Lemma dispatch_resolved_scan rec (plan : Plan) :
  resolved_scan_node plan = true ->
  (forall plans,
      fields plan = PlanListFields plans ->
      Forall (fun p => returns (set_plan_refs_rec rec (Some p) 0) (Some p))
             plans) ->
  returns (set_plan_refs_dispatch rec plan 0) (Break plan).
Proof.
  destruct plan as [ty tl q l r ip fl x]. unfold resolved_scan_node.
  cbn [lefttree righttree flow targetlist qual type fields].
  intros H Hlist. apply andb_true_iff in H. destruct H as [_ H].
  unfold set_plan_refs_dispatch. cbv zeta.
  cbn [lefttree righttree flow targetlist qual type fields].
  destruct ty; try discriminate H;
    destruct x; try discriminate H;
    cbn [guarded_kind andb scan_fields_resolved] in H;
    rewrite ?andb_false_r in H; try discriminate H;
    try (destruct l; [discriminate H |]); try discriminate H;
    repeat match goal with
           | Hf : (_ && _)%bool = true |- _ =>
               apply andb_true_iff in Hf; destruct Hf
           end;
    try match goal with
        | Hg : negb _ = true |- _ =>
            apply negb_true_iff in Hg; rewrite ?Hg
        end;
    rewrite ?Index_add_0 by assumption.
  all: try (unfold set_plan_refs_list;
            eapply returns_bind;
            [ apply returns_mapM_id;
              eapply Forall_impl; [| exact (Hlist _ eq_refl)];
              intros p Hp; cbv beta;
              eapply returns_bind; [exact Hp |]; apply returns_ret
            | apply returns_ret ]).
  all: repeat (eapply returns_bind;
               [ first [ apply returns_ret
                       | apply fix_scan_plan_resolved; simpl; assumption
                       | apply fix_scan_list_resolved; assumption
                       | apply fix_scan_expr_resolved; assumption
                       | apply returns_mapM_id;
                         match goal with
                         | Hv : forallb list_resolved _ = true |- _ =>
                             apply forallb_Forall in Hv;
                             eapply Forall_impl; [| exact Hv];
                             intros; apply fix_scan_list_resolved; assumption
                         end ]
               | cbv beta ]).
  all: apply returns_ret.
Qed.

Lemma plan_levels_list (plans : list Plan) (n : nat) :
  (fold_right (fun p k => Nat.max (plan_levels p) k) O plans <= n)%nat ->
  Forall (fun p => (plan_levels p <= n)%nat) plans.
Proof.
  induction plans as [|p plans IH]; simpl; intros H; constructor.
  - lia.
  - apply IH. lia.
Qed.

(** C10, as amended.  On an already-resolved plan tree of the scan level
    the fixer with offset 0, given fuel for the levels of the tree, raises
    no error and returns the very same tree.  The tree is made, to any
    depth, of scans of any kind but subquery and table-function scans,
    bitmap combinations with the plans of their lists, projections without
    a left child and placeholder plans; no node has a hash expression in
    its flow; the expressions hold no placeholder and no pseudo-column
    variable, have their operator handles filled in and their dependencies
    still known to the catalog; and no output list of a guarded kind calls
    a set-returning function. *)
Theorem reresolve_scan_tree :
  forall (fuel : nat) (plan : Plan) (glob : PlannerGlobal),
    resolved_scan_tree plan = true ->
    (plan_levels plan <= fuel)%nat ->
    exists glob',
      set_plan_refs fuel (Some plan) 0 glob = Ok (Some plan, glob').
Proof.
  intros fuel plan glob H Hfuel.
  assert (R : returns (set_plan_refs_returned fuel (Some plan) 0)
                      (Some (returned_in_place plan))).
  2: { destruct (R glob) as [glob' E]. exists glob'.
       unfold set_plan_refs, set_plan_refs_rec.
       rewrite (bind_Ok_intro E). reflexivity. }
  clear glob. revert plan H Hfuel.
  induction fuel as [|fuel IH]; intros plan H Hfuel.
  { destruct plan; simpl in Hfuel. lia. }
  assert (IHo : forall o : option Plan,
             match o with Some p => resolved_scan_tree p | None => true end
             = true ->
             (match o with Some p => plan_levels p | None => O end <= fuel)%nat ->
             returns (set_plan_refs_returned fuel o 0)
                     (option_map returned_in_place o)).
  { intros [p|] Hp Hn; [apply IH; assumption |].
    destruct fuel; apply returns_ret. }
  assert (IHp : forall o : option Plan,
             match o with Some p => resolved_scan_tree p | None => true end
             = true ->
             (match o with Some p => plan_levels p | None => O end <= fuel)%nat ->
             returns (set_plan_refs_rec (set_plan_refs_returned fuel) o 0) o).
  { intros o Hp Hn. unfold set_plan_refs_rec.
    eapply returns_bind; [apply IHo; assumption |].
    destruct o; apply returns_ret. }
  destruct plan as [ty tl q l r ip fl x].
  cbn [resolved_scan_tree] in H. cbn [plan_levels] in Hfuel.
  apply andb_true_iff in H. destruct H as [H Hlist].
  apply andb_true_iff in H. destruct H as [H Hr].
  apply andb_true_iff in H. destruct H as [Hnode Hl].
  cbn [set_plan_refs_returned]. eapply returns_bind; [| apply returns_ret].
  unfold set_plan_refs_node.
  eapply returns_bind; [apply fix_flow_resolved_scan_node; exact Hnode |].
  eapply returns_bind.
  { apply dispatch_resolved_scan; [exact Hnode |].
    cbn [fields]. intros plans ->.
    apply forallb_Forall in Hlist.
    assert (Hn : Forall (fun p => (plan_levels p <= fuel)%nat) plans)
      by (apply plan_levels_list; lia).
    rewrite Forall_forall in *. intros p Hp.
    apply (IHp (Some p)); [apply Hlist | apply Hn]; exact Hp. }
  cbv beta iota. cbn [lefttree].
  eapply returns_bind; [apply IHo; [exact Hl | lia] |].
  cbn [righttree set_lefttree].
  eapply returns_bind; [apply IHp; [exact Hr | lia] |].
  destruct l; apply returns_ret.
Qed.

End Reresolve.

Lemma reresolve_scan_tree_witness :
  set_plan_references (cat := Example.catalog) 3
    (Some (Example.bitmap_tree 0)) [Example.rel 500] [] Example.glob0
  = Ok (Some (Example.bitmap_tree 97), Example.sort_glob) /\
  resolved_scan_tree (cat := Example.catalog) (Example.bitmap_tree 97)
  = true /\
  (plan_levels (Example.bitmap_tree 97%Z) <= 3)%nat /\
  (exists glob',
      set_plan_refs (cat := Example.catalog) 3
        (Some (Example.bitmap_tree 97)) 0 Example.sort_glob
      = Ok (Some (Example.bitmap_tree 97), glob')) /\
  (exists glob',
      set_plan_refs (cat := Example.catalog) 1
        (Some Example.constant_projection) 0 Example.sort_glob
      = Ok (Some Example.constant_projection, glob')).
Proof.
  split; [reflexivity |]. split; [reflexivity |].
  split; [simpl; lia |]. split.
  - apply (@reresolve_scan_tree Example.catalog 3%nat
              (Example.bitmap_tree 97) Example.sort_glob).
    + reflexivity.
    + simpl. lia.
  - apply (@reresolve_scan_tree Example.catalog 1%nat
              Example.constant_projection Example.sort_glob).
    + reflexivity.
    + simpl. lia.
Defined.

(** C10, as the claim states it, fails.  The aggregate over a scan is
    resolved from scratch; handed to the fixer a second time with offset 0,
    the resolved plan is not returned unchanged: whatever the fuel, the
    fixer does not return at all, and with any fuel to run on it aborts
    with the fatal error of an unmatched variable, because the aggregate's
    sentinel variable is not listed in the scan's output. *)
Lemma reresolve_counterexample :
  set_plan_references (cat := Example.catalog) 3 (Some Example.agg_plan)
    [Example.rel 500] [] Example.glob0
  = Ok (Some Example.agg_resolved, Example.sort_glob) /\
  (forall fuel,
      set_plan_refs (cat := Example.catalog) (S fuel)
        (Some Example.agg_resolved) 0 Example.sort_glob
      = Err (elog_ERROR "variable not found in subplan target list")) /\
  (forall fuel r glob',
      set_plan_refs (cat := Example.catalog) fuel
        (Some Example.agg_resolved) 0 Example.sort_glob <> Ok (r, glob')).
Proof.
  split; [reflexivity |].
  assert (E : forall fuel,
             set_plan_refs (cat := Example.catalog) (S fuel)
               (Some Example.agg_resolved) 0 Example.sort_glob
             = Err (elog_ERROR "variable not found in subplan target list")).
  { intros fuel. reflexivity. }
  split; [exact E |].
  intros [|fuel] r glob'; [discriminate |]. rewrite E. discriminate.
Qed.

(** The node kinds that the amended C10 leaves out are the kinds on which
    a second resolution is not a no-op.  For each of them a plan over
    plain scans is resolved from scratch, and the resolved plan, handed to
    the fixer again with offset 0, does not come back as it is: a
    subquery scan that is kept and a table-function scan flatten the
    range table of their subplan once more and shift the subplan; a join,
    an upper node and a redistribution look their sentinel variables up in
    the output of their children and abort; a pass-through node
    overwrites the original relation of its variables with the sentinel; a
    data-modifying node is handed another position in the list of result
    relations; and a scan with a hash expression in its flow looks the
    sentinel variable up in its own output and aborts. *)
Lemma reresolve_other_kinds :
  map type OtherKinds.samples
  = [T_SubqueryScan; T_TableFunctionScan; T_NestLoop; T_MergeJoin;
     T_HashJoin; T_Sort; T_Hash; T_Material; T_Unique; T_SetOp;
     T_ShareInputScan; T_PartitionSelector; T_LockRows; T_Limit; T_Agg;
     T_WindowAgg; T_Result; T_Repeat; T_ModifyTable; T_Append;
     T_MergeAppend; T_RecursiveUnion; T_Motion; T_SeqScan] /\
  Forall OtherKinds.not_reresolved OtherKinds.samples.
Proof.
  split; [reflexivity |].
  unfold OtherKinds.samples.
  repeat (apply Forall_cons || apply Forall_nil).
  all: eexists; eexists; split; [vm_compute; reflexivity |];
    split; [reflexivity |];
    intros [|[|[|fuel]]] glob2; vm_compute; intros E; discriminate E.
Qed.

(** A node of a kind that the dispatcher does not list is never resolved:
    the fixer does not return on it. *)
Lemma unlisted_kind_never_resolved {cat : Catalog} (tag : Z) (plan : Plan)
      (fuel : nat) (rtoffset : Z) (glob : PlannerGlobal) r :
  type plan = T_OtherPlan tag ->
  set_plan_refs fuel (Some plan) rtoffset glob <> Ok r.
Proof.
  intros Htype H. destruct r as [p g1].
  apply set_plan_refs_node_for_node in H.
  destruct H as (fuel' & returned & _ & Hnode & _).
  unfold set_plan_refs_node in Hnode.
  inv_bind Hnode as p0 g0 Hflow. inv_bind Hnode as step g2 Hstep.
  assert (Hty : type p0 = T_OtherPlan tag).
  { unfold fix_flow in Hflow.
    destruct (flow plan) as [fl|]; [destruct (hashExpr fl) |].
    - inv_ret Hflow. exact Htype.
    - inv_bind Hflow as he g3 Hhe. inv_ret Hflow. exact Htype.
    - inv_ret Hflow. exact Htype. }
  unfold set_plan_refs_dispatch in Hstep. cbv zeta in Hstep.
  rewrite Hty in Hstep. discriminate Hstep.
Qed.

(** ** Appending only *)

Section AppendOnly.
Context {cat : Catalog}.

#[local] Arguments fix_expr_common : simpl never.
#[local] Arguments expression_tree_mutator : simpl never.
#[local] Arguments expression_tree_walker : simpl never.

Lemma list_prefix_refl {A} (l : list A) : list_prefix l l.
Proof. exists []. symmetry. apply app_nil_r. Qed.

Lemma list_prefix_trans {A} (l1 l2 l3 : list A) :
  list_prefix l1 l2 -> list_prefix l2 l3 -> list_prefix l1 l3.
Proof.
  intros [r1 ->] [r2 ->]. exists (r1 ++ r2). symmetry. apply app_assoc.
Qed.

Lemma list_prefix_app {A} (l r : list A) : list_prefix l (l ++ r).
Proof. exists r. reflexivity. Qed.

Lemma extends_refl g : extends g g.
Proof. repeat split; apply list_prefix_refl. Qed.

Lemma extends_trans g1 g2 g3 : extends g1 g2 -> extends g2 g3 -> extends g1 g3.
Proof.
  intros (A1 & B1 & C1 & D1 & E1) (A2 & B2 & C2 & D2 & E2).
  repeat split; eapply list_prefix_trans; eassumption.
Qed.

Lemma appends_ret {A} (a : A) : appends (ret a).
Proof. intros g b g' H. inv_ret H. apply extends_refl. Qed.

Lemma appends_raise {A} (e : Error) : appends (@raise A e).
Proof. intros g b g' H. discriminate H. Qed.

Lemma appends_bind {A B} (m : M A) (k : A -> M B) :
  appends m -> (forall a, appends (k a)) -> appends (bind m k).
Proof.
  intros Hm Hk g b g' H. inv_bind H as a g1 H1.
  eapply extends_trans; [eapply Hm | eapply Hk]; eassumption.
Qed.

Lemma appends_mapM_Forall {A B} (f : A -> M B) (l : list A) :
  Forall (fun x => appends (f x)) l -> appends (mapM f l).
Proof.
  induction 1 as [|x l Hx Hl IH]; simpl.
  - apply appends_ret.
  - apply appends_bind; [exact Hx | intros y].
    apply appends_bind; [exact IH | intros ys]. apply appends_ret.
Qed.

Lemma appends_mapM {A B} (f : A -> M B) (l : list A) :
  (forall x, appends (f x)) -> appends (mapM f l).
Proof.
  intros H. apply appends_mapM_Forall. apply Forall_forall. auto.
Qed.

Lemma appends_optM {A B} (f : A -> M B) (o : option A) :
  (forall x, appends (f x)) -> appends (optM f o).
Proof.
  intros H. destruct o; simpl; [| apply appends_ret].
  apply appends_bind; [apply H | intros; apply appends_ret].
Qed.

Lemma appends_deref {A} (o : option A) what : appends (deref o what).
Proof. destruct o; [apply appends_ret | apply appends_raise]. Qed.

Lemma appends_get_glob : appends get_glob.
Proof. intros g a g' H. inversion H. apply extends_refl. Qed.

Ltac appended :=
  let g := fresh "g" in let a := fresh "a" in let g' := fresh "g'" in
  let H := fresh "H" in
  intros g a g' H; inversion H; subst;
  repeat split; simpl;
  first [apply list_prefix_refl | apply list_prefix_app].

Lemma appends_record_plan_function_dependency funcid :
  appends (record_plan_function_dependency funcid).
Proof.
  intros g a g' H. unfold record_plan_function_dependency in H.
  destruct (_ <=? _); [| inversion H; apply extends_refl].
  destruct (SearchSysCache1_PROCOID funcid); [| discriminate H].
  revert H. revert g a g'. appended.
Qed.

Lemma appends_lappend_relationOid o : appends (lappend_relationOid o).
Proof. appended. Qed.

Lemma appends_lappend_finalrtable rte : appends (lappend_finalrtable rte).
Proof. appended. Qed.

Lemma appends_lappend_finalrowmarks rc : appends (lappend_finalrowmarks rc).
Proof. appended. Qed.

Lemma appends_list_concat_resultRelations l :
  appends (list_concat_resultRelations l).
Proof. appended. Qed.

Lemma appends_list_length_resultRelations :
  appends list_length_resultRelations.
Proof. intros g a g' H. inversion H. apply extends_refl. Qed.

Lemma appends_fix_expr_common n : appends (fix_expr_common n).
Proof.
  destruct n; unfold fix_expr_common;
    try apply appends_record_plan_function_dependency;
    try apply appends_ret.
  - destruct (ISREGCLASSCONST con);
      [apply appends_lappend_relationOid | apply appends_ret].
  - destruct (OidIsValid elemfuncid);
      [apply appends_record_plan_function_dependency | apply appends_ret].
Qed.

Lemma appends_expression_tree_mutator (mutator : Node -> M Node) (n : Node) :
  match n with
  | T_PlaceHolderVar e _ | T_ArrayCoerceExpr e _ | T_RelabelType e _ =>
      appends (mutator e)
  | T_Aggref _ l | T_WindowFunc _ l | T_FuncExpr _ _ l | T_OpExpr _ _ _ _ l
  | T_ScalarArrayOpExpr _ _ _ l | T_Expr _ l =>
      Forall (fun x => appends (mutator x)) l
  | _ => True
  end ->
  appends (expression_tree_mutator mutator n).
Proof.
  destruct n; unfold expression_tree_mutator; intros H;
    try apply appends_ret;
    (apply appends_bind;
     [ first [exact H | apply appends_mapM_Forall; exact H]
     | intros; apply appends_ret ]).
Qed.

Ltac appends_rebuilt :=
  apply appends_bind; [apply appends_fix_expr_common | intros _];
  apply appends_bind; [| intros; apply appends_ret];
  apply appends_expression_tree_mutator; simpl; auto.

Lemma appends_found_or_else (found : option Var) (otherwise : M Node) :
  appends otherwise ->
  appends (match found with
           | Some newvar => ret (T_Var newvar)
           | None => otherwise
           end).
Proof. destruct found; [intros; apply appends_ret | auto]. Qed.

Lemma appends_fix_scan_expr_walker context e :
  appends (fix_scan_expr_walker context e).
Proof.
  induction e using Node_ind'; simpl; unfold expression_tree_walker;
    appends_rebuilt.
Qed.

Lemma appends_fix_scan_expr_mutator context e :
  appends (fix_scan_expr_mutator context e).
Proof.
  induction e using Node_ind'; simpl; try appends_rebuilt; try assumption.
  destruct (_ <=? _); [| apply appends_ret].
  apply appends_bind; [apply appends_get_glob | intros glob].
  destruct (rt_fetch _ _); [| apply appends_raise].
  destruct (cdb_rte_find_pseudo_column _ _); [| apply appends_raise].
  apply appends_fix_scan_expr_walker.
Qed.

Lemma appends_fix_join_expr_mutator context e :
  appends (fix_join_expr_mutator context e).
Proof.
  induction e using Node_ind'; simpl;
    try (apply appends_found_or_else; apply appends_found_or_else;
         first [assumption | appends_rebuilt]).
  apply appends_found_or_else.
  destruct (_ =? _); [apply appends_ret | apply appends_raise].
Qed.

Lemma appends_fix_upper_expr_mutator context e :
  appends (fix_upper_expr_mutator context e).
Proof.
  induction e using Node_ind'; simpl;
    try (apply appends_found_or_else; first [assumption | appends_rebuilt]).
  destruct (search_indexed_tlist_for_var _ _ _ _);
    [apply appends_ret | apply appends_raise].
Qed.

Create HintDb appends.

#[local] Hint Resolve appends_get_glob appends_record_plan_function_dependency
  appends_lappend_relationOid appends_lappend_finalrtable
  appends_lappend_finalrowmarks appends_list_concat_resultRelations
  appends_list_length_resultRelations appends_fix_expr_common
  appends_fix_scan_expr_walker appends_fix_scan_expr_mutator
  appends_fix_join_expr_mutator appends_fix_upper_expr_mutator : appends.

Ltac appends_step :=
  match goal with
  | |- appends (bind _ _) => apply appends_bind; [| intros ?]
  | |- appends (ret _) => apply appends_ret
  | |- appends (raise _) => apply appends_raise
  | |- appends (mapM _ _) => apply appends_mapM; intros ?
  | |- appends (optM _ _) => apply appends_optM; intros ?
  | |- appends (deref _ _) => apply appends_deref
  | |- appends ((fun _ => _) _) => cbv beta
  | |- appends (let _ := _ in _) => cbv zeta
  | |- appends (match ?x with _ => _ end) => destruct x
  | _ => solve [eauto with appends]
  end.

Ltac appends_auto := repeat appends_step.

Lemma appends_fix_scan_expr node rtoffset :
  appends (fix_scan_expr node rtoffset).
Proof. unfold fix_scan_expr. appends_auto. Qed.

Lemma appends_fix_scan_list lst rtoffset :
  appends (fix_scan_list lst rtoffset).
Proof. unfold fix_scan_list. appends_auto. Qed.

Lemma appends_fix_scan_tlist tl rtoffset :
  appends (fix_scan_tlist tl rtoffset).
Proof. unfold fix_scan_tlist, mutate_tlist. appends_auto. Qed.

Lemma appends_fix_join_expr l outer inner acc rtoffset :
  appends (fix_join_expr l outer inner acc rtoffset).
Proof. unfold fix_join_expr. appends_auto. Qed.

Lemma appends_fix_join_tlist l outer inner acc rtoffset :
  appends (fix_join_tlist l outer inner acc rtoffset).
Proof. unfold fix_join_tlist, mutate_tlist. appends_auto. Qed.

Lemma appends_fix_child_hashclauses e outer inner acc rtoffset child :
  appends (fix_child_hashclauses e outer inner acc rtoffset child).
Proof. unfold fix_child_hashclauses. cbv zeta. appends_auto. Qed.

#[local] Hint Resolve appends_fix_child_hashclauses : appends.

Lemma appends_fix_hashclauses l outer inner acc rtoffset :
  appends (fix_hashclauses l outer inner acc rtoffset).
Proof. unfold fix_hashclauses, fix_hashclause. appends_auto. Qed.

Lemma appends_fix_upper_expr node itlist rtoffset :
  appends (fix_upper_expr node itlist rtoffset).
Proof. unfold fix_upper_expr. appends_auto. Qed.

Lemma appends_fix_upper_list l itlist rtoffset :
  appends (fix_upper_list l itlist rtoffset).
Proof. unfold fix_upper_list. appends_auto. Qed.

Lemma appends_fix_upper_tlist l itlist rtoffset :
  appends (fix_upper_tlist l itlist rtoffset).
Proof. unfold fix_upper_tlist, mutate_tlist. appends_auto. Qed.

#[local] Hint Resolve appends_fix_scan_expr appends_fix_scan_list
  appends_fix_scan_tlist appends_fix_join_expr appends_fix_join_tlist
  appends_fix_hashclauses appends_fix_upper_expr appends_fix_upper_list
  appends_fix_upper_tlist : appends.

Lemma appends_set_upper_references_tle itlist rtoffset tle :
  appends (set_upper_references_tle itlist rtoffset tle).
Proof. unfold set_upper_references_tle. appends_auto. Qed.

#[local] Hint Resolve appends_set_upper_references_tle : appends.

Lemma appends_set_upper_references plan rtoffset :
  appends (set_upper_references plan rtoffset).
Proof. unfold set_upper_references. appends_auto. Qed.

Lemma appends_set_join_references join rtoffset :
  appends (set_join_references join rtoffset).
Proof. unfold set_join_references. appends_auto. Qed.

Lemma appends_fix_flow plan rtoffset : appends (fix_flow plan rtoffset).
Proof. unfold fix_flow. appends_auto. Qed.

Lemma appends_fix_scan_plan plan rtoffset :
  appends (fix_scan_plan plan rtoffset).
Proof. unfold fix_scan_plan. appends_auto. Qed.

Lemma appends_flatten_rte rtoffset rte : appends (flatten_rte rtoffset rte).
Proof. unfold flatten_rte. appends_auto. Qed.

Lemma appends_flatten_rowmark rtoffset rc :
  appends (flatten_rowmark rtoffset rc).
Proof. unfold flatten_rowmark. appends_auto. Qed.

#[local] Hint Resolve appends_set_upper_references appends_set_join_references
  appends_fix_flow appends_fix_scan_plan appends_flatten_rte
  appends_flatten_rowmark : appends.

Lemma appends_set_plan_references_with {R : Type}
      (rec : option Plan -> Z -> M R) plan rtable rowmarks :
  (forall plan rtoffset, appends (rec plan rtoffset)) ->
  appends (set_plan_references_with rec plan rtable rowmarks).
Proof.
  intros appends_rec. unfold set_plan_references_with. appends_auto.
Qed.

Section AppendOnlyRecursion.
Variable rec : option Plan -> Z -> M (option Plan).
Hypothesis appends_rec : forall plan rtoffset, appends (rec plan rtoffset).

#[local] Hint Resolve appends_rec : appends.

Lemma appends_set_plan_refs_list l rtoffset :
  appends (set_plan_refs_list rec l rtoffset).
Proof. unfold set_plan_refs_list. appends_auto. Qed.

Lemma appends_trivial_subqueryscan plan : appends (trivial_subqueryscan plan).
Proof. unfold trivial_subqueryscan. appends_auto. Qed.

#[local] Hint Resolve appends_set_plan_refs_list
  appends_trivial_subqueryscan : appends.

Lemma appends_set_subqueryscan_references_returned plan rtoffset :
  appends (set_subqueryscan_references_returned rec plan rtoffset).
Proof.
  pose proof (fun p rt rm => @appends_set_plan_references_with _ rec p rt rm
                               appends_rec).
  unfold set_subqueryscan_references_returned. appends_auto.
Qed.

#[local] Hint Resolve appends_set_subqueryscan_references_returned : appends.

Lemma appends_set_subqueryscan_references plan rtoffset :
  appends (set_subqueryscan_references rec plan rtoffset).
Proof. unfold set_subqueryscan_references. appends_auto. Qed.

End AppendOnlyRecursion.

Section AppendOnlyRecursionReturned.
Variable rec : option Plan -> Z -> M (option Returned).
Hypothesis appends_rec : forall plan rtoffset, appends (rec plan rtoffset).

#[local] Hint Resolve appends_rec : appends.

Lemma appends_set_plan_refs_rec plan rtoffset :
  appends (set_plan_refs_rec rec plan rtoffset).
Proof. unfold set_plan_refs_rec. appends_auto. Qed.

#[local] Hint Resolve appends_set_plan_refs_rec appends_set_plan_refs_list
  appends_trivial_subqueryscan
  appends_set_subqueryscan_references_returned : appends.

Lemma appends_cdb_insert_result_node plan rtoffset :
  appends (cdb_insert_result_node rec plan rtoffset).
Proof. unfold cdb_insert_result_node. appends_auto. Qed.

#[local] Hint Resolve appends_cdb_insert_result_node : appends.

Lemma appends_set_plan_refs_dispatch plan rtoffset :
  appends (set_plan_refs_dispatch rec plan rtoffset).
Proof.
  pose proof (fun p rt rm => @appends_set_plan_references_with _ rec p rt rm
                               appends_rec).
  unfold set_plan_refs_dispatch. cbv zeta. appends_auto.
Qed.

#[local] Hint Resolve appends_set_plan_refs_dispatch : appends.

Lemma appends_set_plan_refs_node plan rtoffset :
  appends (set_plan_refs_node rec plan rtoffset).
Proof. unfold set_plan_refs_node. appends_auto. Qed.

End AppendOnlyRecursionReturned.

Lemma appends_set_plan_refs_returned fuel :
  forall plan rtoffset, appends (set_plan_refs_returned fuel plan rtoffset).
Proof.
  induction fuel as [|fuel IH]; intros [plan|] rtoffset; simpl;
    try apply appends_ret; try apply appends_raise.
  apply appends_bind; [| intros; apply appends_ret].
  apply appends_set_plan_refs_node. exact IH.
Qed.

Lemma appends_set_plan_refs fuel :
  forall plan rtoffset, appends (set_plan_refs fuel plan rtoffset).
Proof.
  intros plan rtoffset. unfold set_plan_refs.
  apply appends_set_plan_refs_rec. apply appends_set_plan_refs_returned.
Qed.

(** X1.  The pass only ever appends.  Whenever the entry point, the
    per-node fixer or the fixer of a RETURNING list returns, each of the
    five lists of the planner-global state (flattened range table,
    flattened row marks, relation dependencies, function dependencies,
    result relations) begins with the list as it was before the call:
    nothing is removed, reordered or rewritten, so every position handed
    out earlier stays valid. *)
Theorem planner_global_append_only :
  forall (fuel : nat) (plan : option Plan) (rtable : list RangeTblEntry)
         (rowmarks : list PlanRowMark) (rtoffset : Z)
         (rlist : list TargetEntry) (topplan : Plan) (resultRelation : Index),
    appends (set_plan_references fuel plan rtable rowmarks) /\
    appends (set_plan_refs fuel plan rtoffset) /\
    appends (set_returning_clause_references rlist topplan resultRelation).
Proof.
  intros. split; [| split].
  - apply appends_set_plan_references_with. apply appends_set_plan_refs.
  - apply appends_set_plan_refs.
  - unfold set_returning_clause_references. cbv zeta.
    apply appends_fix_join_tlist.
Qed.

End AppendOnly.

(** ** Where flattening puts the entries *)

Section Flattening.
Context {cat : Catalog}.

#[local] Arguments fix_expr_common : simpl never.
#[local] Arguments expression_tree_mutator : simpl never.
#[local] Arguments expression_tree_walker : simpl never.

Lemma keeps_tables_ret {A} (a : A) : keeps_tables (ret a).
Proof. intros g b g' H. inv_ret H. auto. Qed.

Lemma keeps_tables_raise {A} (e : Error) : keeps_tables (@raise A e).
Proof. intros g b g' H. discriminate H. Qed.

Lemma keeps_tables_bind {A B} (m : M A) (k : A -> M B) :
  keeps_tables m -> (forall a, keeps_tables (k a)) -> keeps_tables (bind m k).
Proof.
  intros Hm Hk g b g' H. inv_bind H as a g1 H1.
  destruct (Hm _ _ _ H1) as (A1 & B1 & C1).
  destruct (Hk _ _ _ _ H) as (A2 & B2 & C2).
  repeat split; congruence.
Qed.

Lemma keeps_tables_mapM_Forall {A B} (f : A -> M B) (l : list A) :
  Forall (fun x => keeps_tables (f x)) l -> keeps_tables (mapM f l).
Proof.
  induction 1 as [|x l Hx Hl IH]; simpl.
  - apply keeps_tables_ret.
  - apply keeps_tables_bind; [exact Hx | intros y].
    apply keeps_tables_bind; [exact IH | intros ys]. apply keeps_tables_ret.
Qed.

Lemma keeps_tables_fix_expr_common n : keeps_tables (fix_expr_common n).
Proof.
  assert (D : forall f, keeps_tables (record_plan_function_dependency f)).
  { intros f g a g' H. unfold record_plan_function_dependency in H.
    destruct (_ <=? _); [| inversion H; auto].
    destruct (SearchSysCache1_PROCOID f); [| discriminate H].
    inversion H. auto. }
  destruct n; unfold fix_expr_common; try apply D;
    try apply keeps_tables_ret.
  - destruct (ISREGCLASSCONST con); [| apply keeps_tables_ret].
    intros g a g' H. inversion H. auto.
  - destruct (OidIsValid elemfuncid); [apply D | apply keeps_tables_ret].
Qed.

Lemma keeps_tables_expression_tree_mutator (mutator : Node -> M Node)
      (n : Node) :
  match n with
  | T_PlaceHolderVar e _ | T_ArrayCoerceExpr e _ | T_RelabelType e _ =>
      keeps_tables (mutator e)
  | T_Aggref _ l | T_WindowFunc _ l | T_FuncExpr _ _ l | T_OpExpr _ _ _ _ l
  | T_ScalarArrayOpExpr _ _ _ l | T_Expr _ l =>
      Forall (fun x => keeps_tables (mutator x)) l
  | _ => True
  end ->
  keeps_tables (expression_tree_mutator mutator n).
Proof.
  destruct n; unfold expression_tree_mutator; intros H;
    try apply keeps_tables_ret;
    (apply keeps_tables_bind;
     [ first [exact H | apply keeps_tables_mapM_Forall; exact H]
     | intros; apply keeps_tables_ret ]).
Qed.

Ltac keeps_tables_rebuilt :=
  apply keeps_tables_bind; [apply keeps_tables_fix_expr_common | intros _];
  apply keeps_tables_bind; [| intros; apply keeps_tables_ret];
  apply keeps_tables_expression_tree_mutator; simpl; auto.

Lemma keeps_tables_fix_scan_expr_walker context e :
  keeps_tables (fix_scan_expr_walker context e).
Proof.
  induction e using Node_ind'; simpl; unfold expression_tree_walker;
    keeps_tables_rebuilt.
Qed.

Lemma keeps_tables_fix_scan_expr_mutator context e :
  keeps_tables (fix_scan_expr_mutator context e).
Proof.
  induction e using Node_ind'; simpl; try keeps_tables_rebuilt;
    try assumption.
  destruct (_ <=? _); [| apply keeps_tables_ret].
  apply keeps_tables_bind; [| intros glob].
  { intros g a g' H. inversion H. auto. }
  destruct (rt_fetch _ _); [| apply keeps_tables_raise].
  destruct (cdb_rte_find_pseudo_column _ _); [| apply keeps_tables_raise].
  apply keeps_tables_fix_scan_expr_walker.
Qed.

Lemma keeps_tables_fix_scan_list l rtoffset :
  keeps_tables (fix_scan_list l rtoffset).
Proof.
  unfold fix_scan_list. apply keeps_tables_mapM_Forall.
  apply Forall_forall. intros. apply keeps_tables_fix_scan_expr_mutator.
Qed.

Lemma keeps_tables_fix_scan_expr o rtoffset :
  keeps_tables (fix_scan_expr o rtoffset).
Proof.
  unfold fix_scan_expr, optM. destruct o; [| apply keeps_tables_ret].
  apply keeps_tables_bind;
    [apply keeps_tables_fix_scan_expr_mutator
    | intros; apply keeps_tables_ret].
Qed.

(** One turn of the first loop appends exactly one entry. *)
Lemma flatten_rte_appends_one rtoffset rte g a g' :
  flatten_rte rtoffset rte g = Ok (a, g') ->
  exists c, finalrtable g' = finalrtable g ++ [c] /\ same_source rte c /\
            finalrowmarks g' = finalrowmarks g.
Proof.
  unfold flatten_rte. intros H.
  inv_bind H as x1 g1 H1. inv_bind H as x2 g2 H2. inv_bind H as x3 g3 H3.
  apply keeps_tables_fix_scan_expr in H1. destruct H1 as (A1 & B1 & _).
  apply keeps_tables_fix_scan_list in H2. destruct H2 as (A2 & B2 & _).
  assert (K3 : keeps_tables
                 (mapM (fun l => fix_scan_list l rtoffset)
                       (values_lists rte))).
  { apply keeps_tables_mapM_Forall. apply Forall_forall.
    intros. apply keeps_tables_fix_scan_list. }
  apply K3 in H3. destruct H3 as (A3 & B3 & _).
  inv_bind H as x4 g4 H4. inversion H4; subst g4; clear H4.
  eexists. split; [| split].
  - cbn [rtekind] in H.
    destruct (RTEKind_eqb _ _); inversion H; simpl;
      rewrite A3, A2, A1; reflexivity.
  - repeat split.
  - cbn [rtekind] in H.
    destruct (RTEKind_eqb _ _); inversion H; simpl; congruence.
Qed.

Lemma flatten_rtable_appends rtoffset rtable :
  forall g a g',
    mapM (flatten_rte rtoffset) rtable g = Ok (a, g') ->
    exists copies,
      finalrtable g' = finalrtable g ++ copies /\
      Forall2 same_source rtable copies /\
      finalrowmarks g' = finalrowmarks g.
Proof.
  induction rtable as [|x rtable IH]; intros g a g' H; simpl in H.
  - inv_ret H. exists []. rewrite app_nil_r. auto.
  - inv_bind H as u g1 Hx. inv_bind H as us g2 Hl. inv_ret H.
    apply flatten_rte_appends_one in Hx. destruct Hx as (c & Ec & Hc & Rc).
    apply IH in Hl. destruct Hl as (cs & Ecs & Hcs & Rcs).
    exists (c :: cs). split; [| split].
    + rewrite Ecs, Ec, <- app_assoc. reflexivity.
    + constructor; assumption.
    + congruence.
Qed.

Lemma flatten_rowmarks_appends rtoffset rowmarks :
  forall g a g',
    mapM (flatten_rowmark rtoffset) rowmarks g = Ok (a, g') ->
    finalrowmarks g' = finalrowmarks g ++ map (shift_rowmark rtoffset) rowmarks
    /\ finalrtable g' = finalrtable g.
Proof.
  induction rowmarks as [|x rowmarks IH]; intros g a g' H; simpl in H.
  - inv_ret H. rewrite app_nil_r. auto.
  - inv_bind H as u g1 Hx. inv_bind H as us g2 Hl. inv_ret H.
    apply IH in Hl. destruct Hl as (E1 & E2).
    inversion Hx; subst g1. simpl in *. rewrite E1, E2, <- app_assoc. auto.
Qed.

Lemma Forall2_nth_error {A B} (R : A -> B -> Prop) (l : list A) (l' : list B) :
  Forall2 R l l' ->
  forall k x, nth_error l k = Some x ->
              exists y, nth_error l' k = Some y /\ R x y.
Proof.
  induction 1 as [|a b l l' Hab Hl IH]; intros [|k] x Hk; simpl in Hk;
    try discriminate.
  - inversion Hk; subst. exists b. auto.
  - apply IH. exact Hk.
Qed.

Lemma flatten_rte_appends_copy rtoffset rte g a g' :
  flatten_rte rtoffset rte g = Ok (a, g') ->
  finalrtable g' = finalrtable g ++ [flattened_copy rte].
Proof.
  unfold flatten_rte. intros H.
  inv_bind H as x1 g1 H1. inv_bind H as x2 g2 H2. inv_bind H as x3 g3 H3.
  apply keeps_tables_fix_scan_expr in H1. destruct H1 as (A1 & _).
  apply keeps_tables_fix_scan_list in H2. destruct H2 as (A2 & _).
  assert (K3 : keeps_tables
                 (mapM (fun l => fix_scan_list l rtoffset)
                       (values_lists rte))).
  { apply keeps_tables_mapM_Forall. apply Forall_forall.
    intros. apply keeps_tables_fix_scan_list. }
  apply K3 in H3. destruct H3 as (A3 & _).
  inv_bind H as x4 g4 H4. inversion H4; subst g4; clear H4.
  cbn [rtekind] in H. unfold flattened_copy.
  destruct (RTEKind_eqb _ _); inversion H; simpl;
    rewrite A3, A2, A1; reflexivity.
Qed.

Lemma flatten_rtable_copies rtoffset rtable :
  forall g a g',
    mapM (flatten_rte rtoffset) rtable g = Ok (a, g') ->
    finalrtable g' = finalrtable g ++ map flattened_copy rtable.
Proof.
  induction rtable as [|x rtable IH]; intros g a g' H; simpl in H.
  - inv_ret H. simpl. rewrite app_nil_r. reflexivity.
  - inv_bind H as u g1 Hx. inv_bind H as us g2 Hl. inv_ret H.
    apply flatten_rte_appends_copy in Hx. apply IH in Hl.
    rewrite Hl, Hx, <- app_assoc. reflexivity.
Qed.

(** X2.  Flattening appends one copy per entry of the subquery's range
    table, in order, right behind what the flattened table held before, and
    nothing after that displaces them.  The copy keeps every field of the
    entry: kind, relation and pseudo columns as they are, and the function
    expression, the join alias variables and the values lists with nothing
    changed but the operator handles, which are filled in.  So when the
    entry point returns, the entry found at slot [offset + k] of the final
    table, where [offset] is the length the table had on entry, is the
    copy of the subquery's entry [k] and describes the same data source:
    adding the offset to a local slot is exactly what makes it address its
    own entry. *)
Theorem flattened_entries_placement :
  forall (fuel : nat) (plan : option Plan) (rtable : list RangeTblEntry)
         (rowmarks : list PlanRowMark) (glob : PlannerGlobal)
         (r : option Plan) (glob' : PlannerGlobal),
    set_plan_references fuel plan rtable rowmarks glob = Ok (r, glob') ->
    (exists rest,
        finalrtable glob' =
        finalrtable glob ++ map flattened_copy rtable ++ rest) /\
    (forall k rte,
        nth_error rtable k = Some rte ->
        rt_fetch (list_length (finalrtable glob) + (Z.of_nat k + 1))
                 (finalrtable glob') = Some (flattened_copy rte) /\
        same_source rte (flattened_copy rte) /\
        funcexpr (flattened_copy rte)
        = option_map fix_opfuncids (funcexpr rte) /\
        joinaliasvars (flattened_copy rte)
        = map fix_opfuncids (joinaliasvars rte) /\
        values_lists (flattened_copy rte)
        = map (map fix_opfuncids) (values_lists rte)).
Proof.
  intros fuel plan rtable rowmarks glob r glob' H.
  unfold set_plan_references, set_plan_references_with in H.
  inv_bind H as g0 g0' Hg. inversion Hg; subst g0 g0'.
  inv_bind H as u1 g1 Hrt. inv_bind H as u2 g2 Hrm.
  apply flatten_rtable_copies in Hrt.
  apply flatten_rowmarks_appends in Hrm. destruct Hrm as (_ & E2).
  apply appends_set_plan_refs in H. destruct H as ([rest E3] & _).
  assert (E : finalrtable glob' =
              finalrtable glob ++ map flattened_copy rtable ++ rest).
  { rewrite E3, E2, Hrt, <- app_assoc. reflexivity. }
  split; [exists rest; exact E |].
  intros k rte Hk.
  split; [| repeat split].
  unfold rt_fetch, list_length.
  destruct (Z.leb_spec 1 (Z.of_nat (List.length (finalrtable glob))
                          + (Z.of_nat k + 1))); [| lia].
  replace (Z.to_nat (Z.of_nat (List.length (finalrtable glob))
                     + (Z.of_nat k + 1) - 1))
    with (List.length (finalrtable glob) + k)%nat by lia.
  rewrite E, nth_error_app2 by lia.
  replace (List.length (finalrtable glob) + k
           - List.length (finalrtable glob))%nat with k by lia.
  rewrite nth_error_app1.
  - rewrite nth_error_map, Hk. reflexivity.
  - rewrite length_map. apply nth_error_Some. congruence.
Qed.

(** X3.  The row marks of the subquery are appended to the flattened row
    marks in order, right behind what was there, each with both of its
    relation slots moved by the offset (the length of the flattened range
    table on entry) and with its row-mark identifier as it was. *)
Theorem flattened_rowmarks_placement :
  forall (fuel : nat) (plan : option Plan) (rtable : list RangeTblEntry)
         (rowmarks : list PlanRowMark) (glob : PlannerGlobal)
         (r : option Plan) (glob' : PlannerGlobal),
    set_plan_references fuel plan rtable rowmarks glob = Ok (r, glob') ->
    let rtoffset := list_length (finalrtable glob) in
    (exists rest,
        finalrowmarks glob' =
        finalrowmarks glob ++ map (shift_rowmark rtoffset) rowmarks ++ rest) /\
    (forall k rc,
        nth_error rowmarks k = Some rc ->
        exists rc',
          nth_error (finalrowmarks glob')
                    (List.length (finalrowmarks glob) + k) = Some rc' /\
          rti rc' = Index_add (rti rc) rtoffset /\
          prti rc' = Index_add (prti rc) rtoffset /\
          rowmarkId rc' = rowmarkId rc).
Proof.
  intros fuel plan rtable rowmarks glob r glob' H rtoffset.
  unfold set_plan_references, set_plan_references_with in H.
  inv_bind H as g0 g0' Hg. inversion Hg; subst g0 g0'.
  inv_bind H as u1 g1 Hrt. inv_bind H as u2 g2 Hrm.
  apply flatten_rtable_appends in Hrt. destruct Hrt as (_ & _ & _ & R1).
  apply flatten_rowmarks_appends in Hrm. destruct Hrm as (E2 & _).
  apply appends_set_plan_refs in H. destruct H as (_ & [rest E3] & _).
  assert (E : finalrowmarks glob' =
              finalrowmarks glob ++ map (shift_rowmark rtoffset) rowmarks
                            ++ rest).
  { rewrite E3, E2, R1, <- app_assoc. reflexivity. }
  split; [exists rest; exact E |].
  intros k rc Hk. exists (shift_rowmark rtoffset rc).
  split; [| repeat split].
  rewrite E, nth_error_app2 by lia.
  replace (List.length (finalrowmarks glob) + k
           - List.length (finalrowmarks glob))%nat with k by lia.
  rewrite nth_error_app1.
  - rewrite nth_error_map, Hk. reflexivity.
  - rewrite length_map. apply nth_error_Some. congruence.
Qed.

End Flattening.

Lemma flattened_entries_placement_witness :
  exists r glob',
    set_plan_references (cat := Example.catalog) 2 (Some Example.sort_plan)
      [Example.rel 600; Sample.function_rte 0] [Sample.rowmark]
      Sample.earlier_glob = Ok (r, glob') /\
    rt_fetch 2 (finalrtable glob') = Some (Example.rel 600) /\
    rt_fetch 3 (finalrtable glob') = Some (Sample.function_rte 97).
Proof.
  destruct (set_plan_references (cat := Example.catalog) 2
              (Some Example.sort_plan)
              [Example.rel 600; Sample.function_rte 0] [Sample.rowmark]
              Sample.earlier_glob) as [[r glob']|e] eqn:E;
    [| vm_compute in E; discriminate E].
  exists r, glob'. split; [reflexivity |].
  pose proof (proj2 (flattened_entries_placement (cat := Example.catalog) 2
                       (Some Example.sort_plan)
                       [Example.rel 600; Sample.function_rte 0]
                       [Sample.rowmark] Sample.earlier_glob E)) as P.
  split.
  - exact (proj1 (P 0%nat (Example.rel 600) eq_refl)).
  - exact (proj1 (P 1%nat (Sample.function_rte 0) eq_refl)).
Defined.

Lemma flattened_rowmarks_placement_witness :
  exists r glob',
    set_plan_references (cat := Example.catalog) 2 (Some Example.sort_plan)
      [Example.rel 600] [Sample.rowmark] Sample.earlier_glob = Ok (r, glob') /\
    exists rc', nth_error (finalrowmarks glob') 1 = Some rc' /\
                rti rc' = 2 /\ prti rc' = 2 /\ rowmarkId rc' = 7.
Proof.
  destruct (set_plan_references (cat := Example.catalog) 2
              (Some Example.sort_plan) [Example.rel 600] [Sample.rowmark]
              Sample.earlier_glob) as [[r glob']|e] eqn:E;
    [| vm_compute in E; discriminate E].
  exists r, glob'. split; [reflexivity |].
  exact (proj2 (flattened_rowmarks_placement (cat := Example.catalog) 2
                  (Some Example.sort_plan) [Example.rel 600] [Sample.rowmark]
                  Sample.earlier_glob E) 0%nat Sample.rowmark eq_refl).
Defined.

(** ** Indexed target lists *)

Section IndexedTargetList.
Context {cat : Catalog}.

Lemma strip_RelabelType_snd (e : Node) :
  snd (strip_RelabelType e) = match e with
                              | T_RelabelType _ _ => true
                              | _ => false
                              end.
Proof. destruct e; reflexivity. Qed.

Lemma build_tlist_index_step_spec (itlist : indexed_tlist) (tle : TargetEntry) :
  build_tlist_index_step itlist tle =
  mk_indexed_tlist (tlist itlist)
    (has_ph_vars itlist || tle_sets_has_ph_vars tle)
    (has_non_vars itlist || tle_sets_has_non_vars tle)
    (vars itlist ++ tle_index_entry tle).
Proof.
  unfold build_tlist_index_step, tle_sets_has_ph_vars, tle_sets_has_non_vars,
    tle_index_entry.
  destruct (strip_RelabelType (expr tle)) as [e relabelled] eqn:Es.
  assert (Hrel : relabelled = true -> IsA_PlaceHolderVar (expr tle) = false).
  { intros ->. pose proof (strip_RelabelType_snd (expr tle)) as H.
    rewrite Es in H. simpl in H. destruct (expr tle); try discriminate H.
    reflexivity. }
  cbn [fst snd].
  destruct e, (has_ph_vars itlist), (has_non_vars itlist), relabelled,
    (IsA_PlaceHolderVar (expr tle));
    try (specialize (Hrel eq_refl); discriminate Hrel);
    cbn [orb negb]; rewrite ?app_nil_r; reflexivity.
Qed.

Lemma build_tlist_index_fold (tl : list TargetEntry) :
  forall itlist,
    fold_left build_tlist_index_step tl itlist =
    mk_indexed_tlist (tlist itlist)
      (has_ph_vars itlist || existsb tle_sets_has_ph_vars tl)
      (has_non_vars itlist || existsb tle_sets_has_non_vars tl)
      (vars itlist ++ flat_map tle_index_entry tl).
Proof.
  induction tl as [|tle tl IH]; intros itlist; simpl.
  - rewrite !orb_false_r, app_nil_r. destruct itlist; reflexivity.
  - rewrite IH, build_tlist_index_step_spec. simpl.
    rewrite !orb_assoc, app_assoc. reflexivity.
Qed.

(** The loop of [build_tlist_index], in closed form. *)
Lemma build_tlist_index_spec (tl : list TargetEntry) :
  build_tlist_index tl =
  mk_indexed_tlist tl (existsb tle_sets_has_ph_vars tl)
                   (existsb tle_sets_has_non_vars tl)
                   (flat_map tle_index_entry tl).
Proof. unfold build_tlist_index. rewrite build_tlist_index_fold. reflexivity. Qed.

Lemma find_flat_map_index (var : Var) (tl : list TargetEntry) :
  find (fun vinfo => (vi_varno vinfo =? varno var) &&
                     (vi_varattno vinfo =? varattno var))
       (flat_map tle_index_entry tl) =
  option_map (fun tle => mk_tlist_vinfo (varno var) (varattno var) (resno tle))
             (find (tle_supplies var) tl).
Proof.
  induction tl as [|tle tl IH]; simpl; [reflexivity |].
  unfold tle_index_entry at 1, tle_supplies at 1.
  destruct (fst (strip_RelabelType (expr tle))); simpl; try exact IH.
  destruct ((varno var0 =? varno var) && (varattno var0 =? varattno var))
    eqn:E; [| exact IH].
  apply andb_true_iff in E. destruct E as [E1 E2].
  apply Z.eqb_eq in E1. apply Z.eqb_eq in E2. simpl. congruence.
Qed.

(** X4.  Looking a variable up in the index built over a child's output
    list finds the first entry of that list that is a variable for the same
    relation slot and attribute (possibly under relabelling), and answers
    with a copy of the variable that addresses that entry: the given
    sentinel as slot, the entry's declared position as attribute, every
    other field kept except the diagnostics-only original slot, which is
    moved by the offset when it is set.  The lookup fails exactly when the
    list has no such entry. *)
Theorem indexed_tlist_lookup :
  forall (tl : list TargetEntry) (var : Var) (newvarno : Index)
         (rtoffset : Z),
    search_indexed_tlist_for_var var (build_tlist_index tl) newvarno rtoffset
    = option_map
        (fun tle =>
           shift_varnoold
             (set_varattno (set_varno var newvarno) (resno tle)) rtoffset)
        (find (tle_supplies var) tl) /\
    (search_indexed_tlist_for_var var (build_tlist_index tl) newvarno rtoffset
     = None <-> forall tle, In tle tl -> tle_supplies var tle = false) /\
    (forall tle, In tle tl -> expr tle = T_Var var ->
                 exists newvar first,
                   search_indexed_tlist_for_var var (build_tlist_index tl)
                                                newvarno rtoffset
                   = Some newvar /\
                   In first tl /\ tle_supplies var first = true /\
                   varno newvar = newvarno /\
                   varattno newvar = resno first).
Proof.
  intros tl var newvarno rtoffset.
  assert (E : search_indexed_tlist_for_var var (build_tlist_index tl)
                                           newvarno rtoffset
              = option_map
                  (fun tle =>
                     shift_varnoold
                       (set_varattno (set_varno var newvarno) (resno tle))
                       rtoffset)
                  (find (tle_supplies var) tl)).
  { unfold search_indexed_tlist_for_var. rewrite build_tlist_index_spec.
    cbn [vars]. rewrite find_flat_map_index.
    destruct (find (tle_supplies var) tl); reflexivity. }
  split; [exact E |]. split.
  - rewrite E. split.
    + intros H tle Hin.
      destruct (find (tle_supplies var) tl) eqn:F; [discriminate |].
      eapply find_none in F; eassumption.
    + intros H. destruct (find (tle_supplies var) tl) eqn:F; [| reflexivity].
      apply find_some in F. destruct F as [Hin Ht].
      rewrite (H _ Hin) in Ht. discriminate.
  - intros tle Hin He. rewrite E.
    destruct (find (tle_supplies var) tl) as [first|] eqn:F.
    + apply find_some in F. destruct F as [Hf Hs].
      eexists. exists first. split; [reflexivity |].
      repeat split; try assumption;
        unfold shift_varnoold; destruct (0 <? _); reflexivity.
    + eapply find_none in F; [| exact Hin].
      unfold tle_supplies in F. rewrite He in F. simpl in F.
      rewrite !Z.eqb_refl in F. discriminate.
Qed.

End IndexedTargetList.

Lemma indexed_tlist_lookup_witness :
  exists newvar first,
    search_indexed_tlist_for_var (Example.var 1 1)
      (build_tlist_index Example.hash_outer_tlist) 65001 0 = Some newvar /\
    In first Example.hash_outer_tlist /\
    tle_supplies (Example.var 1 1) first = true /\
    varno newvar = 65001 /\ varattno newvar = resno first.
Proof.
  apply (indexed_tlist_lookup Example.hash_outer_tlist (Example.var 1 1)
           65001 0)
    with (tle := Example.tle (T_Var (Example.var 1 1)) 1).
  - left. reflexivity.
  - reflexivity.
Defined.

(** ** What the upper-level and join-level fixers leave behind *)

Section ResolvedOutputs.
Context {cat : Catalog}.

#[local] Arguments fix_expr_common : simpl never.

(** A node that is neither variable nor placeholder, rebuilt around its
    fixed children, satisfies a leafy predicate throughout as soon as its
    fixed children do. *)
Lemma rebuilt_node_all (p : Node -> bool) (mutator : Node -> M Node)
      (n : Node) glob r glob' :
  leafy p ->
  IsA_Var n = false -> IsA_PlaceHolderVar n = false ->
  (fix_expr_common n ;;;
   n' <- expression_tree_mutator mutator n ;;
   ret (fix_expr_common_node n')) glob = Ok (r, glob') ->
  match n with
  | T_ArrayCoerceExpr e _ | T_RelabelType e _ =>
      forall g x g', mutator e g = Ok (x, g') -> node_all p x = true
  | T_Aggref _ l | T_WindowFunc _ l | T_FuncExpr _ _ l | T_OpExpr _ _ _ _ l
  | T_ScalarArrayOpExpr _ _ _ l | T_Expr _ l =>
      Forall (fun e => forall g x g',
                  mutator e g = Ok (x, g') -> node_all p x = true) l
  | _ => True
  end ->
  node_all p r = true.
Proof.
  intros Hp Hv Hph Hrun Hkids.
  inv_bind Hrun as un g1 Hc. inv_bind Hrun as n' g2 Hm. inv_ret Hrun.
  assert (Hall : forall l l' g g',
             Forall (fun e => forall g x g',
                         mutator e g = Ok (x, g') -> node_all p x = true) l ->
             mapM mutator l g = Ok (l', g') ->
             forallb (node_all p) l' = true).
  { intros l l' g g' HF. revert l' g g'.
    induction HF as [|x l Hx Hl IHl]; intros l' g g' HM; simpl in HM.
    - inv_ret HM. reflexivity.
    - inv_bind HM as y g3 Hy. inv_bind HM as ys g4 Hys. inv_ret HM.
      simpl. rewrite (Hx _ _ _ Hy), (IHl _ _ _ Hys). reflexivity. }
  destruct n; try discriminate Hv; try discriminate Hph;
    unfold expression_tree_mutator in Hm;
    try (inv_ret Hm; cbn [fix_expr_common_node node_all];
         rewrite Hp by reflexivity; reflexivity);
    inv_bind Hm as x g3 Hx; inv_ret Hm;
    cbn [fix_expr_common_node node_all];
    rewrite Hp by reflexivity; cbn [andb]; eauto.
Qed.

Lemma position_of_In (tl : list TargetEntry) (tle : TargetEntry) :
  In tle tl -> position_of tl (resno tle) = true.
Proof.
  intros H. unfold position_of. apply existsb_exists.
  exists tle. split; [exact H | apply Z.eqb_refl].
Qed.

Lemma build_tlist_index_wf (tl : list TargetEntry) :
  itlist_wf (build_tlist_index tl) = true /\
  tlist (build_tlist_index tl) = tl.
Proof.
  rewrite build_tlist_index_spec. split; [| reflexivity].
  unfold itlist_wf. cbn [tlist vars]. apply forallb_forall.
  intros vinfo Hin. apply in_flat_map in Hin.
  destruct Hin as (tle & Htle & Hv). unfold tle_index_entry in Hv.
  destruct (fst (strip_RelabelType (expr tle))); try contradiction.
  destruct Hv as [<- | []]. apply position_of_In. exact Htle.
Qed.

Lemma build_tlist_index_other_vars_step_invariant (ignore_rel : Index)
      (whole : list TargetEntry) (itlist : indexed_tlist)
      (tle : TargetEntry) :
  In tle whole ->
  other_vars_invariant ignore_rel whole itlist ->
  other_vars_invariant ignore_rel whole
    (build_tlist_index_other_vars_step ignore_rel itlist tle).
Proof.
  intros Hin (Ht & Hwf & Hnv & Hrel).
  unfold build_tlist_index_other_vars_step.
  destruct (expr tle) as [var| | | | | | | | | | | |];
    try (repeat split; assumption).
  - destruct (Z.eqb_spec (varno var) ignore_rel) as [E|E]; cbn [negb];
      [repeat split; assumption |].
    unfold other_vars_invariant, itlist_wf in *. cbn [tlist vars has_non_vars].
    repeat split; try assumption.
    + rewrite forallb_app, Hwf. cbn [forallb vi_resno andb]. rewrite Ht.
      rewrite (position_of_In _ _ Hin). reflexivity.
    + apply Forall_app. split; [exact Hrel |].
      constructor; [exact E | constructor].
Qed.

Lemma build_tlist_index_other_vars_fold (ignore_rel : Index)
      (whole : list TargetEntry) (tl : list TargetEntry) :
  forall itlist,
    incl tl whole ->
    other_vars_invariant ignore_rel whole itlist ->
    other_vars_invariant ignore_rel whole
      (fold_left (build_tlist_index_other_vars_step ignore_rel) tl itlist).
Proof.
  induction tl as [|tle tl IH]; intros itlist Hincl Hinv; simpl.
  - exact Hinv.
  - apply IH.
    + intros x Hx. apply Hincl. right. exact Hx.
    + apply build_tlist_index_other_vars_step_invariant; [| exact Hinv].
      apply Hincl. left. reflexivity.
Qed.

Lemma build_tlist_index_other_vars_wf (tl : list TargetEntry)
      (ignore_rel : Index) :
  tlist (build_tlist_index_other_vars tl ignore_rel) = tl /\
  itlist_wf (build_tlist_index_other_vars tl ignore_rel) = true /\
  has_non_vars (build_tlist_index_other_vars tl ignore_rel) = false /\
  Forall (fun vinfo => vi_varno vinfo <> ignore_rel)
         (vars (build_tlist_index_other_vars tl ignore_rel)).
Proof.
  unfold build_tlist_index_other_vars.
  apply (build_tlist_index_other_vars_fold (ignore_rel := ignore_rel)
           (whole := tl)).
  - apply incl_refl.
  - repeat split; constructor.
Qed.

Lemma search_indexed_tlist_for_var_addresses var itlist slot rtoffset nv :
  itlist_wf itlist = true ->
  search_indexed_tlist_for_var var itlist slot rtoffset = Some nv ->
  addresses slot (tlist itlist) nv = true.
Proof.
  unfold search_indexed_tlist_for_var, itlist_wf. intros Hwf.
  destruct (find _ (vars itlist)) as [vinfo|] eqn:F; [| discriminate].
  apply find_some in F. destruct F as [Hin _].
  rewrite forallb_forall in Hwf. specialize (Hwf _ Hin).
  intros H. inversion H. unfold addresses, shift_varnoold, copyVar.
  destruct (0 <? _); simpl; rewrite Z.eqb_refl, Hwf; reflexivity.
Qed.

Lemma search_indexed_tlist_for_non_var_addresses node itlist slot nv :
  search_indexed_tlist_for_non_var node itlist slot = Some nv ->
  addresses slot (tlist itlist) nv = true.
Proof.
  unfold search_indexed_tlist_for_non_var, tlist_member.
  destruct (find _ (tlist itlist)) as [tle|] eqn:F; [| discriminate].
  apply find_some in F. destruct F as [Hin _].
  intros H. inversion H. unfold addresses. simpl.
  rewrite Z.eqb_refl, (position_of_In _ _ Hin). reflexivity.
Qed.

Lemma found_or_else_all (p : Node -> bool) (found : option Var)
      (otherwise : M Node) glob r glob' :
  match found with
  | Some newvar => ret (T_Var newvar)
  | None => otherwise
  end glob = Ok (r, glob') ->
  (forall nv, found = Some nv -> p (T_Var nv) = true) ->
  (otherwise glob = Ok (r, glob') -> node_all p r = true) ->
  node_all p r = true.
Proof.
  destruct found as [nv|]; intros H Hnv Hk; [| auto].
  inv_ret H. cbn [node_all]. rewrite Hnv by reflexivity. reflexivity.
Qed.

(** Whatever the upper-level fixer returns addresses the child and
    nothing else. *)
Lemma fix_upper_expr_mutator_resolved :
  forall (itlist : indexed_tlist) (rtoffset : Z) (e : Node)
         (glob : PlannerGlobal) (r : Node) (glob' : PlannerGlobal),
    itlist_wf itlist = true ->
    fix_upper_expr_mutator (mk_fix_upper_expr_context itlist rtoffset) e glob
    = Ok (r, glob') ->
    upper_resolved (tlist itlist) r = true.
Proof.
  intros itlist rtoffset e glob r glob' Hwf. revert glob r glob'.
  unfold upper_resolved.
  set (p := fun n => match n with
                     | T_Var var => addresses OUTER (tlist itlist) var
                     | T_PlaceHolderVar _ _ => false
                     | _ => true
                     end).
  assert (Hp : leafy p).
  { intros n Hv Hph. destruct n; try reflexivity; discriminate. }
  induction e as [v|c|e i IHe|f l IH|f l IH|f r0 l IH|t o f r0 l IH
                  |o f u l IH|e f IHe|e t IHe| | |t l IH] using Node_ind';
    intros glob r glob' Hrun;
    cbn [fix_upper_expr_mutator fix_join_expr_mutator] in Hrun.
  1: { destruct (search_indexed_tlist_for_var _ _ _ _) as [nv|] eqn:S;
         [| discriminate Hrun].
       inv_ret Hrun. cbn [node_all]. unfold p at 1.
       cbn [subplan_itlist upper_rtoffset] in S.
       rewrite (@search_indexed_tlist_for_var_addresses _ _ _ _ _ Hwf S).
       reflexivity. }
  2: { eapply found_or_else_all; [exact Hrun | |].
       - intros nv Hnv. cbn [subplan_itlist] in Hnv.
         destruct (has_ph_vars itlist); [| discriminate].
         apply search_indexed_tlist_for_non_var_addresses in Hnv. exact Hnv.
       - apply IHe. }
  all: (eapply found_or_else_all;
        [ exact Hrun
        | intros nv Hnv; cbn [subplan_itlist] in Hnv;
          destruct (has_non_vars itlist && _); [| discriminate];
          apply search_indexed_tlist_for_non_var_addresses in Hnv; exact Hnv
        | intros Hrun';
          refine (@rebuilt_node_all p _ _ _ _ _ Hp _ _ Hrun' _);
          [reflexivity | reflexivity
           | first [exact I | exact IHe | exact IH] ] ]).
Qed.

(** Whatever the join-level fixer returns addresses the two children or
    the acceptable relation and nothing else. *)
Lemma fix_join_expr_mutator_resolved :
  forall (context : fix_join_expr_context) (e : Node)
         (glob : PlannerGlobal) (r : Node) (glob' : PlannerGlobal),
    itlist_wf (outer_itlist context) = true ->
    inner_wf (inner_itlist context) = true ->
    fix_join_expr_mutator context e glob = Ok (r, glob') ->
    join_resolved (tlist (outer_itlist context))
                  (inner_tlist (inner_itlist context))
                  (acceptable_rel context) r = true.
Proof.
  intros context e glob r glob' Hwo Hwi. revert glob r glob'.
  unfold join_resolved.
  set (p := fun n => match n with
                     | T_Var var =>
                         addresses OUTER (tlist (outer_itlist context)) var ||
                         addresses INNER
                                   (inner_tlist (inner_itlist context)) var ||
                         (varno var =? acceptable_rel context)
                     | T_PlaceHolderVar _ _ => false
                     | _ => true
                     end).
  assert (Hp : leafy p).
  { intros n Hv Hph. destruct n; try reflexivity; discriminate. }
  assert (Houter : forall node nv,
             search_indexed_tlist_for_non_var node (outer_itlist context)
                                              OUTER = Some nv ->
             p (T_Var nv) = true).
  { intros node nv H. unfold p.
    rewrite (@search_indexed_tlist_for_non_var_addresses _ _ _ _ H).
    reflexivity. }
  assert (Hinner_ph : forall node nv,
             join_search_inner_ph context node = Some nv ->
             p (T_Var nv) = true).
  { intros node nv H. unfold join_search_inner_ph in H. unfold p.
    destruct (inner_itlist context) as [inner|]; [| discriminate].
    destruct (has_ph_vars inner); [| discriminate].
    cbn [inner_tlist].
    rewrite (@search_indexed_tlist_for_non_var_addresses _ _ _ _ H).
    rewrite orb_true_r. reflexivity. }
  assert (Hinner_nv : forall node nv,
             join_search_inner_non_var context node = Some nv ->
             p (T_Var nv) = true).
  { intros node nv H. unfold join_search_inner_non_var in H. unfold p.
    destruct (inner_itlist context) as [inner|]; [| discriminate].
    destruct (has_non_vars inner && _); [| discriminate].
    destruct (has_non_vars inner); [| discriminate].
    cbn [inner_tlist].
    rewrite (@search_indexed_tlist_for_non_var_addresses _ _ _ _ H).
    rewrite orb_true_r. reflexivity. }
  induction e as [v|c|e i IHe|f l IH|f l IH|f r0 l IH|t o f r0 l IH
                  |o f u l IH|e f IHe|e t IHe| | |t l IH] using Node_ind';
    intros glob r glob' Hrun;
    cbn [fix_upper_expr_mutator fix_join_expr_mutator] in Hrun.
  1: { eapply found_or_else_all; [exact Hrun | |].
       - intros nv Hnv. unfold join_search_var in Hnv. unfold p.
         destruct (search_indexed_tlist_for_var v (outer_itlist context)
                     OUTER (join_rtoffset context)) as [nv'|] eqn:So.
         + inversion Hnv; subst nv'.
           rewrite (@search_indexed_tlist_for_var_addresses _ _ _ _ _ Hwo So).
           reflexivity.
         + destruct (inner_itlist context) as [inner|] eqn:Ei;
             [| discriminate].
           cbn [inner_tlist].
           try rewrite Ei in Hwi. cbn [inner_wf] in Hwi.
           rewrite (@search_indexed_tlist_for_var_addresses _ _ _ _ _
                      Hwi Hnv).
           rewrite orb_true_r. reflexivity.
       - destruct (Z.eqb_spec (varno v) (acceptable_rel context)) as [E|E];
           intros H; [| discriminate H].
         inv_ret H. cbn [node_all]. unfold p at 1.
         assert (Hno : varno (shift_varnoold (copyVar v)
                                             (join_rtoffset context))
                       = acceptable_rel context).
         { unfold shift_varnoold, copyVar. destruct (0 <? _); exact E. }
         rewrite Hno, Z.eqb_refl, !orb_true_r. reflexivity. }
  2: { eapply found_or_else_all; [exact Hrun | |].
       - intros nv Hnv. destruct (has_ph_vars (outer_itlist context));
           [| discriminate]. eapply Houter. exact Hnv.
       - intros Hrun'. eapply found_or_else_all; [exact Hrun' | |].
         + apply Hinner_ph.
         + apply IHe. }
  all: (eapply found_or_else_all;
        [ exact Hrun
        | intros nv Hnv; unfold join_search_outer_non_var in Hnv;
          destruct (has_non_vars (outer_itlist context) && _);
          [| discriminate]; eapply Houter; exact Hnv
        | intros Hrun';
          eapply found_or_else_all;
          [ exact Hrun'
          | apply Hinner_nv
          | intros Hrun'';
            refine (@rebuilt_node_all p _ _ _ _ _ Hp _ _ Hrun'' _);
            [reflexivity | reflexivity
             | first [exact I | exact IHe | exact IH] ] ] ]).
Qed.

Lemma mapM_Ok_all {A B} (f : A -> M B) (q : B -> bool) (l : list A) :
  Forall (fun x => forall g y g', f x g = Ok (y, g') -> q y = true) l ->
  forall g ys g', mapM f l g = Ok (ys, g') -> forallb q ys = true.
Proof.
  induction 1 as [|x l Hx Hl IH]; intros g ys g' H; simpl in H.
  - inv_ret H. reflexivity.
  - inv_bind H as y g1 Hy. inv_bind H as ys' g2 Hys. inv_ret H.
    simpl. rewrite (Hx _ _ _ Hy), (IH _ _ _ Hys). reflexivity.
Qed.

Lemma mapM_Ok_Forall2' {A B} (f : A -> M B) (R : A -> B -> Prop)
      (l : list A) :
  (forall x g y g', f x g = Ok (y, g') -> R x y) ->
  forall g ys g', mapM f l g = Ok (ys, g') -> Forall2 R l ys.
Proof.
  intros HR. induction l as [|x l IH]; intros g ys g' H; simpl in H.
  - inv_ret H. constructor.
  - inv_bind H as y g1 Hy. inv_bind H as ys' g2 Hys. inv_ret H.
    constructor; [eapply HR; exact Hy | eapply IH; exact Hys].
Qed.

Lemma search_indexed_tlist_for_sortgroupref_addresses node ref itlist slot nv :
  search_indexed_tlist_for_sortgroupref node ref itlist slot = Some nv ->
  addresses slot (tlist itlist) nv = true.
Proof.
  unfold search_indexed_tlist_for_sortgroupref.
  destruct (find _ (tlist itlist)) as [tle|] eqn:F; [| discriminate].
  apply find_some in F. destruct F as [Hin _].
  intros H. inversion H. unfold addresses. simpl.
  rewrite Z.eqb_refl, (position_of_In _ _ Hin). reflexivity.
Qed.

Lemma set_upper_references_tle_resolved (tl : list TargetEntry)
      (rtoffset : Z) (tle : TargetEntry) glob tle' glob' :
  set_upper_references_tle (build_tlist_index tl) rtoffset tle glob
  = Ok (tle', glob') ->
  upper_resolved tl (expr tle') = true /\ same_labels tle tle'.
Proof.
  destruct (build_tlist_index_wf tl) as [Hwf Htl].
  unfold set_upper_references_tle. intros H.
  inv_bind H as e g1 He. inv_ret H. split; [| reflexivity].
  cbn [set_expr expr flatCopyTargetEntry].
  assert (Hfix : forall g e' g',
             fix_upper_expr_mutator
               (mk_fix_upper_expr_context (build_tlist_index tl) rtoffset)
               (expr tle) g = Ok (e', g') ->
             upper_resolved tl e' = true).
  { intros g e' g' Hm.
    pose proof (@fix_upper_expr_mutator_resolved _ _ _ _ _ _ Hwf Hm) as R.
    rewrite Htl in R. exact R. }
  destruct (IsA_Grouping (expr tle) || IsA_GroupId (expr tle)) eqn:G.
  - inv_ret He. destruct (expr tle); try discriminate G; reflexivity.
  - destruct (negb (ressortgroupref tle =? 0) && negb (IsA_Var (expr tle))).
    + destruct (search_indexed_tlist_for_sortgroupref _ _ _ _) as [nv|] eqn:S.
      * inv_ret He. apply search_indexed_tlist_for_sortgroupref_addresses in S.
        rewrite Htl in S. unfold upper_resolved. cbn [node_all].
        rewrite S. reflexivity.
      * eapply Hfix. exact He.
    + eapply Hfix. exact He.
Qed.

(** X5.  An upper node (aggregate, window aggregate, projection over a
    child, ...) that comes out of [set_upper_references] addresses its
    child and nothing else: in every expression of its output list and of
    its filter, each variable is on the left-child sentinel with, as
    attribute, a position that the child's output list declares, and no
    placeholder is left.  The entries keep their labels, and the node its
    kind, its children and its own fields. *)
Theorem upper_node_addresses_child :
  forall (plan subplan : Plan) (rtoffset : Z)
         (glob : PlannerGlobal) (plan' : Plan) (glob' : PlannerGlobal),
    lefttree plan = Some subplan ->
    set_upper_references plan rtoffset glob = Ok (plan', glob') ->
    forallb (fun tle => upper_resolved (targetlist subplan) (expr tle))
            (targetlist plan') = true /\
    forallb (upper_resolved (targetlist subplan)) (qual plan') = true /\
    Forall2 same_labels (targetlist plan) (targetlist plan') /\
    type plan' = type plan /\ lefttree plan' = lefttree plan /\
    righttree plan' = righttree plan /\ fields plan' = fields plan.
Proof.
  intros plan subplan rtoffset glob plan' glob' Hleft Hrun.
  unfold set_upper_references in Hrun. rewrite Hleft in Hrun.
  cbn [deref] in Hrun.
  inv_bind Hrun as sp g0 Hsp. apply ret_Ok in Hsp. destruct Hsp as [<- <-].
  inv_bind Hrun as tl g1 Htl. inv_bind Hrun as q g2 Hq. inv_ret Hrun.
  destruct plan; cbn.
  cbn [targetlist qual] in Htl, Hq.
  destruct (build_tlist_index_wf (targetlist subplan))
    as [Hwf Htlist].
  repeat split.
  - eapply (@mapM_Ok_all _ _ _ (fun tle => upper_resolved _ (expr tle)));
      [| exact Htl].
    apply Forall_forall. intros tle _ g y g' Hy.
    apply set_upper_references_tle_resolved in Hy. apply Hy.
  - eapply mapM_Ok_all; [| exact Hq].
    apply Forall_forall. intros e _ g y g' Hy.
    pose proof (@fix_upper_expr_mutator_resolved _ _ _ _ _ _ Hwf Hy) as R.
    rewrite Htlist in R. exact R.
  - eapply mapM_Ok_Forall2'; [| exact Htl].
    intros tle g y g' Hy.
    apply set_upper_references_tle_resolved in Hy. apply Hy.
Qed.

Lemma fix_join_resolved (outer_tl inner_tl : list TargetEntry)
      (rtoffset : Z) (uo ui : bool) (e : Node) glob r glob' :
  fix_join_expr_mutator
    (mk_fix_join_expr_context (build_tlist_index outer_tl)
       (Some (build_tlist_index inner_tl)) 0 rtoffset uo ui) e glob
  = Ok (r, glob') ->
  join_resolved outer_tl inner_tl 0 r = true.
Proof.
  intros H.
  destruct (build_tlist_index_wf outer_tl) as [Hwo Hto].
  destruct (build_tlist_index_wf inner_tl) as [Hwi Hti].
  pose proof (@fix_join_expr_mutator_resolved
                (mk_fix_join_expr_context (build_tlist_index outer_tl)
                   (Some (build_tlist_index inner_tl)) 0 rtoffset uo ui)
                _ _ _ _ Hwo Hwi H) as R.
  cbn [outer_itlist inner_itlist inner_tlist acceptable_rel] in R.
  rewrite Hto, Hti in R. exact R.
Qed.

Lemma fix_join_expr_resolved (outer_tl inner_tl : list TargetEntry)
      (rtoffset : Z) (l : list Node) glob l' glob' :
  fix_join_expr l (build_tlist_index outer_tl)
                (Some (build_tlist_index inner_tl)) 0 rtoffset glob
  = Ok (l', glob') ->
  forallb (join_resolved outer_tl inner_tl 0) l' = true.
Proof.
  unfold fix_join_expr. intros H.
  eapply mapM_Ok_all; [| exact H].
  apply Forall_forall. intros e _ g y g' Hy.
  eapply fix_join_resolved. exact Hy.
Qed.

Lemma fix_hashclauses_resolved (outer_tl inner_tl : list TargetEntry)
      (rtoffset : Z) (l : list Node) glob l' glob' :
  fix_hashclauses l (build_tlist_index outer_tl)
                  (Some (build_tlist_index inner_tl)) 0 rtoffset glob
  = Ok (l', glob') ->
  forallb (join_resolved outer_tl inner_tl 0) l' = true.
Proof.
  unfold fix_hashclauses. intros H.
  eapply mapM_Ok_all; [| exact H].
  apply Forall_forall. intros e _ g y g' Hy.
  unfold fix_hashclause in Hy.
  destruct e as [| | | | | |t o f r0 args| | | | | |]; try discriminate Hy.
  destruct args as [|oa [|ia rest]]; try discriminate Hy.
  inv_bind Hy as no g1 Hno. inv_bind Hy as ni g2 Hni.
  inv_bind Hy as un g3 Hc. inv_ret Hy.
  unfold fix_child_hashclauses in Hno, Hni.
  assert (Ro : join_resolved outer_tl inner_tl 0 no = true).
  { destruct (INNER =? OUTER); eapply fix_join_resolved; exact Hno. }
  assert (Ri : join_resolved outer_tl inner_tl 0 ni = true).
  { destruct (INNER =? INNER); eapply fix_join_resolved; exact Hni. }
  unfold join_resolved in *. cbn [fix_expr_common_node node_all forallb].
  rewrite Ro, Ri. reflexivity.
Qed.

(** X6.  A join node that comes out of [set_join_references] addresses
    its two children and nothing else: in every expression of its output
    list, of its filter and of the clauses of its own struct (join
    condition, merge, hash and hash-filter clauses), each variable is on
    the left-child sentinel or on the right-child sentinel with, as
    attribute, a position that the respective child's output list
    declares (or is on relation slot 0, which the fixer is told to
    accept), and no placeholder is left; each parameter of a nested loop
    takes a position of the left child.  The node keeps its kind and its
    children. *)
Theorem join_node_addresses_children :
  forall (join outer_plan inner_plan : Plan) (rtoffset : Z)
         (glob : PlannerGlobal) (join' : Plan) (glob' : PlannerGlobal),
    lefttree join = Some outer_plan ->
    righttree join = Some inner_plan ->
    set_join_references join rtoffset glob = Ok (join', glob') ->
    let resolved :=
      join_resolved (targetlist outer_plan) (targetlist inner_plan) 0 in
    forallb (fun tle => resolved (expr tle)) (targetlist join') = true /\
    forallb resolved (qual join') = true /\
    join_fields_resolved (targetlist outer_plan) (targetlist inner_plan)
                         (fields join') = true /\
    Forall2 same_labels (targetlist join) (targetlist join') /\
    type join' = type join /\ lefttree join' = lefttree join /\
    righttree join' = righttree join.
Proof.
  intros join outer_plan inner_plan rtoffset glob join' glob'
         Hleft Hright Hrun resolved.
  unfold set_join_references in Hrun. rewrite Hleft, Hright in Hrun.
  cbn [deref] in Hrun.
  inv_bind Hrun as op g0 Hop. apply ret_Ok in Hop. destruct Hop as [<- <-].
  inv_bind Hrun as ip g0' Hip. apply ret_Ok in Hip. destruct Hip as [<- <-].
  inv_bind Hrun as tl g1 Htl. inv_bind Hrun as q g2 Hq.
  inv_bind Hrun as x g3 Hx. inv_ret Hrun.
  assert (Hfields :
            join_fields_resolved (targetlist outer_plan)
                                 (targetlist inner_plan) x = true).
  { destruct (type join); try discriminate Hx;
      destruct (fields join); try discriminate Hx.
    - inv_bind Hx as jq g4 Hjq. inv_bind Hx as np g5 Hnp. inv_ret Hx.
      cbn [join_fields_resolved].
      rewrite (fix_join_expr_resolved _ _ _ _ _ Hjq). cbn [andb].
      eapply (@mapM_Ok_all _ _ _
                (fun nlp => addresses OUTER _ (paramval nlp)));
        [| exact Hnp].
      apply Forall_forall. intros nlp _ g y g' Hy.
      inv_bind Hy as v g6 Hv.
      cbn [fix_upper_expr_mutator subplan_itlist upper_rtoffset] in Hv.
      destruct (search_indexed_tlist_for_var _ _ _ _) as [nv|] eqn:S;
        [| discriminate Hv].
      inv_ret Hv. inv_ret Hy. cbn [paramval].
      destruct (build_tlist_index_wf (targetlist outer_plan)) as [Hwo Hto].
      pose proof (@search_indexed_tlist_for_var_addresses _ _ _ _ _ Hwo S)
        as R.
      rewrite Hto in R. exact R.
    - inv_bind Hx as jq g4 Hjq. inv_bind Hx as mc g5 Hmc. inv_ret Hx.
      cbn [join_fields_resolved].
      rewrite (fix_join_expr_resolved _ _ _ _ _ Hjq),
              (fix_join_expr_resolved _ _ _ _ _ Hmc). reflexivity.
    - inv_bind Hx as jq g4 Hjq. inv_bind Hx as hc g5 Hhc.
      inv_bind Hx as hq g6 Hhq. inv_ret Hx.
      cbn [join_fields_resolved].
      rewrite (fix_join_expr_resolved _ _ _ _ _ Hjq),
              (fix_hashclauses_resolved _ _ _ _ _ Hhc),
              (fix_join_expr_resolved _ _ _ _ _ Hhq). reflexivity. }
  destruct join; cbn. cbn [targetlist qual] in Htl, Hq.
  repeat split.
  - unfold fix_join_tlist, mutate_tlist in Htl.
    eapply (@mapM_Ok_all _ _ _ (fun tle => resolved (expr tle)));
      [| exact Htl].
    apply Forall_forall. intros tle _ g y g' Hy.
    inv_bind Hy as e g4 He. inv_ret Hy. cbn [set_expr expr].
    eapply fix_join_resolved. exact He.
  - eapply fix_join_expr_resolved. exact Hq.
  - exact Hfields.
  - unfold fix_join_tlist, mutate_tlist in Htl.
    eapply mapM_Ok_Forall2'; [| exact Htl].
    intros tle g y g' Hy. inv_bind Hy as e g4 He. inv_ret Hy. reflexivity.
Qed.

End ResolvedOutputs.

Lemma upper_node_addresses_child_witness :
  exists plan' glob',
    set_upper_references (cat := Example.catalog) JoinSample.group_plan 0
                         Example.glob0 = Ok (plan', glob') /\
    (forallb (fun tle => upper_resolved (cat := Example.catalog)
                           (targetlist JoinSample.grouped_scan) (expr tle))
             (targetlist plan') = true /\
     forallb (upper_resolved (cat := Example.catalog)
                (targetlist JoinSample.grouped_scan)) (qual plan') = true /\
     Forall2 same_labels (targetlist JoinSample.group_plan)
             (targetlist plan') /\
     type plan' = type JoinSample.group_plan /\
     lefttree plan' = lefttree JoinSample.group_plan /\
     righttree plan' = righttree JoinSample.group_plan /\
     fields plan' = fields JoinSample.group_plan).
Proof.
  eexists. eexists. split; [vm_compute; reflexivity |].
  eapply (@upper_node_addresses_child Example.catalog JoinSample.group_plan
           JoinSample.grouped_scan 0 Example.glob0).
  - reflexivity.
  - vm_compute. reflexivity.
Defined.

Lemma join_node_addresses_children_witness :
  exists join' glob',
    set_join_references (cat := Example.catalog) JoinSample.hash_join 0
                        Example.glob0 = Ok (join', glob') /\
    (forallb (fun tle => join_resolved (cat := Example.catalog)
                           (targetlist JoinSample.outer_plan)
                           (targetlist JoinSample.inner_plan) 0 (expr tle))
             (targetlist join') = true /\
     forallb (join_resolved (cat := Example.catalog)
                (targetlist JoinSample.outer_plan)
                (targetlist JoinSample.inner_plan) 0) (qual join') = true /\
     join_fields_resolved (cat := Example.catalog)
       (targetlist JoinSample.outer_plan)
       (targetlist JoinSample.inner_plan) (fields join') = true /\
     Forall2 same_labels (targetlist JoinSample.hash_join)
             (targetlist join') /\
     type join' = type JoinSample.hash_join /\
     lefttree join' = lefttree JoinSample.hash_join /\
     righttree join' = righttree JoinSample.hash_join).
Proof.
  eexists. eexists. split; [vm_compute; reflexivity |].
  eapply (@join_node_addresses_children Example.catalog JoinSample.hash_join
           JoinSample.outer_plan JoinSample.inner_plan 0 Example.glob0).
  - reflexivity.
  - reflexivity.
  - vm_compute. reflexivity.
Defined.

(** ** RETURNING lists *)

Section Returning.
Context {cat : Catalog}.

#[local] Arguments fix_expr_common : simpl never.
#[local] Arguments expression_tree_mutator : simpl never.

Lemma mapM_Ok_map {A B} (f : A -> M B) (h : A -> B) (l : list A) :
  Forall (fun x => forall g y g', f x g = Ok (y, g') -> y = h x) l ->
  forall g ys g', mapM f l g = Ok (ys, g') -> ys = map h l.
Proof.
  intros HF g ys g' H. apply Forall2_eq_map.
  eapply mapM_Ok_Forall2; [| exact H]. exact HF.
Qed.

(** A node that is neither variable nor placeholder, rebuilt around
    children that only had their operator handles filled in, only has its
    operator handles filled in. *)
Lemma rebuilt_fix_opfuncids (mutator : Node -> M Node) (n : Node)
      glob r glob' :
  IsA_Var n = false -> IsA_PlaceHolderVar n = false ->
  (fix_expr_common n ;;;
   n' <- expression_tree_mutator mutator n ;;
   ret (fix_expr_common_node n')) glob = Ok (r, glob') ->
  match n with
  | T_ArrayCoerceExpr e _ | T_RelabelType e _ =>
      forall g x g', mutator e g = Ok (x, g') -> x = fix_opfuncids e
  | T_Aggref _ l | T_WindowFunc _ l | T_FuncExpr _ _ l | T_OpExpr _ _ _ _ l
  | T_ScalarArrayOpExpr _ _ _ l | T_Expr _ l =>
      Forall (fun e => forall g x g',
                  mutator e g = Ok (x, g') -> x = fix_opfuncids e) l
  | _ => True
  end ->
  r = fix_opfuncids n.
Proof.
  intros Hv Hph Hrun Hkids.
  inv_bind Hrun as un g1 Hc. inv_bind Hrun as n' g2 Hm. inv_ret Hrun.
  destruct n; try discriminate Hv; try discriminate Hph;
    unfold expression_tree_mutator in Hm;
    try (inv_ret Hm; reflexivity);
    inv_bind Hm as x g3 Hx; inv_ret Hm;
    cbn [fix_expr_common_node fix_opfuncids];
    first [ eapply mapM_Ok_map in Hx; [| exact Hkids]; subst; reflexivity
          | apply Hkids in Hx; subst; reflexivity ].
Qed.

Lemma shift_varnoold_0 (var : Var) :
  is_Index (varnoold var) = true -> shift_varnoold (copyVar var) 0 = var.
Proof.
  intros H. unfold shift_varnoold, copyVar, set_varnoold.
  rewrite (Index_add_0 _ H). destruct (0 <? varnoold var); [| reflexivity].
  destruct var; reflexivity.
Qed.

Lemma other_vars_search_None (tl : list TargetEntry) (rel : Index)
      (var : Var) (slot : Index) (rtoffset : Z) :
  varno var = rel ->
  search_indexed_tlist_for_var var (build_tlist_index_other_vars tl rel)
                               slot rtoffset = None.
Proof.
  intros Hrel. unfold search_indexed_tlist_for_var.
  destruct (build_tlist_index_other_vars_wf tl rel) as (_ & _ & _ & Hno).
  destruct (find _ _) as [vinfo|] eqn:F; [| reflexivity].
  apply find_some in F. destruct F as [Hin Hm].
  rewrite Forall_forall in Hno. specialize (Hno _ Hin).
  apply andb_true_iff in Hm. destruct Hm as [Hm _].
  apply Z.eqb_eq in Hm. congruence.
Qed.

Lemma returning_mutator_keeps (tl : list TargetEntry) (rel : Index)
      (e : Node) :
  of_relation rel e = true ->
  forall glob r glob',
    fix_join_expr_mutator
      (mk_fix_join_expr_context (build_tlist_index_other_vars tl rel) None
                                rel 0 true true) e glob = Ok (r, glob') ->
    r = fix_opfuncids e.
Proof.
  destruct (build_tlist_index_other_vars_wf tl rel) as (_ & _ & Hnv & _).
  unfold of_relation.
  induction e as [v|c|e i IHe|f l IH|f l IH|f r0 l IH|t o f r0 l IH
                  |o f u l IH|e f IHe|e t IHe| | |t l IH] using Node_ind';
    intros Hall glob r glob' Hrun;
    cbn [fix_join_expr_mutator] in Hrun;
    cbn [node_all] in Hall.
  1: { apply andb_true_iff in Hall. destruct Hall as [Hall _].
       apply andb_true_iff in Hall. destruct Hall as [Hrel Hidx].
       unfold join_search_var in Hrun.
       cbn [outer_itlist inner_itlist join_rtoffset acceptable_rel] in Hrun.
       rewrite other_vars_search_None in Hrun
         by (apply Z.eqb_eq; exact Hrel).
       rewrite Hrel in Hrun. inv_ret Hrun.
       rewrite (shift_varnoold_0 _ Hidx). reflexivity. }
  2: { discriminate Hall. }
  all: unfold join_search_outer_non_var, join_search_inner_non_var in Hrun;
    cbn [outer_itlist inner_itlist] in Hrun;
    rewrite Hnv in Hrun; cbn [andb] in Hrun;
    refine (@rebuilt_fix_opfuncids _ _ _ _ _ _ _ Hrun _);
    [ reflexivity | reflexivity | ];
    first [ exact I
          | intros g x g' Hx; eapply IHe; [exact Hall | exact Hx]
          | apply forallb_Forall in Hall;
            apply Forall_forall; intros e He g x g' Hx;
            rewrite Forall_forall in IH, Hall;
            eapply IH; [exact He | apply Hall; exact He | exact Hx] ].
Qed.

(** X7.  In a RETURNING list that comes out of
    [set_returning_clause_references], every entry keeps its labels; each
    variable of its expression either is on the result relation or takes,
    from the left-child sentinel, a position that the top plan's output
    list declares, and no placeholder is left; and an expression that
    only used the result relation comes back as it was, but for the
    operator handles that are filled in: variables of the result relation
    are left alone and no part of it is replaced by a reference to the
    top plan's output. *)
Theorem returning_clause_references :
  forall (rlist : list TargetEntry) (topplan : Plan)
         (resultRelation : Index) (glob : PlannerGlobal)
         (rlist' : list TargetEntry) (glob' : PlannerGlobal),
    set_returning_clause_references rlist topplan resultRelation glob
    = Ok (rlist', glob') ->
    Forall2 (returning_entry_fixed topplan resultRelation) rlist rlist'.
Proof.
  intros rlist topplan rel glob rlist' glob' Hrun.
  unfold set_returning_clause_references, fix_join_tlist, mutate_tlist
    in Hrun.
  eapply mapM_Ok_Forall2'; [| exact Hrun].
  intros tle g y g' Hy. inv_bind Hy as e g1 He. inv_ret Hy.
  unfold returning_entry_fixed. cbn [set_expr expr].
  split; [reflexivity |]. split.
  - destruct (build_tlist_index_other_vars_wf (targetlist topplan) rel)
      as (Htl & Hwf & _ & _).
    pose proof (@fix_join_expr_mutator_resolved _
                  (mk_fix_join_expr_context
                     (build_tlist_index_other_vars (targetlist topplan) rel)
                     None rel 0 true true)
                  _ _ _ _ Hwf eq_refl He) as R.
    cbn [outer_itlist inner_itlist inner_tlist acceptable_rel] in R.
    rewrite Htl in R. exact R.
  - intros Hof. eapply returning_mutator_keeps; [exact Hof | exact He].
Qed.

End Returning.

Lemma returning_clause_references_witness :
  exists rlist' glob',
    set_returning_clause_references (cat := Example.catalog)
      [Example.tle (T_OpExpr OpExprTag 551 0 false
                             [T_Var (Example.var 1 1);
                              T_Const (Example.int4 1)]) 1;
       Example.tle (T_Var (Example.var 2 1)) 2]
      (Example.scan T_SeqScan 1 [Example.tle (T_Var (Example.var 1 1)) 1;
                                 Example.tle (T_Var (Example.var 2 1)) 2])
      1 Example.glob0 = Ok (rlist', glob') /\
    Forall2 (returning_entry_fixed (cat := Example.catalog)
               (Example.scan T_SeqScan 1
                  [Example.tle (T_Var (Example.var 1 1)) 1;
                   Example.tle (T_Var (Example.var 2 1)) 2]) 1)
            [Example.tle (T_OpExpr OpExprTag 551 0 false
                                   [T_Var (Example.var 1 1);
                                    T_Const (Example.int4 1)]) 1;
             Example.tle (T_Var (Example.var 2 1)) 2]
            rlist'.
Proof.
  eexists. eexists. split; [vm_compute; reflexivity |].
  eapply (@returning_clause_references Example.catalog _ _ _ Example.glob0).
  vm_compute. reflexivity.
Defined.

(** ** Result relations of data-modifying nodes *)

Section ResultRelations.
Context {cat : Catalog}.

Lemma fix_flow_keeps (plan : Plan) (rtoffset : Z) glob p glob' :
  fix_flow plan rtoffset glob = Ok (p, glob') ->
  type p = type plan /\ targetlist p = targetlist plan /\
  qual p = qual plan /\ lefttree p = lefttree plan /\
  righttree p = righttree plan /\ fields p = fields plan.
Proof.
  unfold fix_flow. intros H.
  destruct (flow plan) as [fl|]; [destruct (hashExpr fl) |].
  - inv_ret H. repeat split.
  - inv_bind H as he g1 Hhe. inv_ret H. destruct plan. repeat split.
  - inv_ret H. repeat split.
Qed.

(** X8.  A data-modifying node comes out of [set_plan_refs] with its
    result relations shifted by the offset and with [resultRelIndex]
    pointing at them in the global list: the global list of result
    relations is, in the end, some list of length [resultRelIndex] that
    begins with what the list held before, then the node's shifted
    relations, then whatever was added later. *)
Theorem result_relations_indexed :
  forall (fuel : nat) (plan : Plan) (rtoffset : Z)
         (relations : list Z) (rowMarks : list PlanRowMark)
         (plans : list Plan) (index : Z)
         (glob : PlannerGlobal) (plan' : Plan) (glob' : PlannerGlobal),
    type plan = T_ModifyTable ->
    fields plan = ModifyTableFields relations rowMarks plans index ->
    set_plan_refs fuel (Some plan) rtoffset glob = Ok (Some plan', glob') ->
    exists plans' before after,
      fields plan' =
        ModifyTableFields (map (fun r => int_add r rtoffset) relations)
                          (map (shift_rowmark rtoffset) rowMarks)
                          plans' (list_length before) /\
      resultRelations glob' =
        before ++ map (fun r => int_add r rtoffset) relations ++ after /\
      list_prefix (resultRelations glob) before.
Proof.
  intros fuel plan rtoffset relations rowMarks plans index glob plan' glob'
         Htype Hfields Hrun.
  apply set_plan_refs_node_for_node in Hrun.
  destruct Hrun as (fuel' & returned & -> & Hnode & Hp).
  injection Hp as ->.
  unfold set_plan_refs_node in Hnode.
  inv_bind Hnode as p1 g2 Hflow. inv_bind Hnode as step g3 Hd.
  pose proof Hflow as P1. apply appends_fix_flow in P1.
  destruct P1 as (_ & _ & _ & _ & P1).
  apply fix_flow_keeps in Hflow.
  destruct Hflow as (Ht1 & _ & _ & _ & _ & Hf1).
  unfold set_plan_refs_dispatch in Hd. cbv zeta in Hd.
  rewrite Ht1, Htype in Hd. cbv beta iota in Hd.
  rewrite Hf1, Hfields in Hd.
  inv_bind Hd as plans' g4 Hplans. inv_bind Hd as idx g5 Hidx.
  inv_bind Hd as un g6 Hcat. inv_ret Hd.
  pose proof Hplans as P2.
  eapply appends_set_plan_refs_list in P2; [| apply appends_set_plan_refs].
  destruct P2 as (_ & _ & _ & _ & P2).
  unfold list_length_resultRelations in Hidx. inversion Hidx; subst idx g5.
  unfold list_concat_resultRelations in Hcat. inversion Hcat; subst g3.
  clear Hidx Hcat.
  inv_bind Hnode as l g7 Hl. inv_bind Hnode as r0 g8 Hr0. inv_ret Hnode.
  pose proof Hl as P3. apply appends_set_plan_refs_returned in P3.
  destruct P3 as (_ & _ & _ & _ & P3).
  pose proof Hr0 as P4. apply appends_set_plan_refs in P4.
  destruct P4 as (_ & _ & _ & _ & P4).
  cbn [resultRelations] in P3.
  destruct (list_prefix_trans P3 P4) as [after Hafter].
  exists plans', (resultRelations g4), after. repeat split.
  - rewrite Hafter, <- app_assoc. reflexivity.
  - eapply list_prefix_trans; eassumption.
Qed.

End ResultRelations.

Lemma result_relations_indexed_witness :
  exists plan' glob' plans' before after,
    set_plan_refs (cat := Example.catalog) 2 (Some ModifySample.modify) 3
                  ModifySample.glob = Ok (Some plan', glob') /\
    fields plan' =
      ModifyTableFields (map (fun r => int_add r 3) [1; 2])
                        (map (shift_rowmark 3) []) plans'
                        (list_length before) /\
    resultRelations glob' =
      before ++ map (fun r => int_add r 3) [1; 2] ++ after /\
    list_prefix (resultRelations ModifySample.glob) before.
Proof.
  eexists. eexists.
  assert (Hrun : set_plan_refs (cat := Example.catalog) 2
                   (Some ModifySample.modify) 3 ModifySample.glob
                 = Ok (Some _, _)) by (vm_compute; reflexivity).
  destruct (@result_relations_indexed Example.catalog 2 ModifySample.modify
              3 [1; 2] []
              [Example.scan T_SeqScan 1
                 [Example.tle (T_Var (Example.var 1 1)) 1]] 0
              ModifySample.glob _ _ eq_refl eq_refl Hrun)
    as (plans' & before & after & H).
  exists plans', before, after. split; [exact Hrun | exact H].
Defined.

(** ** The kind of the node that comes back *)

Section Kind.
Context {cat : Catalog}.

Lemma fix_scan_plan_type (plan : Plan) (rtoffset : Z) glob p glob' :
  fix_scan_plan plan rtoffset glob = Ok (p, glob') -> type p = type plan.
Proof.
  unfold fix_scan_plan. intros H.
  inv_bind H as tl g1 Htl. inv_bind H as q g2 Hq. inv_ret H.
  destruct plan; reflexivity.
Qed.

Lemma set_upper_references_type (plan : Plan) (rtoffset : Z) glob p glob' :
  set_upper_references plan rtoffset glob = Ok (p, glob') ->
  type p = type plan.
Proof.
  unfold set_upper_references. intros H.
  inv_bind H as sp g0 Hsp. inv_bind H as tl g1 Htl.
  inv_bind H as q g2 Hq. inv_ret H. destruct plan; reflexivity.
Qed.

Lemma set_join_references_type (plan : Plan) (rtoffset : Z) glob p glob' :
  set_join_references plan rtoffset glob = Ok (p, glob') ->
  type p = type plan.
Proof.
  unfold set_join_references. intros H.
  inv_bind H as op g0 Hop. inv_bind H as ip g0' Hip.
  inv_bind H as tl g1 Htl. inv_bind H as q g2 Hq.
  inv_bind H as x g3 Hx. inv_ret H. destruct plan; reflexivity.
Qed.

Lemma set_flow_at_type (depth : nat) (plan : Plan) (f : option Flow) :
  type (set_flow_at depth plan f) = type plan.
Proof. destruct depth; destruct plan; reflexivity. Qed.

Section KindRecursion.
Variable rec : option Plan -> Z -> M (option Returned).
Hypothesis rec_kind :
  forall plan rtoffset glob r glob',
    rec plan rtoffset glob = Ok (r, glob') ->
    kind_kept_opt plan (option_map returned_plan r).

Lemma cdb_insert_result_node_type (plan : Plan) (rtoffset : Z) glob p glob' :
  cdb_insert_result_node rec plan rtoffset glob = Ok (p, glob') ->
  type (returned_plan p) = T_Result.
Proof.
  unfold cdb_insert_result_node. intros H.
  inv_bind H as r g1 Hr. inv_bind H as rp g2 Hrp.
  apply rec_kind in Hr. destruct r as [rp'|]; [| discriminate Hrp].
  inv_ret Hrp. cbn [kind_kept_opt option_map] in Hr.
  assert (Hty : type (returned_plan rp) = T_Result).
  { destruct Hr as [Hr | [Hr | [_ Hr]]];
      [exact Hr | discriminate Hr | exact Hr]. }
  destruct rp as [rp [depth|]|rp given]; inv_ret H;
    cbn [returned_plan] in *; rewrite ?set_flow_at_type;
    destruct rp; assumption.
Qed.

Ltac kind_inv H :=
  repeat first
    [ match type of H with
      | ret _ _ = Ok _ => inv_ret H
      | raise _ _ = Ok _ => discriminate H
      | bind _ _ _ = Ok _ =>
          let a := fresh "a" in
          let g := fresh "g" in
          let H1 := fresh "Hm" in
          inv_bind H as a g H1
      | (if ?b then _ else _) _ = Ok _ => destruct b eqn:?
      | (match ?x with _ => _ end) _ = Ok _ =>
          destruct x eqn:?; try discriminate H
      end ].

Ltac kind_facts :=
  repeat match goal with
         | H : (match ?x with _ => _ end) _ = Ok _ |- _ =>
             destruct x eqn:?; kind_inv H
         | H : fix_scan_plan _ _ _ = Ok _ |- _ =>
             apply fix_scan_plan_type in H
         | H : set_upper_references _ _ _ = Ok _ |- _ =>
             apply set_upper_references_type in H
         | H : set_join_references _ _ _ = Ok _ |- _ =>
             apply set_join_references_type in H
         | H : cdb_insert_result_node _ _ _ _ = Ok _ |- _ =>
             apply cdb_insert_result_node_type in H
         end.

Lemma set_plan_refs_dispatch_kind (plan : Plan) (rtoffset : Z)
      glob step glob' :
  set_plan_refs_dispatch rec plan rtoffset glob = Ok (step, glob') ->
  match step with
  | Break p => type p = type plan
  | Return p => kind_kept plan (returned_plan p)
  end.
Proof.
  unfold set_plan_refs_dispatch. cbv zeta. intros H.
  destruct (type plan) eqn:Et; kind_inv H; kind_facts;
    unfold kind_kept;
    try (right; right; split; assumption);
    try (right; left; assumption);
    try (left; destruct a; cbn in *; congruence);
    try (destruct plan; cbn in *; congruence);
    try (destruct a; cbn in *; congruence);
    try (repeat match goal with
                | |- context [match ?x with [] => _ | _ :: _ => _ end] =>
                    destruct x
                end;
         repeat match goal with p : Plan |- _ => destruct p end;
         cbn in *; congruence).
Qed.

Lemma set_plan_refs_node_kind (plan : Plan) (rtoffset : Z) glob p glob' :
  set_plan_refs_node rec plan rtoffset glob = Ok (p, glob') ->
  kind_kept plan (returned_plan p).
Proof.
  unfold set_plan_refs_node. intros H.
  inv_bind H as p1 g1 Hflow. inv_bind H as step g2 Hd.
  apply fix_flow_keeps in Hflow. destruct Hflow as (Ht & Htl & _).
  apply set_plan_refs_dispatch_kind in Hd.
  destruct step as [r|b].
  - inv_ret H. unfold kind_kept in *. rewrite <- Ht, <- Htl. exact Hd.
  - inv_bind H as l g3 Hl. inv_bind H as r g4 Hr. inv_ret H.
    left. rewrite <- Ht, <- Hd. destruct b; reflexivity.
Qed.

End KindRecursion.

(** X9.  [set_plan_refs] hands back NULL for NULL and a node for a node,
    and never changes the kind of a node but in two ways: a subquery
    wrapper may come back as something else, and a node whose output list
    needs full evaluation may come back as the projection node put on top
    of it. *)
Theorem set_plan_refs_keeps_kind :
  forall (fuel : nat) (plan : option Plan) (rtoffset : Z)
         (glob : PlannerGlobal) (r : option Plan) (glob' : PlannerGlobal),
    set_plan_refs fuel plan rtoffset glob = Ok (r, glob') ->
    kind_kept_opt plan r.
Proof.
  intros fuel plan rtoffset glob r glob' H.
  apply set_plan_refs_rec_Ok in H. destruct H as (returned & H & <-).
  revert plan rtoffset glob returned glob' H.
  induction fuel as [|fuel IH];
    intros [plan|] rtoffset glob returned glob' H;
    cbn [set_plan_refs_returned] in H.
  - discriminate H.
  - inv_ret H. exact I.
  - inv_bind H as p g1 Hp. inv_ret H. cbn [kind_kept_opt option_map].
    eapply set_plan_refs_node_kind; [exact IH | exact Hp].
  - inv_ret H. exact I.
Qed.

End Kind.

Lemma set_plan_refs_keeps_kind_witness :
  exists r glob',
    set_plan_refs (cat := Example.catalog) 3 (Some JoinSample.hash_join) 0
                  Example.sort_glob = Ok (r, glob') /\
    kind_kept_opt (cat := Example.catalog) (Some JoinSample.hash_join) r.
Proof.
  eexists. eexists. split; [vm_compute; reflexivity |].
  eapply (@set_plan_refs_keeps_kind Example.catalog 3
            (Some JoinSample.hash_join) 0 Example.sort_glob).
  vm_compute. reflexivity.
Defined.

(** ** Reuse of computed outputs *)

Section Reuse.
Context {cat : Catalog}.

Lemma list_eqb_refl {A} (eqb : A -> A -> bool) (l : list A) :
  Forall (fun x => eqb x x = true) l -> list_eqb eqb l l = true.
Proof.
  induction 1 as [|x l Hx Hl IH]; simpl; [reflexivity |].
  rewrite Hx, IH. reflexivity.
Qed.

Lemma equal_refl (e : Node) : equal e e = true.
Proof.
  induction e as [v|c|e i IHe|f l IH|f l IH|f r0 l IH|t o f r0 l IH
                  |o f u l IH|e f IHe|e t IHe| | |t l IH] using Node_ind';
    cbn [equal];
    rewrite ?Z.eqb_refl, ?Bool.eqb_reflx, ?IHe, ?(list_eqb_refl _ IH);
    try reflexivity.
  - unfold Var_eqb. rewrite !Z.eqb_refl. reflexivity.
  - unfold Const_eqb. rewrite !Z.eqb_refl, Bool.eqb_reflx. reflexivity.
  - destruct t; reflexivity.
Qed.

Lemma computed_entry_sets_has_non_vars (tle : TargetEntry) :
  IsA_Var (expr tle) = false -> IsA_PlaceHolderVar (expr tle) = false ->
  tle_sets_has_non_vars tle = true.
Proof.
  unfold tle_sets_has_non_vars. intros Hv Hph.
  destruct (expr tle); try discriminate; try reflexivity.
Qed.

Lemma computed_entry_found (tl : list TargetEntry) (e : Node) :
  IsA_Var e = false -> IsA_PlaceHolderVar e = false ->
  (exists tle, In tle tl /\ expr tle = e) ->
  has_non_vars (build_tlist_index tl) = true /\
  exists first, tlist_member e tl = Some first /\
                In first tl /\ equal e (expr first) = true /\
                forall slot,
                  search_indexed_tlist_for_non_var e (build_tlist_index tl)
                                                   slot
                  = Some (reference_to slot first).
Proof.
  intros Hv Hph (tle & Hin & He).
  rewrite build_tlist_index_spec. cbn [has_non_vars tlist]. split.
  - apply existsb_exists. exists tle. split; [exact Hin |].
    apply computed_entry_sets_has_non_vars; rewrite He; assumption.
  - unfold search_indexed_tlist_for_non_var, tlist_member. cbn [tlist].
    destruct (find (fun tle0 => equal e (expr tle0)) tl) as [first|] eqn:F.
    + exists first. apply find_some in F. destruct F as [Hf1 Hf2].
      repeat split; auto.
    + eapply find_none in F; [| exact Hin].
      rewrite He, equal_refl in F. discriminate F.
Qed.

(** X10.  An expression that the child already computes is not computed
    again.  When [e] (not a plain variable, a placeholder or a group id)
    is the expression of an entry of the child's output list, the
    upper-level fixer returns, for [e], the reference to the first entry
    of the list that is structurally equal to [e], and leaves the global
    state as it was: nothing inside [e] is looked at, no dependency is
    recorded and no lookup can fail.  The join-level fixer does the same
    with the outer child's list, whatever the inner child holds. *)
Theorem computed_output_reused :
  forall (tl : list TargetEntry) (rtoffset : Z) (e : Node)
         (glob : PlannerGlobal),
    IsA_Var e = false -> IsA_PlaceHolderVar e = false ->
    IsA_GroupId e = false ->
    (exists tle, In tle tl /\ expr tle = e) ->
    exists first,
      tlist_member e tl = Some first /\
      fix_upper_expr_mutator
        (mk_fix_upper_expr_context (build_tlist_index tl) rtoffset) e glob
      = Ok (T_Var (reference_to OUTER first), glob) /\
      forall inner acceptable ui,
        fix_join_expr_mutator
          (mk_fix_join_expr_context (build_tlist_index tl) inner acceptable
                                    rtoffset true ui) e glob
        = Ok (T_Var (reference_to OUTER first), glob).
Proof.
  intros tl rtoffset e glob Hv Hph Hg Hin.
  destruct (computed_entry_found tl Hv Hph Hin)
    as (Hnv & first & Hm & _ & _ & Hs).
  exists first. split; [exact Hm |]. split.
  - destruct e; try discriminate Hv; try discriminate Hph;
      try discriminate Hg;
      cbn [fix_upper_expr_mutator subplan_itlist IsA_GroupId negb];
      rewrite Hnv, Hs; reflexivity.
  - intros inner acceptable ui.
    destruct e; try discriminate Hv; try discriminate Hph;
      try discriminate Hg;
      cbn [fix_join_expr_mutator];
      unfold join_search_outer_non_var;
      cbn [outer_itlist use_outer_tlist_for_matching_nonvars];
      rewrite Hnv, Hs; reflexivity.
Qed.

End Reuse.

Lemma computed_output_reused_witness :
  exists first,
    tlist_member (T_FuncExpr 99999 false [T_Var (Example.var 1 2)])
      [Example.tle (T_Var (Example.var 1 1)) 1;
       Example.tle (T_FuncExpr 99999 false [T_Var (Example.var 1 2)]) 2]
    = Some first /\
    fix_upper_expr_mutator (cat := Example.catalog)
      (mk_fix_upper_expr_context
         (build_tlist_index
            [Example.tle (T_Var (Example.var 1 1)) 1;
             Example.tle (T_FuncExpr 99999 false [T_Var (Example.var 1 2)]) 2])
         0)
      (T_FuncExpr 99999 false [T_Var (Example.var 1 2)]) Example.glob0
    = Ok (T_Var (reference_to (cat := Example.catalog)
                   (OUTER (Catalog := Example.catalog)) first),
          Example.glob0) /\
    forall inner acceptable ui,
      fix_join_expr_mutator (cat := Example.catalog)
        (mk_fix_join_expr_context
           (build_tlist_index
              [Example.tle (T_Var (Example.var 1 1)) 1;
               Example.tle (T_FuncExpr 99999 false [T_Var (Example.var 1 2)])
                           2])
           inner acceptable 0 true ui)
        (T_FuncExpr 99999 false [T_Var (Example.var 1 2)]) Example.glob0
      = Ok (T_Var (reference_to (cat := Example.catalog)
                     (OUTER (Catalog := Example.catalog)) first),
            Example.glob0).
Proof.
  apply (@computed_output_reused Example.catalog
           [Example.tle (T_Var (Example.var 1 1)) 1;
            Example.tle (T_FuncExpr 99999 false [T_Var (Example.var 1 2)]) 2]
           0 (T_FuncExpr 99999 false [T_Var (Example.var 1 2)])
           Example.glob0); try reflexivity.
  exists (Example.tle (T_FuncExpr 99999 false [T_Var (Example.var 1 2)]) 2).
  split; [right; left; reflexivity | reflexivity].
Defined.

(** ** Dependencies of scan-level expressions *)

Section DependenciesRecorded.
Context {cat : Catalog}.

#[local] Arguments fix_expr_common : simpl never.
#[local] Arguments expression_tree_mutator : simpl never.

Lemma In_prefix {A} (x : A) (l l' : list A) :
  list_prefix l l' -> In x l -> In x l'.
Proof. intros [r ->] H. apply in_or_app. left. exact H. Qed.

Lemma function_recorded_extends funcid g g' :
  extends g g' -> function_recorded funcid g -> function_recorded funcid g'.
Proof.
  intros (_ & _ & _ & Hi & _) H Hf. destruct (H Hf) as (t & Ht & Hin).
  exists t. split; [exact Ht | eapply In_prefix; eassumption].
Qed.

Lemma dependency_recorded_extends n g g' :
  extends g g' -> dependency_recorded n g -> dependency_recorded n g'.
Proof.
  intros He H. pose proof He as (_ & _ & Hr & _ & _).
  destruct n; cbn [dependency_recorded] in *; auto;
    try (eapply function_recorded_extends; eassumption).
  - intros Hc. eapply In_prefix; [exact Hr | auto].
  - intros Hv. eapply function_recorded_extends; [exact He | auto].
Qed.

Lemma record_plan_function_dependency_records funcid g u g' :
  record_plan_function_dependency funcid g = Ok (u, g') ->
  function_recorded funcid g'.
Proof.
  unfold record_plan_function_dependency, function_recorded. intros H Hf.
  apply Z.leb_le in Hf. rewrite Hf in H.
  destruct (SearchSysCache1_PROCOID funcid) as [t|]; [| discriminate H].
  inversion H. exists t. split; [reflexivity |].
  cbn [invalItems]. apply in_or_app. right. left. reflexivity.
Qed.

Lemma fix_expr_common_records n g u g' :
  fix_expr_common n g = Ok (u, g') -> dependency_recorded n g'.
Proof.
  unfold fix_expr_common. intros H.
  destruct n; cbn [dependency_recorded]; auto;
    try (eapply record_plan_function_dependency_records; exact H).
  - intros Hc. rewrite Hc in H. unfold lappend_relationOid in H.
    inversion H. cbn [relationOids]. apply in_or_app. right. left.
    reflexivity.
  - intros Hv. rewrite Hv in H.
    eapply record_plan_function_dependency_records; exact H.
Qed.

Lemma mapM_all_recorded (f : Node -> M Node) (l : list Node) :
  (forall x, appends (f x)) ->
  Forall (fun x => forall g y g', f x g = Ok (y, g') -> all_recorded x g') l ->
  forall g ys g',
    mapM f l g = Ok (ys, g') ->
    forall x, In x l -> all_recorded x g'.
Proof.
  intros Hap. induction 1 as [|a l Ha Hl IH]; intros g ys g' H x Hin.
  - destruct Hin.
  - simpl in H. inv_bind H as y g1 Hy. inv_bind H as ys' g2 Hys. inv_ret H.
    destruct Hin as [<- | Hin].
    + intros n Hn. eapply dependency_recorded_extends.
      * eapply (appends_mapM f l Hap). exact Hys.
      * eapply Ha; eassumption.
    + eapply IH; eassumption.
Qed.

Lemma rebuilt_all_recorded (mutator : Node -> M Node) (n : Node)
      g r g' :
  (forall x, appends (mutator x)) ->
  IsA_Var n = false -> IsA_PlaceHolderVar n = false ->
  (fix_expr_common n ;;;
   n' <- expression_tree_mutator mutator n ;;
   ret (fix_expr_common_node n')) g = Ok (r, g') ->
  match n with
  | T_ArrayCoerceExpr e _ | T_RelabelType e _ =>
      forall g x g', mutator e g = Ok (x, g') -> all_recorded e g'
  | T_Aggref _ l | T_WindowFunc _ l | T_FuncExpr _ _ l | T_OpExpr _ _ _ _ l
  | T_ScalarArrayOpExpr _ _ _ l | T_Expr _ l =>
      Forall (fun e => forall g x g',
                  mutator e g = Ok (x, g') -> all_recorded e g') l
  | _ => True
  end ->
  all_recorded n g'.
Proof.
  intros Hap Hv Hph Hrun Hkids.
  inv_bind Hrun as un g1 Hc. inv_bind Hrun as n' g2 Hm. inv_ret Hrun.
  assert (Hext : extends g1 g').
  { eapply (appends_expression_tree_mutator mutator n); [| exact Hm].
    destruct n; first [exact I | apply Hap
                      | apply Forall_forall; intros; apply Hap]. }
  intros x Hx.
  destruct n; try discriminate Hv; try discriminate Hph;
    cbn [subnodes] in Hx;
    (destruct Hx as [<- | Hx];
     [ eapply dependency_recorded_extends;
       [exact Hext | eapply fix_expr_common_records; exact Hc] |]);
    try (destruct Hx; fail);
    unfold expression_tree_mutator in Hm;
    inv_bind Hm as y g3 Hy; inv_ret Hm;
    first [ apply in_flat_map in Hx; destruct Hx as (child & Hchild & Hx);
            assert (R : all_recorded child g')
              by (eapply mapM_all_recorded;
                  [exact Hap | exact Hkids | exact Hy | exact Hchild]);
            apply R; exact Hx
          | match type of Hx with
            | In _ (subnodes ?e) =>
                assert (R : all_recorded e g') by (eapply Hkids; exact Hy);
                apply R; exact Hx
            end ].
Qed.

Lemma fix_scan_expr_mutator_records context (e : Node) :
  forall g r g',
    fix_scan_expr_mutator context e g = Ok (r, g') -> all_recorded e g'.
Proof.
  induction e as [v|c|e i IHe|f l IH|f l IH|f r0 l IH|t o f r0 l IH
                  |o f u l IH|e f IHe|e t IHe| | |t l IH] using Node_ind';
    intros g r g' Hrun; cbn [fix_scan_expr_mutator] in Hrun.
  1: { intros n Hn. destruct Hn as [<- | []]. exact I. }
  2: { intros n Hn. destruct Hn as [<- | Hn]; [exact I |].
       eapply IHe; eassumption. }
  all: refine (@rebuilt_all_recorded _ _ _ _ _
                 (appends_fix_scan_expr_mutator context) _ _ Hrun _);
    [reflexivity | reflexivity | first [exact I | exact IHe | exact IH]].
Qed.

(** X11.  Scan-level fixing records every dependency of the expressions it
    is given: when [fix_scan_list] returns, then for every node anywhere
    inside the clauses, the relation named by a non-null regclass constant
    is in the list of relation dependencies, and the function invoked by a
    function call, aggregate, window function, operator or array coercion
    is, unless it is a built-in one, in the list of function
    dependencies. *)
Theorem scan_dependencies_recorded :
  forall (clauses : list Node) (rtoffset : Z)
         (glob : PlannerGlobal) (clauses' : list Node)
         (glob' : PlannerGlobal),
    fix_scan_list clauses rtoffset glob = Ok (clauses', glob') ->
    forall e n,
      In e clauses -> In n (subnodes e) -> dependency_recorded n glob'.
Proof.
  intros clauses rtoffset glob clauses' glob' Hrun e n He Hn.
  unfold fix_scan_list in Hrun.
  assert (R : all_recorded e glob').
  { eapply mapM_all_recorded; [| | exact Hrun | exact He].
    - apply appends_fix_scan_expr_mutator.
    - apply Forall_forall. intros x _.
      apply fix_scan_expr_mutator_records. }
  apply R. exact Hn.
Qed.

End DependenciesRecorded.

Lemma scan_dependencies_recorded_witness :
  exists clauses' glob',
    fix_scan_list (cat := Example.catalog) [DependencySample.clause] 0
                  Example.glob0 = Ok (clauses', glob') /\
    dependency_recorded (cat := Example.catalog)
      (T_Const DependencySample.regclass_const) glob' /\
    dependency_recorded (cat := Example.catalog)
      (T_FuncExpr 20000 false [T_Const DependencySample.regclass_const])
      glob'.
Proof.
  eexists. eexists. split; [vm_compute; reflexivity |].
  split.
  - eapply (@scan_dependencies_recorded Example.catalog
              [DependencySample.clause] 0 Example.glob0).
    + vm_compute. reflexivity.
    + left. reflexivity.
    + right. right. left. reflexivity.
  - eapply (@scan_dependencies_recorded Example.catalog
              [DependencySample.clause] 0 Example.glob0).
    + vm_compute. reflexivity.
    + left. reflexivity.
    + right. left. reflexivity.
Defined.

(** ** Variables of scan nodes *)

Section ScanShift.
Context {cat : Catalog}.

#[local] Arguments fix_expr_common : simpl never.
#[local] Arguments expression_tree_mutator : simpl never.

Lemma variables_fix_expr_common_node (n : Node) :
  variables (fix_expr_common_node n) = variables n.
Proof. destruct n; reflexivity. Qed.

Lemma forallb_flat_map {A B} (p : B -> bool) (f : A -> list B) (l : list A) :
  forallb p (flat_map f l) = forallb (fun x => forallb p (f x)) l.
Proof.
  induction l as [|x l IH]; simpl; [reflexivity |].
  rewrite forallb_app, IH. reflexivity.
Qed.

Lemma flat_map_shifted (rtoffset : Z) (l l' : list Node) :
  Forall2 (variables_shifted rtoffset) l l' ->
  flat_map variables l' = map (scan_shift rtoffset) (flat_map variables l).
Proof.
  induction 1 as [|x y l l' Hxy Hl IH]; simpl; [reflexivity |].
  rewrite map_app, IH, Hxy. reflexivity.
Qed.

Lemma mapM_shifted (f : Node -> M Node) (rtoffset : Z) (l : list Node) :
  Forall (fun x => no_pseudo_columns x = true ->
                   forall g y g', f x g = Ok (y, g') ->
                                  variables_shifted rtoffset x y) l ->
  forallb no_pseudo_columns l = true ->
  forall g ys g',
    mapM f l g = Ok (ys, g') -> Forall2 (variables_shifted rtoffset) l ys.
Proof.
  induction 1 as [|x l Hx Hl IH]; intros Hp g ys g' H; simpl in H.
  - inv_ret H. constructor.
  - simpl in Hp. apply andb_true_iff in Hp. destruct Hp as [Hpx Hpl].
    inv_bind H as y g1 Hy. inv_bind H as ys' g2 Hys. inv_ret H.
    constructor; [eapply Hx; eassumption | eapply IH; eassumption].
Qed.

Lemma fix_scan_expr_mutator_shifts (rtoffset : Z) (e : Node) :
  no_pseudo_columns e = true ->
  forall g r g',
    fix_scan_expr_mutator (mk_fix_scan_expr_context rtoffset) e g
    = Ok (r, g') ->
    variables_shifted rtoffset e r.
Proof.
  unfold no_pseudo_columns, variables_shifted.
  induction e as [v|c|e i IHe|f l IH|f l IH|f r0 l IH|t o f r0 l IH
                  |o f u l IH|e f IHe|e t IHe| | |t l IH] using Node_ind';
    intros Hp g r g' Hrun; cbn [fix_scan_expr_mutator] in Hrun;
    cbn [variables] in Hp |- *.
  1: { cbn [forallb] in Hp. rewrite andb_true_r in Hp.
       apply Z.ltb_lt in Hp. cbn [scan_rtoffset] in Hrun.
       assert (Ha : varattno (shift_varnoold
                                (set_varno (copyVar v)
                                   (Index_add (varno (copyVar v)) rtoffset))
                                rtoffset) = varattno v).
       { unfold shift_varnoold, copyVar.
         destruct (0 <? _); reflexivity. }
       rewrite Ha in Hrun.
       destruct (Z.leb_spec (varattno v) FirstLowInvalidHeapAttributeNumber)
         as [Hle|Hgt]; [lia |].
       inv_ret Hrun. reflexivity. }
  2: { eapply IHe; eassumption. }
  all: inv_bind Hrun as un g1 Hc; inv_bind Hrun as n' g2 Hm; inv_ret Hrun;
    rewrite variables_fix_expr_common_node;
    unfold expression_tree_mutator in Hm;
    first [ inv_ret Hm; reflexivity
          | inv_bind Hm as x g3 Hx; inv_ret Hm; cbn [variables];
            first [ apply flat_map_shifted;
                    rewrite forallb_flat_map in Hp;
                    eapply mapM_shifted; [exact IH | exact Hp | exact Hx]
                  | eapply IHe; eassumption ] ].
Qed.

(** How a plain scan node goes through [set_plan_refs]. *)
Lemma plain_scan_node (fuel : nat) (plan : Plan) (rtoffset : Z)
      (scanrelid : Index) glob plan' glob' :
  plain_scan_kind (type plan) = true ->
  fields plan = ScanFields scanrelid ->
  cdb_expr_requires_full_eval (targetlist plan) = false ->
  set_plan_refs fuel (Some plan) rtoffset glob = Ok (Some plan', glob') ->
  type plan' = type plan /\
  fields plan' = ScanFields (Index_add scanrelid rtoffset) /\
  exists g1 g2 g3,
    fix_scan_tlist (targetlist plan) rtoffset g1
    = Ok (targetlist plan', g2) /\
    fix_scan_list (qual plan) rtoffset g2 = Ok (qual plan', g3).
Proof.
  intros Hkind Hfields Hguard Hrun.
  apply set_plan_refs_node_for_node in Hrun.
  destruct Hrun as (fuel' & returned & -> & Hnode & Hr).
  injection Hr as ->.
  unfold set_plan_refs_node in Hnode.
  inv_bind Hnode as p1 g2 Hflow. inv_bind Hnode as step g3 Hd.
  apply fix_flow_keeps in Hflow.
  destruct Hflow as (Ht1 & Htl1 & Hq1 & _ & _ & Hf1).
  assert (Hstep : exists p,
             step = Break (set_fields p
                             (ScanFields (Index_add scanrelid rtoffset))) /\
             fix_scan_plan p1 rtoffset g2 = Ok (p, g3)).
  { unfold set_plan_refs_dispatch in Hd. cbv zeta in Hd.
    rewrite Htl1, Hguard, Hf1, Hfields, Ht1 in Hd.
    destruct (type plan); try discriminate Hkind;
      inv_bind Hd as p g4 Hp; inv_ret Hd; eexists; split;
      first [reflexivity | exact Hp]. }
  destruct Hstep as (p & -> & Hp).
  inv_bind Hnode as l g4 Hl. inv_bind Hnode as r0 g5 Hr0. inv_ret Hnode.
  unfold fix_scan_plan in Hp.
  inv_bind Hp as tl g6 Htl'. inv_bind Hp as q g7 Hq'. inv_ret Hp.
  rewrite Htl1 in Htl'. rewrite Hq1 in Hq'.
  destruct p1; cbn in *. subst.
  repeat split. eauto.
Qed.

(** X12.  A plain scan node whose output list need not be fully evaluated
    and that uses no pseudo column comes out of [set_plan_refs] as a node
    of the same kind, on the relation slot shifted by the offset
    (modulo 2^32), with the same output labels; and in each expression of
    its output list and of its filter the variables are those it had, in
    the same order, each with its relation slot shifted by the offset and
    its attribute unchanged. *)
Theorem plain_scan_shifted :
  forall (fuel : nat) (plan : Plan) (rtoffset : Z) (scanrelid : Index)
         (glob : PlannerGlobal) (plan' : Plan) (glob' : PlannerGlobal),
    plain_scan_kind (type plan) = true ->
    fields plan = ScanFields scanrelid ->
    cdb_expr_requires_full_eval (targetlist plan) = false ->
    forallb (fun tle => no_pseudo_columns (expr tle)) (targetlist plan)
    = true ->
    forallb no_pseudo_columns (qual plan) = true ->
    set_plan_refs fuel (Some plan) rtoffset glob = Ok (Some plan', glob') ->
    type plan' = type plan /\
    fields plan' = ScanFields (Index_add scanrelid rtoffset) /\
    Forall2 (fun tle tle' =>
               same_labels tle tle' /\
               variables_shifted rtoffset (expr tle) (expr tle'))
            (targetlist plan) (targetlist plan') /\
    Forall2 (variables_shifted rtoffset) (qual plan) (qual plan').
Proof.
  intros fuel plan rtoffset scanrelid glob plan' glob'
         Hkind Hfields Hguard Htl Hq Hrun.
  destruct (@plain_scan_node _ _ _ _ _ _ _ Hkind Hfields Hguard Hrun)
    as (Htype & Hf & g2 & g6 & g7 & Htl' & Hq').
  split; [exact Htype |]. split; [exact Hf |].
  revert Htl' Hq'. generalize (targetlist plan') (qual plan').
  intros tl q Htl' Hq'. split.
  - unfold fix_scan_tlist, mutate_tlist in Htl'.
    revert Htl Htl'. generalize (targetlist plan). clear.
    intros tl0. revert tl g2 g6.
    induction tl0 as [|tle tl0 IH]; intros tl g2 g6 Hp H; simpl in H.
    + inv_ret H. constructor.
    + simpl in Hp. apply andb_true_iff in Hp. destruct Hp as [Hpx Hpl].
      inv_bind H as y g1 Hy. inv_bind H as ys g3 Hys. inv_ret H.
      inv_bind Hy as e g4 He. inv_ret Hy.
      constructor; [| eapply IH; eassumption].
      split; [reflexivity |]. cbn [set_expr expr].
      eapply fix_scan_expr_mutator_shifts; eassumption.
  - unfold fix_scan_list in Hq'.
    eapply mapM_shifted; [| exact Hq | exact Hq'].
    apply Forall_forall. intros x _ Hx g y g' Hy.
    eapply fix_scan_expr_mutator_shifts; eassumption.
Qed.

End ScanShift.

Lemma plain_scan_shifted_witness :
  exists plan' glob',
    set_plan_refs (cat := Example.catalog) 1 (Some ScanSample.plan) 3
                  Example.glob0 = Ok (Some plan', glob') /\
    (type plan' = type ScanSample.plan /\
     fields plan' = ScanFields (Index_add 2 3) /\
     Forall2 (fun tle tle' =>
                same_labels tle tle' /\
                variables_shifted 3 (expr tle) (expr tle'))
             (targetlist ScanSample.plan) (targetlist plan') /\
     Forall2 (variables_shifted 3) (qual ScanSample.plan) (qual plan')).
Proof.
  eexists. eexists. split; [vm_compute; reflexivity |].
  eapply (@plain_scan_shifted Example.catalog 1 ScanSample.plan 3 2
            Example.glob0); reflexivity.
Defined.

(** ** The shortcut at offset zero *)

Section OffsetZero.
Context {cat : Catalog}.

#[local] Arguments fix_expr_common : simpl never.

Lemma mapM_ext {A B} (f f' : A -> M B) (l : list A) :
  Forall (fun x => forall g, f x g = f' x g) l ->
  forall g, mapM f l g = mapM f' l g.
Proof.
  induction 1 as [|x l Hx Hl IH]; intros g; simpl; [reflexivity |].
  unfold bind. rewrite Hx. destruct (f' x g) as [[y g1]|err]; [| reflexivity].
  rewrite IH. reflexivity.
Qed.

Lemma bind_ext {A B} (m m' : M A) (k : A -> M B) g :
  m g = m' g -> bind m k g = bind m' k g.
Proof. unfold bind. intros ->. reflexivity. Qed.

(** X13.  At offset zero the copying fixer and the in-place walker agree
    on every expression that holds no placeholder and no pseudo column:
    from any global state, [fix_scan_expr_mutator] and
    [fix_scan_expr_walker] give the same outcome, be it the same tree and
    the same global state or the same error.  (The source keeps the
    copying fixer for offset zero because of pseudo columns.) *)
Theorem offset_zero_shortcut :
  forall (e : Node) (glob : PlannerGlobal),
    plain_expression e = true ->
    fix_scan_expr_mutator (mk_fix_scan_expr_context 0) e glob =
    fix_scan_expr_walker (mk_fix_scan_expr_context 0) e glob.
Proof.
  unfold plain_expression.
  induction e as [v|c|e i IHe|f l IH|f l IH|f r0 l IH|t o f r0 l IH
                  |o f u l IH|e f IHe|e t IHe| | |t l IH] using Node_ind';
    intros glob Hp; cbn [node_all] in Hp;
    cbn [fix_scan_expr_mutator fix_scan_expr_walker].
  1: { rewrite andb_true_r in Hp.
       apply andb_true_iff in Hp. destruct Hp as [Hp Hold].
       apply andb_true_iff in Hp. destruct Hp as [Hatt Hno].
       cbn [scan_rtoffset]. unfold copyVar.
       rewrite (Index_add_0 _ Hno).
       assert (Hv : shift_varnoold (set_varno v (varno v)) 0 = v).
       { replace (set_varno v (varno v)) with v by (destruct v; reflexivity).
         apply (shift_varnoold_0 _ Hold). }
       rewrite Hv. apply Z.ltb_lt in Hatt.
       destruct (Z.leb_spec (varattno v) FirstLowInvalidHeapAttributeNumber)
         as [Hle|Hgt]; [lia |].
       reflexivity. }
  2: { discriminate Hp. }
  all: unfold bind at 1 3; destruct (fix_expr_common _ glob) as [[un g1]|err];
    [| reflexivity];
    apply bind_ext;
    unfold expression_tree_walker, expression_tree_mutator;
    try reflexivity;
    apply bind_ext;
    first [ apply mapM_ext; apply forallb_Forall in Hp;
            rewrite Forall_forall in IH, Hp |- *;
            intros x Hx g; apply IH; [exact Hx | apply Hp; exact Hx]
          | apply IHe; exact Hp ].
Qed.

End OffsetZero.

Lemma offset_zero_shortcut_witness :
  plain_expression (cat := Example.catalog) DependencySample.clause = true /\
  fix_scan_expr_mutator (cat := Example.catalog) (mk_fix_scan_expr_context 0)
                        DependencySample.clause Example.glob0 =
  fix_scan_expr_walker (cat := Example.catalog) (mk_fix_scan_expr_context 0)
                       DependencySample.clause Example.glob0.
Proof.
  split; [reflexivity |].
  apply (@offset_zero_shortcut Example.catalog DependencySample.clause
           Example.glob0).
  reflexivity.
Defined.

(** ** A scan keeps addressing its relation *)

Section ScanTarget.
Context {cat : Catalog}.

(** X14.  Flattening and slot shifting fit together.  A plain scan node
    at the top of a subquery's plan scans, after [set_plan_references],
    the flattened copy of the very range-table entry it scanned before:
    if slot [scanrelid] of the subquery's range table holds [rte], then
    the slot that the returned node carries holds, in the final flattened
    range table, an entry for the same data source as [rte] (provided
    that the flattened table stays below 2^32 entries, so that the slot
    does not wrap around). *)
Theorem scan_addresses_own_relation :
  forall (fuel : nat) (plan : Plan) (rtable : list RangeTblEntry)
         (rowmarks : list PlanRowMark) (scanrelid : Index)
         (rte : RangeTblEntry)
         (glob : PlannerGlobal) (plan' : Plan) (glob' : PlannerGlobal),
    plain_scan_kind (type plan) = true ->
    fields plan = ScanFields scanrelid ->
    cdb_expr_requires_full_eval (targetlist plan) = false ->
    rt_fetch scanrelid rtable = Some rte ->
    list_length (finalrtable glob) + list_length rtable < 2 ^ 32 ->
    set_plan_references fuel (Some plan) rtable rowmarks glob
    = Ok (Some plan', glob') ->
    exists scanrelid' c,
      fields plan' = ScanFields scanrelid' /\
      rt_fetch scanrelid' (finalrtable glob') = Some c /\
      same_source rte c.
Proof.
  intros fuel plan rtable rowmarks scanrelid rte glob plan' glob'
         Hkind Hfields Hguard Hrte Hsmall H.
  unfold set_plan_references, set_plan_references_with in H.
  inv_bind H as g0 g0' Hg. inversion Hg; subst g0 g0'.
  inv_bind H as u1 g1 Hrt. inv_bind H as u2 g2 Hrm.
  apply flatten_rtable_appends in Hrt. destruct Hrt as (copies & E1 & F & _).
  apply flatten_rowmarks_appends in Hrm. destruct Hrm as (_ & E2).
  pose proof H as Hnode.
  apply appends_set_plan_refs in H. destruct H as ([rest E3] & _).
  assert (E : finalrtable glob' = finalrtable glob ++ copies ++ rest).
  { rewrite E3, E2, E1, <- app_assoc. reflexivity. }
  eapply plain_scan_node in Hnode; try eassumption.
  destruct Hnode as (_ & Hf & _).
  unfold rt_fetch in Hrte.
  destruct (Z.leb_spec 1 scanrelid) as [Hpos|]; [| discriminate Hrte].
  assert (Hlen : (Z.to_nat (scanrelid - 1) < List.length rtable)%nat).
  { apply nth_error_Some. congruence. }
  destruct (Forall2_nth_error F _ Hrte) as (c & Hc & Hs).
  exists (Index_add scanrelid (list_length (finalrtable glob))), c.
  split; [exact Hf |]. split; [| exact Hs].
  unfold list_length in *.
  assert (Hno : Index_add scanrelid
                          (Z.of_nat (List.length (finalrtable glob)))
                = scanrelid + Z.of_nat (List.length (finalrtable glob))).
  { unfold Index_add. apply Z.mod_small. lia. }
  rewrite Hno. unfold rt_fetch.
  destruct (Z.leb_spec 1 (scanrelid
                          + Z.of_nat (List.length (finalrtable glob))));
    [| lia].
  replace (Z.to_nat (scanrelid + Z.of_nat (List.length (finalrtable glob))
                     - 1))
    with (List.length (finalrtable glob) + Z.to_nat (scanrelid - 1))%nat
    by lia.
  rewrite E, nth_error_app2 by lia.
  replace (List.length (finalrtable glob) + Z.to_nat (scanrelid - 1)
           - List.length (finalrtable glob))%nat
    with (Z.to_nat (scanrelid - 1)) by lia.
  rewrite nth_error_app1; [exact Hc |].
  apply nth_error_Some. congruence.
Qed.

End ScanTarget.

Lemma scan_addresses_own_relation_witness :
  exists plan' glob' scanrelid' c,
    set_plan_references (cat := Example.catalog) 1 (Some ScanSample.plan)
      [Example.rel 600; Example.rel 601] [] ModifySample.glob
    = Ok (Some plan', glob') /\
    fields plan' = ScanFields scanrelid' /\
    rt_fetch scanrelid' (finalrtable glob') = Some c /\
    same_source (Example.rel 601) c.
Proof.
  eexists. eexists.
  assert (Hrun : set_plan_references (cat := Example.catalog) 1
                   (Some ScanSample.plan)
                   [Example.rel 600; Example.rel 601] [] ModifySample.glob
                 = Ok (Some _, _)) by (vm_compute; reflexivity).
  destruct (@scan_addresses_own_relation Example.catalog 1 ScanSample.plan
              [Example.rel 600; Example.rel 601] [] 2 (Example.rel 601)
              ModifySample.glob _ _ eq_refl eq_refl eq_refl eq_refl
              eq_refl Hrun)
    as (scanrelid' & c & H).
  exists scanrelid', c. split; [exact Hrun | exact H].
Defined.

(** ** Distribution keys *)

Section FlowKept.
Context {cat : Catalog}.

Lemma fix_scan_plan_flow (plan : Plan) (rtoffset : Z) glob p glob' :
  fix_scan_plan plan rtoffset glob = Ok (p, glob') -> flow p = flow plan.
Proof.
  unfold fix_scan_plan. intros H.
  inv_bind H as tl g1 Htl. inv_bind H as q g2 Hq. inv_ret H.
  destruct plan; reflexivity.
Qed.

Lemma set_upper_references_flow (plan : Plan) (rtoffset : Z) glob p glob' :
  set_upper_references plan rtoffset glob = Ok (p, glob') ->
  flow p = flow plan.
Proof.
  unfold set_upper_references. intros H.
  inv_bind H as sp g0 Hsp. inv_bind H as tl g1 Htl.
  inv_bind H as q g2 Hq. inv_ret H. destruct plan; reflexivity.
Qed.

Lemma set_join_references_flow (plan : Plan) (rtoffset : Z) glob p glob' :
  set_join_references plan rtoffset glob = Ok (p, glob') ->
  flow p = flow plan.
Proof.
  unfold set_join_references. intros H.
  inv_bind H as op g0 Hop. inv_bind H as ip g0' Hip.
  inv_bind H as tl g1 Htl. inv_bind H as q g2 Hq.
  inv_bind H as x g3 Hx. inv_ret H. destruct plan; reflexivity.
Qed.

Lemma set_flow_at_flow (depth : nat) (plan : Plan) (f : option Flow) :
  flow (set_flow_at depth (set_flow plan f) f) = f.
Proof. destruct depth; reflexivity. Qed.

Lemma set_subqueryscan_references_flow
      (rec : option Plan -> Z -> M (option Plan)) (plan : Plan)
      (rtoffset : Z) glob p glob' :
  set_subqueryscan_references_returned rec plan rtoffset glob
  = Ok (p, glob') ->
  flow (returned_plan p) = flow plan.
Proof.
  unfold set_subqueryscan_references_returned. intros H.
  destruct (fields plan); try discriminate H.
  inv_bind H as sp g1 Hsp. inv_bind H as trivial g2 Ht.
  destruct trivial.
  - inv_bind H as result g3 Hres. inv_ret H. destruct plan; reflexivity.
  - inv_bind H as tl g3 Htl. inv_bind H as q g4 Hq. inv_ret H.
    destruct plan; reflexivity.
Qed.

Section FlowRecursion.
Variable rec : option Plan -> Z -> M (option Returned).

Lemma cdb_insert_result_node_flow (plan : Plan) (rtoffset : Z) glob p glob' :
  cdb_insert_result_node rec plan rtoffset glob = Ok (p, glob') ->
  flow (returned_plan p) = flow plan.
Proof.
  unfold cdb_insert_result_node. intros H.
  inv_bind H as r g1 Hr. inv_bind H as rp g2 Hrp.
  destruct rp as [rp [depth|]|rp given]; inv_ret H;
    cbn [returned_plan]; [apply set_flow_at_flow | reflexivity ..].
Qed.

Ltac flow_inv H :=
  repeat first
    [ match type of H with
      | ret _ _ = Ok _ => inv_ret H
      | raise _ _ = Ok _ => discriminate H
      | bind _ _ _ = Ok _ =>
          let a := fresh "a" in
          let g := fresh "g" in
          let H1 := fresh "Hm" in
          inv_bind H as a g H1
      | (if ?b then _ else _) _ = Ok _ => destruct b eqn:?
      | (match ?x with _ => _ end) _ = Ok _ =>
          destruct x eqn:?; try discriminate H
      end ].

Ltac flow_facts :=
  repeat match goal with
         | H : (match ?x with _ => _ end) _ = Ok _ |- _ =>
             destruct x eqn:?; flow_inv H
         | H : fix_scan_plan _ _ _ = Ok _ |- _ =>
             apply fix_scan_plan_flow in H
         | H : set_upper_references _ _ _ = Ok _ |- _ =>
             apply set_upper_references_flow in H
         | H : set_join_references _ _ _ = Ok _ |- _ =>
             apply set_join_references_flow in H
         | H : cdb_insert_result_node _ _ _ _ = Ok _ |- _ =>
             apply cdb_insert_result_node_flow in H
         | H : set_subqueryscan_references_returned _ _ _ _ = Ok _ |- _ =>
             apply set_subqueryscan_references_flow in H
         end.

Lemma set_plan_refs_dispatch_flow (plan : Plan) (rtoffset : Z)
      glob step glob' :
  set_plan_refs_dispatch rec plan rtoffset glob = Ok (step, glob') ->
  flow match step with Break p => p | Return r => returned_plan r end
  = flow plan.
Proof.
  unfold set_plan_refs_dispatch. cbv zeta. intros H.
  destruct (type plan) eqn:Et; flow_inv H; flow_facts;
    try assumption;
    try (repeat match goal with
                | |- context [match ?x with [] => _ | _ :: _ => _ end] =>
                    destruct x
                end;
         repeat match goal with p : Plan |- _ => destruct p end;
         cbn in *; congruence).
Qed.

Lemma set_plan_refs_node_flow (plan : Plan) (rtoffset : Z) glob p glob' :
  set_plan_refs_node rec plan rtoffset glob = Ok (p, glob') ->
  exists p1 g1, fix_flow plan rtoffset glob = Ok (p1, g1) /\
                flow (returned_plan p) = flow p1.
Proof.
  unfold set_plan_refs_node. intros H.
  inv_bind H as p1 g1 Hflow. inv_bind H as step g2 Hd.
  exists p1, g1. split; [exact Hflow |].
  apply set_plan_refs_dispatch_flow in Hd.
  destruct step as [r|b].
  - inv_ret H. exact Hd.
  - inv_bind H as l g3 Hl. inv_bind H as r g4 Hr. inv_ret H.
    rewrite <- Hd. destruct b; reflexivity.
Qed.

End FlowRecursion.

Lemma mapM_Ok_length {A B} (f : A -> M B) (l : list A) :
  forall g ys g', mapM f l g = Ok (ys, g') -> List.length ys = List.length l.
Proof.
  induction l as [|x l IH]; intros g ys g' H; simpl in H.
  - inv_ret H. reflexivity.
  - inv_bind H as y g1 Hy. inv_bind H as ys' g2 Hys. inv_ret H.
    simpl. f_equal. eapply IH. exact Hys.
Qed.

Lemma fix_flow_resolved (plan : Plan) (rtoffset : Z) glob p glob' :
  fix_flow plan rtoffset glob = Ok (p, glob') -> flow_resolved plan p.
Proof.
  unfold fix_flow, flow_resolved. intros H.
  destruct (flow plan) as [fl|] eqn:Ef;
    [destruct (hashExpr fl) as [|h hs] eqn:Eh |].
  - inv_ret H. exact Ef.
  - inv_bind H as he g1 Hhe. inv_ret H.
    exists he. split; [destruct plan; reflexivity |].
    unfold fix_upper_list in Hhe. split.
    + eapply mapM_Ok_length. exact Hhe.
    + destruct (build_tlist_index_wf (targetlist plan)) as [Hwf Htl].
      eapply mapM_Ok_all; [| exact Hhe].
      apply Forall_forall. intros e _ g y g' Hy.
      pose proof (@fix_upper_expr_mutator_resolved _ _ _ _ _ _ _ Hwf Hy)
        as R.
      rewrite Htl in R. exact R.
  - inv_ret H. exact Ef.
Qed.

(** X15.  Whatever node [set_plan_refs] hands back for a node (the node
    itself, the child pulled up in place of a subquery wrapper, or the
    projection put on top by the full-evaluation guard) carries that
    node's flow, and the hash expressions of the flow have been resolved
    against the node's own output list as it was on entry: as many as
    before, each variable on the left-child sentinel with a position that
    the list declares, no placeholder left. *)
Theorem flow_follows_node :
  forall (fuel : nat) (plan : Plan) (rtoffset : Z)
         (glob : PlannerGlobal) (plan' : Plan) (glob' : PlannerGlobal),
    set_plan_refs fuel (Some plan) rtoffset glob = Ok (Some plan', glob') ->
    flow_resolved plan plan'.
Proof.
  intros fuel plan rtoffset glob plan' glob' Hrun.
  apply set_plan_refs_node_for_node in Hrun.
  destruct Hrun as (fuel' & returned & -> & Hnode & Hr).
  injection Hr as ->.
  apply set_plan_refs_node_flow in Hnode.
  destruct Hnode as (p1 & g2 & Hflow & Hsame).
  apply fix_flow_resolved in Hflow.
  unfold flow_resolved in *. rewrite Hsame. exact Hflow.
Qed.

End FlowKept.

Lemma flow_follows_node_witness :
  exists plan' glob',
    set_plan_refs (cat := Example.catalog) 1 (Some FlowSample.plan) 3
                  Example.glob0 = Ok (Some plan', glob') /\
    flow_resolved (cat := Example.catalog) FlowSample.plan plan'.
Proof.
  eexists. eexists. split; [vm_compute; reflexivity |].
  eapply (@flow_follows_node Example.catalog 1 FlowSample.plan 3
            Example.glob0).
  vm_compute. reflexivity.
Defined.

(** ** When scan-level fixing fails *)

Section Outcome.
Context {cat : Catalog}.

#[local] Arguments fix_expr_common : simpl never.

Lemma record_plan_function_dependency_outcome funcid g :
  succeeds_iff (record_plan_function_dependency funcid g)
               (dependency_found funcid).
Proof.
  unfold record_plan_function_dependency, dependency_found, succeeds_iff.
  destruct (Z.leb_spec FirstBootstrapObjectId funcid) as [Hle|Hgt];
    destruct (Z.ltb_spec funcid FirstBootstrapObjectId) as [Hlt|Hge];
    try lia; cbn [orb]; try reflexivity.
  destruct (SearchSysCache1_PROCOID funcid); [reflexivity |].
  split; reflexivity.
Qed.

Lemma fix_expr_common_outcome n g :
  succeeds_iff (fix_expr_common n g) (fix_expr_common_ok n).
Proof.
  unfold fix_expr_common, fix_expr_common_ok.
  destruct n; try apply record_plan_function_dependency_outcome;
    try reflexivity.
  - destruct (ISREGCLASSCONST con); reflexivity.
  - destruct (OidIsValid elemfuncid); cbn [negb orb];
      [apply record_plan_function_dependency_outcome | reflexivity].
Qed.

Lemma mapM_outcome {A B} (f : A -> M B) (ok : A -> bool) (l : list A) :
  Forall (fun x => forall g, succeeds_iff (f x g) (ok x)) l ->
  forall g, succeeds_iff (mapM f l g) (forallb ok l).
Proof.
  induction 1 as [|x l Hx Hl IH]; intros g; simpl; [reflexivity |].
  unfold bind. specialize (Hx g).
  destruct (f x g) as [[y g1]|err]; cbn [succeeds_iff] in Hx |- *.
  - rewrite Hx. cbn [andb]. specialize (IH g1).
    destruct (mapM f l g1) as [[ys g2]|err]; exact IH.
  - destruct Hx as [-> ->]. split; reflexivity.
Qed.

Lemma bind_outcome {A B} (m : M A) (k : A -> M B) (ok1 ok2 : bool) g :
  succeeds_iff (m g) ok1 ->
  (forall a g1, succeeds_iff (k a g1) ok2) ->
  succeeds_iff (bind m k g) (ok1 && ok2).
Proof.
  unfold bind. intros Hm Hk.
  destruct (m g) as [[a g1]|err]; cbn [succeeds_iff] in Hm.
  - rewrite Hm. cbn [andb]. apply Hk.
  - destruct Hm as [-> ->]. split; reflexivity.
Qed.

Lemma ret_after_outcome {A B} (m : M A) (h : A -> B) (ok : bool) g :
  succeeds_iff (m g) ok ->
  succeeds_iff ((x <- m ;; ret (h x)) g) ok.
Proof.
  unfold bind. intros Hm. destruct (m g) as [[a g1]|err]; exact Hm.
Qed.

(** X16.  On an expression without pseudo columns, scan-level fixing can
    fail in one way only.  It returns a tree exactly when every function
    that the expression invokes (function call, aggregate, window
    function, operator implementation, array coercion) is a built-in one
    or has its row in the catalog; otherwise it stops with "cache lookup
    failed for function". *)
Theorem scan_fixing_outcome :
  forall (rtoffset : Z) (e : Node) (glob : PlannerGlobal),
    no_pseudo_columns e = true ->
    succeeds_iff
      (fix_scan_expr_mutator (mk_fix_scan_expr_context rtoffset) e glob)
      (deps_resolvable e).
Proof.
  intros rtoffset e. unfold no_pseudo_columns, deps_resolvable.
  induction e as [v|c|e i IHe|f l IH|f l IH|f r0 l IH|t o f r0 l IH
                  |o f u l IH|e f IHe|e t IHe| | |t l IH] using Node_ind';
    intros glob Hp; cbn [fix_scan_expr_mutator];
    cbn [variables] in Hp; cbn [node_all].
  1: { cbn [forallb] in Hp. rewrite andb_true_r in Hp.
       apply Z.ltb_lt in Hp. cbn [scan_rtoffset].
       assert (Ha : varattno (shift_varnoold
                                (set_varno (copyVar v)
                                   (Index_add (varno (copyVar v)) rtoffset))
                                rtoffset) = varattno v).
       { unfold shift_varnoold, copyVar.
         destruct (0 <? _); reflexivity. }
       rewrite Ha.
       destruct (Z.leb_spec (varattno v) FirstLowInvalidHeapAttributeNumber)
         as [Hle|Hgt]; [lia |].
       reflexivity. }
  2: { cbn [fix_expr_common_ok andb]. apply IHe. exact Hp. }
  all: apply bind_outcome; [apply fix_expr_common_outcome |];
    intros un g1; unfold expression_tree_mutator;
    try reflexivity;
    apply ret_after_outcome with (h := fix_expr_common_node);
    first [ apply ret_after_outcome with (m := mapM _ l);
            apply mapM_outcome; rewrite forallb_flat_map in Hp;
            apply forallb_Forall in Hp;
            rewrite Forall_forall in IH, Hp |- *;
            intros x Hx g; apply (IH x Hx g); apply Hp; exact Hx
          | apply ret_after_outcome with
              (m := fix_scan_expr_mutator (mk_fix_scan_expr_context rtoffset)
                                          e);
            apply IHe; exact Hp ].
Qed.

End Outcome.

Lemma scan_fixing_outcome_witness :
  no_pseudo_columns (cat := Example.catalog) FailureSample.clause = true /\
  succeeds_iff
    (fix_scan_expr_mutator (cat := Example.catalog)
       (mk_fix_scan_expr_context 3) FailureSample.clause Example.glob0)
    (deps_resolvable (cat := Example.catalog) FailureSample.clause).
Proof.
  split; [reflexivity |].
  apply (@scan_fixing_outcome Example.catalog 3 FailureSample.clause
           Example.glob0).
  reflexivity.
Defined.
